(** * Compressed log chunks: [pkg/chunkenc/memchunk.go]

    A shallow embedding of the in-memory chunk of the log store: the head
    block, the cut blocks, the chunk container format written by [Bytes] and
    read back by [NewByteChunk], and the buffered block iterator.

    Conventions.
    - Go's [int], [int64], [uint64], [uint32] and [byte] are integers in [Z];
      every conversion and every addition that can wrap is written with
      [to_int], [to_int64], [to_uint64], [to_uint32], [to_byte].
    - A [[]byte] and a [string] are both [list byte].
    - A run-time panic (index out of range, nil dereference) is the outcome
      [Panics]; a loop that spins is cut by a fuel argument and is the outcome
      [OutOfFuel]. *)

From Stdlib Require Import String.
From Stdlib Require Import ZArith List Lia Bool.
From Stdlib Require Import Init.Byte.
From Stdlib Require Floats Uint63.
Import ListNotations.
Local Open Scope Z_scope.

Set Implicit Arguments.

(* ================================================================= *)
(** ** Machine integers and bytes *)

Definition to_uint64 (x : Z) : Z := x mod 2 ^ 64.
Definition to_uint32 (x : Z) : Z := x mod 2 ^ 32.
Definition to_int64 (x : Z) : Z := (x + 2 ^ 63) mod 2 ^ 64 - 2 ^ 63.
(** [int] is taken 64 bits wide, as it is on amd64 and arm64; on the 32-bit
    arm build it has 32 bits, and the sums below wrap earlier there. *)
Definition to_int (x : Z) : Z := to_int64 x.
Definition to_byte (x : Z) : Z := x mod 256.

Definition int_add (x y : Z) : Z := to_int (x + y).
Definition int_mul (x y : Z) : Z := to_int (x * y).

Definition b2z (c : byte) : Z := Z.of_N (Byte.to_N c).
Definition z2b (x : Z) : byte :=
  match Byte.of_N (Z.to_N (to_byte x)) with
  | Some c => c
  | None => x00
  end.

(** [len(b)] as an [int]. *)
Definition len {A : Type} (l : list A) : Z := Z.of_nat (length l).

(** What a piece of code can do besides returning an error value. *)
Inductive outcome (A : Type) : Type :=
| Ret (a : A)
| Panics
| OutOfFuel.
Arguments Ret {A} a.
Arguments Panics {A}.
Arguments OutOfFuel {A}.

Definition bind {A B : Type} (m : outcome A) (k : A -> outcome B) : outcome B :=
  match m with
  | Ret a => k a
  | Panics => Panics
  | OutOfFuel => OutOfFuel
  end.

Notation "x <- m ;; k" := (bind m (fun x => k))
  (at level 61, m at next level, right associativity).
Notation "' p <- m ;; k" := (bind m (fun p => k))
  (at level 61, p pattern, m at next level, right associativity).

(** The slice expression [b[lo:hi]]: it panics unless [0 <= lo <= hi <= cap(b)].
    A byte slice handed to the parser is taken with its capacity equal to its
    length. *)
Definition slice (b : list byte) (lo hi : Z) : outcome (list byte) :=
  if (0 <=? lo) && (lo <=? hi) && (hi <=? len b)
  then Ret (firstn (Z.to_nat (hi - lo)) (skipn (Z.to_nat lo) b))
  else Panics.

(** [b[lo:]] *)
Definition slice_from (b : list byte) (lo : Z) : outcome (list byte) :=
  slice b lo (len b).

(* ================================================================= *)
(** ** Errors *)

(** Modelled from the spec: the file that declares the error values of the
    package is missing; section 7 names them.  The other constructors are
    the errors the code builds itself and those of the standard library. *)
Inductive error : Type :=
| ErrOutOfOrder                      (* "entry out of order" *)
| ErrInvalidSize                     (* "invalid size" *)
| ErrInvalidChecksum                 (* "invalid chunk checksum" *)
| ErrInvalidMagic (m : Z)            (* errors.Errorf("invalid magic number %x", m) *)
| ErrInvalidVersion (v : Z)          (* errors.Errorf("invalid version %d", version) *)
| ErrWrap (cause : error) (msg : String.string)  (* errors.Wrap(cause, msg) *)
| ErrLineTooLong (n : Z)             (* "line too long %d, maximum %d" *)
| ErrLineBuffer (n c : Z)            (* "could not get a line buffer of size %d, actual %d" *)
| ErrVarintOverflow                  (* binary: varint overflows a 64-bit integer *)
| ErrUnexpectedEOF                   (* io.ErrUnexpectedEOF *)
| EOF                                (* io.EOF *)
| ErrIO (code : nat).                (* any other error of a reader or writer *)

Definition is_EOF (e : error) : bool :=
  match e with EOF => true | _ => false end.

Definition error_eqb_OutOfOrder (e : option error) : bool :=
  match e with Some ErrOutOfOrder => true | _ => false end.

(* ================================================================= *)
(** ** hash/crc32 with the Castagnoli polynomial *)

Module crc32.

(** The reversed polynomial, [crc32.Castagnoli]. *)
Definition Castagnoli : Z := 0x82f63b78.

(** One round of [simpleMakeTable]'s inner loop. *)
Definition table_step (crc : Z) : Z :=
  if Z.land crc 1 =? 1
  then Z.lxor (Z.shiftr crc 1) Castagnoli
  else Z.shiftr crc 1.

(** [castagnoliTable[i]] *)
Definition castagnoliTable (i : Z) : Z :=
  Nat.iter 8 table_step i.

(** The loop body of [simpleUpdate]:
    [crc = tab[byte(crc)^v] ^ (crc >> 8)]. *)
Definition update_byte (crc : Z) (v : byte) : Z :=
  Z.lxor (castagnoliTable (Z.lxor (to_byte crc) (b2z v))) (Z.shiftr crc 8).

Definition not32 (x : Z) : Z := Z.lxor x 0xFFFFFFFF.

(** [crc32.Checksum(p, castagnoliTable)] *)
Definition Checksum (p : list byte) : Z :=
  not32 (fold_left update_byte p (not32 0)).

End crc32.

(* ================================================================= *)
(** ** Readers *)

(** An [io.Reader] over memory: the bytes it still delivers, and the error
    it returns once they are used up ([EOF] for a stream that ends well). *)
Record rstream := mkStream { rs_data : list byte; rs_end : error }.

(** The two methods of [bufio.Reader] the iterator calls. *)
Module bufio.

Definition ReadByte (r : rstream) : (byte + error) * rstream :=
  match rs_data r with
  | c :: rest => (inl c, mkStream rest (rs_end r))
  | [] => (inr (rs_end r), r)
  end.

(** [Read(p)] with [len(p) = k]: the bytes read and the error.  A call
    with an empty [p] reads nothing; a call at the end of the stream reads
    nothing and returns the final error; otherwise the reader delivers
    every requested byte that is left (a reader that delivers less per
    call makes the caller's loop longer, not different). *)
Definition Read (r : rstream) (k : Z) : (list byte * option error) * rstream :=
  if k <=? 0 then (([], None), r)
  else
    match rs_data r with
    | [] => (([], Some (rs_end r)), r)
    | _ => ((firstn (Z.to_nat k) (rs_data r), None),
            mkStream (skipn (Z.to_nat k) (rs_data r)) (rs_end r))
    end.

End bufio.

(* ================================================================= *)
(** ** encoding/binary *)

Module binary.

Definition MaxVarintLen64 : Z := 10.

(** [binary.BigEndian.PutUint32] into four fresh bytes. *)
Definition PutUint32 (v : Z) : list byte :=
  [ z2b (Z.shiftr v 24); z2b (Z.shiftr v 16); z2b (Z.shiftr v 8); z2b v ].

Definition PutUint64 (v : Z) : list byte :=
  [ z2b (Z.shiftr v 56); z2b (Z.shiftr v 48); z2b (Z.shiftr v 40);
    z2b (Z.shiftr v 32); z2b (Z.shiftr v 24); z2b (Z.shiftr v 16);
    z2b (Z.shiftr v 8); z2b v ].

(** [binary.BigEndian.Uint32(b)]: panics when [b] has fewer than 4 bytes. *)
Definition Uint32 (b : list byte) : outcome Z :=
  match b with
  | b0 :: b1 :: b2 :: b3 :: _ =>
      Ret (Z.lor (Z.lor (Z.lor (b2z b3) (Z.shiftl (b2z b2) 8))
                        (Z.shiftl (b2z b1) 16))
                 (Z.shiftl (b2z b0) 24))
  | _ => Panics
  end.

Definition Uint64 (b : list byte) : outcome Z :=
  match b with
  | b0 :: b1 :: b2 :: b3 :: b4 :: b5 :: b6 :: b7 :: _ =>
      Ret (Z.lor (Z.lor (Z.lor (Z.lor (Z.lor (Z.lor (Z.lor
            (b2z b7) (Z.shiftl (b2z b6) 8)) (Z.shiftl (b2z b5) 16))
            (Z.shiftl (b2z b4) 24)) (Z.shiftl (b2z b3) 32))
            (Z.shiftl (b2z b2) 40)) (Z.shiftl (b2z b1) 48))
            (Z.shiftl (b2z b0) 56))
  | _ => Panics
  end.

(** [PutUvarint]: [for x >= 0x80 { buf[i] = byte(x) | 0x80; x >>= 7; i++ }]
    then [buf[i] = byte(x)].  A [uint64] leaves the loop after at most nine
    rounds, which is the bound of the recursion. *)
Fixpoint PutUvarint_loop (rounds : nat) (x : Z) : list byte :=
  match rounds with
  | O => [z2b x]
  | S r =>
      if 0x80 <=? x
      then z2b (Z.lor (to_byte x) 0x80) :: PutUvarint_loop r (Z.shiftr x 7)
      else [z2b x]
  end.

Definition PutUvarint (x : Z) : list byte := PutUvarint_loop 9 x.

(** The zig-zag encoding at the head of [PutVarint]:
    [ux := uint64(x) << 1; if x < 0 { ux = ^ux }]. *)
Definition zigzag (x : Z) : Z :=
  let ux := to_uint64 (Z.shiftl (to_uint64 x) 1) in
  if x <? 0 then Z.lxor ux (2 ^ 64 - 1) else ux.

Definition PutVarint (x : Z) : list byte := PutUvarint (zigzag x).

(** [Uvarint(buf)]: the value and the number of bytes read; [n = 0] when
    the buffer is too small, [n < 0] on overflow. *)
Fixpoint Uvarint_loop (buf : list byte) (i s x : Z) : Z * Z :=
  match buf with
  | [] => (0, 0)
  | c :: rest =>
      if i =? MaxVarintLen64 then (0, - (i + 1))
      else if b2z c <? 0x80 then
        if (i =? MaxVarintLen64 - 1) && (1 <? b2z c) then (0, - (i + 1))
        else (Z.lor x (to_uint64 (Z.shiftl (b2z c) s)), i + 1)
      else Uvarint_loop rest (i + 1) (s + 7)
             (Z.lor x (to_uint64 (Z.shiftl (Z.land (b2z c) 0x7f) s)))
  end.

Definition Uvarint (buf : list byte) : Z * Z := Uvarint_loop buf 0 0 0.

(** The zig-zag decoding shared by [Varint] and [ReadVarint]:
    [x := int64(ux >> 1); if ux&1 != 0 { x = ^x }]. *)
Definition unzigzag (ux : Z) : Z :=
  let x := to_int64 (Z.shiftr ux 1) in
  if Z.land ux 1 =? 0 then x else Z.lnot x.

Definition Varint (buf : list byte) : Z * Z :=
  let '(ux, n) := Uvarint buf in (unzigzag ux, n).

(** [ReadUvarint(r)], as the standard library had it when the code was
    written: at most [MaxVarintLen64] bytes are read, and an error of the
    reader is returned as it is, along with the value gathered so far.
    (Since Go 1.19 a stream that ends after one byte or more of a varint
    gives [io.ErrUnexpectedEOF] in the place of [io.EOF]; no property below
    reads such a stream.) *)
Fixpoint ReadUvarint_loop (rounds : nat) (i s x : Z) (r : rstream)
  : Z * option error * rstream :=
  match rounds with
  | O => (x, Some ErrVarintOverflow, r)
  | S n =>
      match bufio.ReadByte r with
      | (inr err, r) =>
          (x, Some err, r)
      | (inl c, r) =>
          if b2z c <? 0x80 then
            if (i =? MaxVarintLen64 - 1) && (b2z c >? 1)
            then (x, Some ErrVarintOverflow, r)
            else (Z.lor x (to_uint64 (Z.shiftl (b2z c) s)), None, r)
          else ReadUvarint_loop n (i + 1) (s + 7)
                 (Z.lor x (to_uint64 (Z.shiftl (Z.land (b2z c) 0x7f) s))) r
      end
  end.

Definition ReadUvarint (r : rstream) : Z * option error * rstream :=
  ReadUvarint_loop 10 0 0 0 r.

Definition ReadVarint (r : rstream) : Z * option error * rstream :=
  let '(ux, err, r) := ReadUvarint r in (unzigzag ux, err, r).

End binary.

(* ================================================================= *)
(** ** The encoding helpers of the package: [encbuf] and [decbuf] *)

(** Modelled from the spec: the file of the package that declares [encbuf]
    (an append-only byte buffer with [putBE32], [putBE64int], [putByte],
    [putBytes], [putUvarint], [putVarint64], [putHash]) is missing; section
    4.A gives them as the fixed-width and varint encoders, and the checksum
    as CRC32-Castagnoli over the exact bytes written so far, appended
    big-endian. *)
Module encbuf.

Definition encbuf := list byte.

Definition reset (e : encbuf) : encbuf := [].
Definition get (e : encbuf) : list byte := e.
Definition putBytes (e : encbuf) (b : list byte) : encbuf := e ++ b.
Definition putByte (e : encbuf) (c : Z) : encbuf := e ++ [z2b c].
Definition putBE32 (e : encbuf) (x : Z) : encbuf := e ++ binary.PutUint32 x.
Definition putBE64 (e : encbuf) (x : Z) : encbuf := e ++ binary.PutUint64 x.
Definition putBE64int (e : encbuf) (x : Z) : encbuf := putBE64 e (to_uint64 x).
Definition putUvarint64 (e : encbuf) (x : Z) : encbuf := e ++ binary.PutUvarint x.
Definition putUvarint (e : encbuf) (x : Z) : encbuf := putUvarint64 e (to_uint64 x).
Definition putVarint64 (e : encbuf) (x : Z) : encbuf := e ++ binary.PutVarint x.
Definition putHash (e : encbuf) : encbuf :=
  e ++ binary.PutUint32 (crc32.Checksum e).

End encbuf.

(** Modelled from the spec: the file that declares [decbuf] is missing;
    section 4.A gives the decoders as symmetric to the encoders, with a
    sticky error: once a read fails (short buffer, malformed varint) every
    later read returns zero and [err] returns that error. *)
Module decbuf.

Record decbuf := mk { b : list byte; e : option error }.

Definition err (d : decbuf) : option error := e d.

Definition crc32 (d : decbuf) : Z := crc32.Checksum (b d).

Definition be32 (d : decbuf) : Z * decbuf :=
  match e d with
  | Some _ => (0, d)
  | None =>
      match b d with
      | b0 :: b1 :: b2 :: b3 :: rest =>
          (match binary.Uint32 (b d) with Ret x => x | _ => 0 end,
           mk rest None)
      | _ => (0, mk (b d) (Some ErrInvalidSize))
      end
  end.

Definition byte (d : decbuf) : Z * decbuf :=
  match e d with
  | Some _ => (0, d)
  | None =>
      match b d with
      | c :: rest => (b2z c, mk rest None)
      | [] => (0, mk (b d) (Some ErrInvalidSize))
      end
  end.

Definition uvarint64 (d : decbuf) : Z * decbuf :=
  match e d with
  | Some _ => (0, d)
  | None =>
      let '(x, n) := binary.Uvarint (b d) in
      if n <? 1 then (0, mk (b d) (Some ErrInvalidSize))
      else (x, mk (skipn (Z.to_nat n) (b d)) None)
  end.

Definition varint64 (d : decbuf) : Z * decbuf :=
  match e d with
  | Some _ => (0, d)
  | None =>
      let '(x, n) := binary.Varint (b d) in
      if n <? 1 then (0, mk (b d) (Some ErrInvalidSize))
      else (x, mk (skipn (Z.to_nat n) (b d)) None)
  end.

Definition uvarint (d : decbuf) : Z * decbuf :=
  let '(x, d') := uvarint64 d in (to_int x, d').

End decbuf.
Abbreviation decbuf := decbuf.decbuf.

(* ================================================================= *)
(** ** Compression pools and readers *)

(** Modelled from the spec: the file that declares [Encoding] and its tags
    is missing; section 4.B has the tag as one byte, with [None = 0] and
    [GZIP = 1]. *)
Definition Encoding := Z.
Definition EncNone : Encoding := 0.
Definition EncGZIP : Encoding := 1.

(** What a pooled compressing writer does with one buffer: [GetWriter] over
    a fresh output buffer, one [Write] of the whole input, then [Close]. *)
Inductive wresult : Type :=
| WriteFailed (e : error)
| CloseFailed (e : error)
| Compressed (out : list byte).

Definition WriterPool := list byte -> wresult.

Definition ReaderPool := list byte -> rstream.

(** Modelled from the spec: the file that declares the pools
    ([getWriterPool], [getReaderPool]) is missing; section 4.B gives them as
    one writer pool and one reader pool per encoding tag. *)
Class Pools : Type := {
  getWriterPool : Encoding -> WriterPool;
  getReaderPool : Encoding -> ReaderPool;
  (** [cap(BytesBufferPool.Get(size))]: section 4.F has the line buffer
      come from a size-classed pool, sized at least as asked. *)
  BytesBufferPool_Get : Z -> Z;
  BytesBufferPool_Get_cap : forall size : Z, size <= BytesBufferPool_Get size
}.

(** An encoding is supported when its writer compresses every buffer into a
    non-empty payload from which its reader delivers the buffer again. *)
Definition supported `{Pools} (enc : Encoding) : Prop :=
  forall inBuf : list byte,
    exists out : list byte,
      getWriterPool enc inBuf = Compressed out /\
      (inBuf <> [] -> out <> []) /\
      getReaderPool enc out = mkStream inBuf EOF.

(** The pools of the encoding [EncNone], which stores the bytes as they are;
    any other tag is served the same way here. *)
Definition nonePools : Pools := {|
  getWriterPool := fun _ inBuf => Compressed inBuf;
  getReaderPool := fun _ b => mkStream b EOF;
  BytesBufferPool_Get := fun size => size;
  BytesBufferPool_Get_cap := Z.le_refl
|}.

(* ================================================================= *)
(** ** Entries, the head block and the cut blocks *)

Definition blocksPerChunk : Z := 10.
Definition maxLineLength : Z := 1024 * 1024 * 1024.
Definition magicNumber : Z := 0x12EE56A.
Definition chunkFormatV1 : Z := 1.
Definition chunkFormatV2 : Z := 2.

(** [logproto.Entry], with the timestamp as its [UnixNano()]. *)
Module Entry.
Record Entry := mk { Timestamp : Z; Line : list byte }.
End Entry.
Abbreviation Entry := Entry.Entry.

Module entry.
Record entry := mk { t : Z; s : list byte }.
End entry.
Abbreviation entry := entry.entry.

Module block.
Record block := mk {
  b : list byte;            (* compressed bytes *)
  numEntries : Z;
  mint : Z;
  maxt : Z;
  offset : Z;               (* the offset of the block in the chunk *)
  uncompressedSize : Z
}.

Definition zero : block := mk [] 0 0 0 0 0.

Definition with_offset (blk : block) (o : Z) : block :=
  mk (b blk) (numEntries blk) (mint blk) (maxt blk) o (uncompressedSize blk).

(** The methods of the interface [Block]. *)
Definition Offset (blk : block) : Z := offset blk.
Definition Entries (blk : block) : Z := numEntries blk.
Definition MinTime (blk : block) : Z := mint blk.
Definition MaxTime (blk : block) : Z := maxt blk.
End block.
Abbreviation block := block.block.

Module headBlock.

Record headBlock := mk {
  entries : list entry;
  size : Z;                 (* size of uncompressed bytes *)
  mint : Z;
  maxt : Z
}.

Definition zero : headBlock := mk [] 0 0 0.

Definition isEmpty (hb : headBlock) : bool := len (entries hb) =? 0.

Definition append (hb : headBlock) (ts : Z) (line : list byte)
  : headBlock * option error :=
  if negb (isEmpty hb) && (maxt hb >? ts) then (hb, Some ErrOutOfOrder)
  else
    (mk (entries hb ++ [entry.mk ts line])
        (int_add (size hb) (len line))
        (if (mint hb =? 0) || (mint hb >? ts) then ts else mint hb)
        ts,
     None).

(** What the loop of [serialise] writes into [inBuf] for one entry. *)
Definition serialise_entry (e : entry) : list byte :=
  binary.PutVarint (entry.t e)
    ++ binary.PutUvarint (to_uint64 (len (entry.s e)))
    ++ entry.s e.

Definition inBuf (hb : headBlock) : list byte :=
  flat_map serialise_entry (entries hb).

Definition serialise (hb : headBlock) (pool : WriterPool)
  : list byte * option error :=
  match pool (inBuf hb) with
  | WriteFailed e => ([], Some (ErrWrap e "appending entry"%string))
  | CloseFailed e => ([], Some (ErrWrap e "flushing pending compress buffer"%string))
  | Compressed out => (out, None)
  end.

End headBlock.
Abbreviation headBlock := headBlock.headBlock.

(* ================================================================= *)
(** ** The chunk *)

(** An event sent to the logger by [NewByteChunk]: the block at this index
    of the metadata was skipped because its checksum does not match. *)
Inductive logEvent : Type :=
| BlockSkipped (index : Z) (err : error).

Module MemChunk.

(** Both constructors allocate the head block, so [head] is never nil. *)
Record MemChunk := mk {
  blockSize : Z;            (* the number of uncompressed bytes per block *)
  targetSize : Z;           (* target size in compressed bytes *)
  blocks : list block;      (* the finished blocks *)
  cutBlockSize : Z;         (* the compressed size of all the blocks *)
  head : headBlock;
  format : Z;
  encoding : Encoding
}.

Definition with_head (c : MemChunk) (h : headBlock) : MemChunk :=
  mk (blockSize c) (targetSize c) (blocks c) (cutBlockSize c) h
     (format c) (encoding c).

Definition with_blocks (c : MemChunk) (bs : list block) : MemChunk :=
  mk (blockSize c) (targetSize c) bs (cutBlockSize c) (head c)
     (format c) (encoding c).

Definition NewMemChunk (enc : Encoding) (blockSize targetSize : Z) : MemChunk :=
  mk blockSize targetSize [] 0 headBlock.zero chunkFormatV2 enc.

(** [c.blocks[len(c.blocks)-1]], read only where the list is not empty. *)
Definition last_block (c : MemChunk) : block := last (blocks c) block.zero.

Section WithPools.
Context `{Pools}.

(** cut a new block and add it to finished blocks. *)
Definition cut (c : MemChunk) : MemChunk * option error :=
  if headBlock.isEmpty (head c) then (c, None)
  else
    match headBlock.serialise (head c) (getWriterPool (encoding c)) with
    | (_, Some err) => (c, Some err)
    | (b, None) =>
        (mk (blockSize c) (targetSize c)
            (blocks c ++
               [block.mk b (len (headBlock.entries (head c)))
                  (headBlock.mint (head c)) (headBlock.maxt (head c))
                  0 (headBlock.size (head c))])
            (int_add (cutBlockSize c) (len b))
            (headBlock.mk [] 0 0 (headBlock.maxt (head c)))
            (format c) (encoding c),
         None)
    end.

Definition Close (c : MemChunk) : MemChunk * option error := cut c.

Definition Append (c : MemChunk) (e : Entry) : MemChunk * option error :=
  let entryTimestamp := Entry.Timestamp e in
  if headBlock.isEmpty (head c) && (len (blocks c) >? 0)
     && (block.maxt (last_block c) >? entryTimestamp)
  then (c, Some ErrOutOfOrder)
  else
    match headBlock.append (head c) entryTimestamp (Entry.Line e) with
    | (_, Some err) => (c, Some err)
    | (h, None) =>
        let c := with_head c h in
        if headBlock.size (head c) >=? blockSize c then cut c
        else (c, None)
    end.

(** The first loop of [Bytes]: each block gets its offset, then its
    bytes and their checksum are written. *)
Fixpoint write_blocks (bs : list block) (buf : list byte) (offset : Z)
  : list block * list byte * Z :=
  match bs with
  | [] => ([], buf, offset)
  | blk :: rest =>
      let eb := encbuf.putHash (encbuf.putBytes (encbuf.reset []) (block.b blk)) in
      let n := len (encbuf.get eb) in
      let '(rest', buf', offset') :=
        write_blocks rest (buf ++ encbuf.get eb) (int_add offset n) in
      (block.with_offset blk offset :: rest', buf', offset')
  end.

(** The second loop of [Bytes]: the metadata of each block. *)
Definition put_meta (eb : encbuf.encbuf) (blk : block) : encbuf.encbuf :=
  let eb := encbuf.putUvarint eb (block.numEntries blk) in
  let eb := encbuf.putVarint64 eb (block.mint blk) in
  let eb := encbuf.putVarint64 eb (block.maxt blk) in
  let eb := encbuf.putUvarint eb (block.offset blk) in
  encbuf.putUvarint eb (len (block.b blk)).

Definition write_header (c : MemChunk) : encbuf.encbuf :=
  let eb := encbuf.putBE32 [] magicNumber in
  let eb := encbuf.putByte eb (format c) in
  if format c =? chunkFormatV2
  then encbuf.putByte eb (to_byte (encoding c))
  else eb.

(** [Bytes]: the chunk as left by the call, the bytes and the error.
    Writing into a [bytes.Buffer] does not fail, so the only error is
    the one of [cut]. *)
Definition Bytes (c : MemChunk) : MemChunk * (list byte * option error) :=
  match cut c with
  | (c, Some err) => (c, ([], Some err))
  | (c, None) =>
      let eb := write_header c in
      let buf := encbuf.get eb in
      let offset := int_add 0 (len (encbuf.get eb)) in
      let '(bs, buf, offset) := write_blocks (blocks c) buf offset in
      let c := with_blocks c bs in
      let metasOffset := offset in
      let eb := encbuf.putUvarint (encbuf.reset eb) (len (blocks c)) in
      let eb := fold_left put_meta (blocks c) eb in
      let eb := encbuf.putHash eb in
      let buf := buf ++ encbuf.get eb in
      let eb := encbuf.putBE64int (encbuf.reset eb) metasOffset in
      let buf := buf ++ encbuf.get eb in
      (c, (buf, None))
  end.

End WithPools.

(** The state of the loop of [NewByteChunk]. *)
Record parse := mkParse {
  p_blocks : list block;
  p_cutBlockSize : Z;
  p_db : decbuf;
  p_log : list logEvent
}.

(** One round of [for i := 0; i < num; i++]: [inl] goes on with the next
    round, [inr] returns the error. *)
Definition parse_block (b : list byte) (i : Z) (st : parse)
  : outcome (parse + error) :=
  let db := p_db st in
  let '(numEntries, db) := decbuf.uvarint db in
  let '(mint, db) := decbuf.varint64 db in
  let '(maxt, db) := decbuf.varint64 db in
  let '(offset, db) := decbuf.uvarint db in
  let '(l, db) := decbuf.uvarint db in
  blk_b <- slice b offset (int_add offset l) ;;
  tail <- slice_from b (int_add offset l) ;;
  expCRC <- binary.Uint32 tail ;;
  if negb (expCRC =? crc32.Checksum blk_b) then
    Ret (inl (mkParse (p_blocks st) (p_cutBlockSize st) db
                      (p_log st ++ [BlockSkipped i ErrInvalidChecksum])))
  else
    let blk := block.mk blk_b numEntries mint maxt offset 0 in
    let st' := mkParse (p_blocks st ++ [blk])
                       (int_add (p_cutBlockSize st) (len blk_b)) db (p_log st) in
    match decbuf.err db with
    | Some e => Ret (inr (ErrWrap e "decoding block meta"%string))
    | None => Ret (inl st')
    end.

Fixpoint parse_blocks (rounds : nat) (b : list byte) (i : Z) (st : parse)
  : outcome (parse + error) :=
  match rounds with
  | O => Ret (inl st)
  | S r =>
      x <- parse_block b i st ;;
      match x with
      | inl st' => parse_blocks r b (i + 1) st'
      | inr e => Ret (inr e)
      end
  end.

(** [make([]block, 0, num)] panics on a negative capacity and on one that
    exceeds the largest allocation (2^48 bytes, a block taking 64). *)
Definition make_blocks_ok (num : Z) : bool :=
  (0 <=? num) && (num <=? 2 ^ 48 / 64).

(** The head of [NewByteChunk], up to the [switch] on the version: the
    version and the encoding, or the error returned. *)
Definition read_header (b : list byte) : (Z * Encoding) + error :=
  let db := decbuf.mk b None in
  let '(m, db) := decbuf.be32 db in
  let '(version, db) := decbuf.byte db in
  match decbuf.err db with
  | Some e => inr (ErrWrap e "verifying header"%string)
  | None =>
      if negb (m =? magicNumber) then inr (ErrInvalidMagic m)
      else if version =? chunkFormatV1 then inl (version, EncGZIP)
      else if version =? chunkFormatV2 then
        let '(enc, db) := decbuf.byte db in
        match decbuf.err db with
        | Some e => inr (ErrWrap e "verifying encoding"%string)
        | None => inl (version, enc)
        end
      else inr (ErrInvalidVersion version)
  end.

(** [NewByteChunk]: the chunk or the error, and what was logged. *)
Definition NewByteChunk (b : list byte) (blockSize targetSize : Z)
  : outcome ((MemChunk + error) * list logEvent) :=
  match read_header b with
  | inr e => Ret (inr e, [])
  | inl (version, enc) =>
      tail8 <- slice_from b (len b - 8) ;;
      metasOffset <- binary.Uint64 tail8 ;;
      mb <- slice b metasOffset (len b - (8 + 4)) ;;
      let db := decbuf.mk mb None in
      tail12 <- slice_from b (len b - (8 + 4)) ;;
      expCRC <- binary.Uint32 tail12 ;;
      if negb (expCRC =? decbuf.crc32 db) then Ret (inr ErrInvalidChecksum, [])
      else
        let '(num, db) := decbuf.uvarint db in
        if negb (make_blocks_ok num) then Panics
        else
          x <- parse_blocks (Z.to_nat num) b 0 (mkParse [] 0 db []) ;;
          match x with
          | inr e => Ret (inr e, [])
          | inl st =>
              Ret (inl (mk blockSize targetSize (p_blocks st)
                           (p_cutBlockSize st) headBlock.zero version enc),
                   p_log st)
          end
  end.

(* --------------------------------------------------------------- *)
(** *** Sizes *)

Definition Size (c : MemChunk) : Z :=
  let ne := fold_left (fun ne blk => int_add ne (block.numEntries blk)) (blocks c) 0 in
  if negb (headBlock.isEmpty (head c))
  then int_add ne (len (headBlock.entries (head c)))
  else ne.

Definition BlockCount (c : MemChunk) : Z := len (blocks c).

Definition SpaceFor (c : MemChunk) (e : Entry) : bool :=
  if targetSize c >? 0 then
    let newHBSize := int_add (headBlock.size (head c)) (len (Entry.Line e)) in
    int_add (cutBlockSize c) newHBSize <? targetSize c
  else len (blocks c) <? blocksPerChunk.

Definition UncompressedSize (c : MemChunk) : Z :=
  let size := 0 in
  let size := if negb (headBlock.isEmpty (head c))
              then int_add size (headBlock.size (head c)) else size in
  fold_left (fun size blk => int_add size (block.uncompressedSize blk)) (blocks c) size.

Definition CompressedSize (c : MemChunk) : Z :=
  let size := 0 in
  let size := if negb (headBlock.isEmpty (head c))
              then int_add size (headBlock.size (head c)) else size in
  int_add size (cutBlockSize c).

(** [float64(x)] for an [int]: the nearest double. *)
Definition float64 (x : Z) : PrimFloat.float :=
  if x <? 0 then
    if x =? - 2 ^ 63
    then PrimFloat.opp (PrimFloat.mul (PrimFloat.of_uint63 (Uint63.of_Z (2 ^ 62)))
                                      (PrimFloat.of_uint63 (Uint63.of_Z 2)))
    else PrimFloat.opp (PrimFloat.of_uint63 (Uint63.of_Z (- x)))
  else PrimFloat.of_uint63 (Uint63.of_Z x).

Definition Utilization (c : MemChunk) : PrimFloat.float :=
  if negb (targetSize c =? 0) then
    PrimFloat.div (float64 (CompressedSize c)) (float64 (targetSize c))
  else
    let size := UncompressedSize c in
    PrimFloat.div (float64 size) (float64 (int_mul blocksPerChunk (blockSize c))).

(** [Bounds], as nanoseconds. *)
Definition Bounds (c : MemChunk) : Z * Z :=
  let '(from, to) :=
    if len (blocks c) >? 0
    then (block.mint (hd block.zero (blocks c)), block.maxt (last_block c))
    else (0, 0) in
  if negb (headBlock.isEmpty (head c)) then
    (if (from =? 0) || (from >? headBlock.mint (head c))
     then headBlock.mint (head c) else from,
     if to <? headBlock.maxt (head c) then headBlock.maxt (head c) else to)
  else (from, to).

(** [Blocks]: the blocks that meet the window. *)
Definition Blocks (c : MemChunk) (mint maxt : Z) : list block :=
  filter (fun blk => (maxt >=? block.mint blk) && (block.maxt blk >=? mint))
         (blocks c).

(** [Encoding] implements Chunk. *)
Definition Encoding (c : MemChunk) : Encoding := encoding c.

End MemChunk.
Abbreviation MemChunk := MemChunk.MemChunk.

(* ================================================================= *)
(** ** The buffered block iterator *)

(** [stats.ChunkData], the counters the iterator feeds. *)
Record ChunkData := mkStats {
  CompressedBytes : Z;
  DecompressedBytes : Z;
  DecompressedLines : Z
}.

Module bufferedIterator.

(** The labels are handed through untouched and are left out; [decBuf] is
    allocated and never read.  [reader] keeps the stream as it was opened,
    [bufReader] the position reached in it; [buf] is the capacity of the
    line buffer, its content being the line last returned. *)
Record bufferedIterator := mk {
  origBytes : option (list byte);
  stats : ChunkData;
  bufReader : option rstream;
  reader : option rstream;
  pool : ReaderPool;
  err : option error;
  buf : option Z;
  currLine : list byte;
  currTs : Z;
  closed : bool
}.

Definition newBufferedIterator (st : ChunkData) (pool : ReaderPool) (b : list byte)
  : bufferedIterator :=
  mk (Some b)
     (mkStats (CompressedBytes st + len b) (DecompressedBytes st) (DecompressedLines st))
     None None pool None None [] 0 false.

Definition with_bufReader (si : bufferedIterator) (r : rstream) : bufferedIterator :=
  mk (origBytes si) (stats si) (Some r) (reader si) (pool si) (err si)
     (buf si) (currLine si) (currTs si) (closed si).

Definition with_err (si : bufferedIterator) (e : error) : bufferedIterator :=
  mk (origBytes si) (stats si) (bufReader si) (reader si) (pool si) (Some e)
     (buf si) (currLine si) (currTs si) (closed si).

Definition with_buf (si : bufferedIterator) (c : Z) : bufferedIterator :=
  mk (origBytes si) (stats si) (bufReader si) (reader si) (pool si) (err si)
     (Some c) (currLine si) (currTs si) (closed si).

Definition Error (si : bufferedIterator) : option error := err si.

Definition close (si : bufferedIterator) : bufferedIterator :=
  mk None (stats si) None None (pool si) (err si) None
     (currLine si) (currTs si) (closed si).

Definition Close (si : bufferedIterator) : bufferedIterator * option error :=
  let si :=
    if negb (closed si) then
      close (mk (origBytes si) (stats si) (bufReader si) (reader si) (pool si)
                (err si) (buf si) (currLine si) (currTs si) true)
    else si in
  (si, err si).

Definition not_EOF (e : option error) : option error :=
  match e with
  | Some e => if is_EOF e then None else Some e
  | None => None
  end.

Section WithPools.
Context `{Pools}.

(** [for n < lineSize { r, err := Read(buf[n:lineSize]); ...; n += r }]:
    the line read so far is [line], of length [n]. *)
Fixpoint read_rest (fuel : nat) (si : bufferedIterator) (r : rstream)
         (line : list byte) (lineSize : Z)
  : outcome (list byte * bool * bufferedIterator) :=
  if len line <? lineSize then
    match fuel with
    | O => OutOfFuel
    | S fuel =>
        let '((p, e), r) := bufio.Read r (lineSize - len line) in
        let si := with_bufReader si r in
        match not_EOF e with
        | Some e => Ret ([], false, with_err si e)
        | None => read_rest fuel si r (line ++ p) lineSize
        end
    end
  else Ret (line, true, si).

(** moveNext moves the buffer to the next entry *)
Definition moveNext (fuel : nat) (si : bufferedIterator)
  : outcome (Z * list byte * bool * bufferedIterator) :=
  match bufReader si with
  | None => Panics
  | Some r =>
      let '(ts, e, r) := binary.ReadVarint r in
      let si := with_bufReader si r in
      match e with
      | Some e =>
          Ret (0, [], false, if negb (is_EOF e) then with_err si e else si)
      | None =>
          let '(l, e, r) := binary.ReadUvarint r in
          let si := with_bufReader si r in
          match not_EOF e with
          | Some e => Ret (0, [], false, with_err si e)
          | None =>
              let lineSize := to_int l in
              if lineSize >=? maxLineLength then
                Ret (0, [], false, with_err si (ErrLineTooLong lineSize))
              else
                let fresh :=
                  match buf si with
                  | None => true
                  | Some c => lineSize >? c
                  end in
                let si := if fresh then with_buf si (BytesBufferPool_Get lineSize)
                          else si in
                let c := match buf si with Some c => c | None => 0 end in
                if fresh && (lineSize >? c) then
                  Ret (0, [], false, with_err si (ErrLineBuffer lineSize c))
                else if lineSize <? 0 then Panics
                else
                  let '((p, e), r) := bufio.Read r lineSize in
                  let si := with_bufReader si r in
                  match not_EOF e with
                  | Some e => Ret (0, [], false, with_err si e)
                  | None =>
                      '(line, ok, si) <- read_rest fuel si r p lineSize ;;
                      if ok then Ret (ts, line, true, si)
                      else Ret (0, [], false, si)
                  end
          end
      end
  end.

Definition Next (fuel : nat) (si : bufferedIterator)
  : outcome (bool * bufferedIterator) :=
  let si :=
    if negb (closed si) && (match reader si with None => true | Some _ => false end)
    then
      let r := pool si (match origBytes si with Some b => b | None => [] end) in
      mk (origBytes si) (stats si) (Some r) (Some r) (pool si) (err si)
         (buf si) (currLine si) (currTs si) (closed si)
    else si in
  '(ts, line, ok, si) <- moveNext fuel si ;;
  if negb ok then
    let '(si, _) := Close si in Ret (false, si)
  else
    Ret (true,
         mk (origBytes si)
            (mkStats (CompressedBytes (stats si))
                     (DecompressedBytes (stats si) + (len line + 2 * binary.MaxVarintLen64))
                     (DecompressedLines (stats si) + 1))
            (bufReader si) (reader si) (pool si) (err si) (buf si)
            line ts (closed si)).

End WithPools.

End bufferedIterator.
Abbreviation bufferedIterator := bufferedIterator.bufferedIterator.

(** [logql.Pipeline.Process] on one line: the new line and whether it is
    kept.  The labels are not followed. *)
Definition Pipeline := list byte -> list byte * bool.

(** The pipeline that keeps every line as it is. *)
Definition NoopPipeline : Pipeline := fun line => (line, true).

Module entryBufferedIterator.

Record entryBufferedIterator := mk {
  base : bufferedIterator;
  pipeline : Pipeline;
  cur : Entry
}.

Section WithPools.
Context `{Pools}.

Definition newEntryIterator (st : ChunkData) (pool : ReaderPool) (b : list byte)
           (pipeline : Pipeline) : entryBufferedIterator :=
  mk (bufferedIterator.newBufferedIterator st pool b) pipeline (Entry.mk 0 []).

(** [for e.bufferedIterator.Next() { ... }]: the lines the pipeline drops
    are stepped over. *)
Fixpoint Next (fuel : nat) (e : entryBufferedIterator)
  : outcome (bool * entryBufferedIterator) :=
  match fuel with
  | O => OutOfFuel
  | S fuel =>
      '(ok, si) <- bufferedIterator.Next fuel (base e) ;;
      if ok then
        let '(newLine, keep) := pipeline e (bufferedIterator.currLine si) in
        if negb keep then Next fuel (mk si (pipeline e) (cur e))
        else Ret (true, mk si (pipeline e)
                           (Entry.mk (bufferedIterator.currTs si) newLine))
      else Ret (false, mk si (pipeline e) (cur e))
  end.

Definition Entry (e : entryBufferedIterator) : Entry := cur e.

Definition Error (e : entryBufferedIterator) : option error :=
  bufferedIterator.Error (base e).

(** The caller's loop [for it.Next() { out = append(out, it.Entry()) }]
    followed by [it.Error()]. *)
Fixpoint drain (fuel : nat) (e : entryBufferedIterator)
  : outcome (list Entry.Entry * option error) :=
  match fuel with
  | O => OutOfFuel
  | S fuel =>
      '(ok, e) <- Next fuel e ;;
      if ok then
        '(out, err) <- drain fuel e ;;
        Ret (Entry e :: out, err)
      else Ret ([], Error e)
  end.

End WithPools.

End entryBufferedIterator.
Abbreviation entryBufferedIterator := entryBufferedIterator.entryBufferedIterator.

(** [logproto.Sample] *)
Module Sample.
Record Sample := mk { Timestamp : Z; Value : PrimFloat.float; Hash : Z }.
End Sample.
Abbreviation Sample := Sample.Sample.

(** [logql.SampleExtractor.Process] on one line: the value and whether the
    line gives a sample.  The labels are not followed. *)
Definition SampleExtractor := list byte -> PrimFloat.float * bool.

Module sampleBufferedIterator.

Record sampleBufferedIterator := mk {
  base : bufferedIterator;
  extractor : SampleExtractor;
  cur : Sample
}.

Section WithPools.
Context `{Pools}.

(** [xxhash.Sum64], the hash of a line: a library outside the repository,
    any function here. *)
Variable Sum64 : list byte -> Z.

Definition newSampleIterator (st : ChunkData) (pool : ReaderPool) (b : list byte)
           (extractor : SampleExtractor) : sampleBufferedIterator :=
  mk (bufferedIterator.newBufferedIterator st pool b) extractor
     (Sample.mk 0 PrimFloat.zero 0).

(** [for e.bufferedIterator.Next() { ... }]: the lines the extractor drops
    are stepped over. *)
Fixpoint Next (fuel : nat) (e : sampleBufferedIterator)
  : outcome (bool * sampleBufferedIterator) :=
  match fuel with
  | O => OutOfFuel
  | S fuel =>
      '(ok, si) <- bufferedIterator.Next fuel (base e) ;;
      if ok then
        let '(val, keep) := extractor e (bufferedIterator.currLine si) in
        if negb keep then Next fuel (mk si (extractor e) (cur e))
        else Ret (true, mk si (extractor e)
                           (Sample.mk (bufferedIterator.currTs si) val
                                      (Sum64 (bufferedIterator.currLine si))))
      else Ret (false, mk si (extractor e) (cur e))
  end.

Definition Sample (e : sampleBufferedIterator) : Sample := cur e.

Definition Error (e : sampleBufferedIterator) : option error :=
  bufferedIterator.Error (base e).

(** The caller's loop [for it.Next() { out = append(out, it.Sample()) }]
    followed by [it.Error()]. *)
Fixpoint drain (fuel : nat) (e : sampleBufferedIterator)
  : outcome (list Sample.Sample * option error) :=
  match fuel with
  | O => OutOfFuel
  | S fuel =>
      '(ok, e) <- Next fuel e ;;
      if ok then
        '(out, err) <- drain fuel e ;;
        Ret (Sample e :: out, err)
      else Ret ([], Error e)
  end.

End WithPools.

End sampleBufferedIterator.
Abbreviation sampleBufferedIterator := sampleBufferedIterator.sampleBufferedIterator.

(* ================================================================= *)
(** ** Iterating over a chunk *)

Inductive Direction : Type := FORWARD | BACKWARD.

(** What an iterator yields when it is read to its end, and its error. *)
Definition yielded := (list Entry * option error)%type.

(** The same for an iterator of samples. *)
Definition yieldedSamples := (list Sample * option error)%type.

Module iter.

(** Modelled from the spec: the package of the iterators is missing.
    Section 4.G has [NonOverlappingIterator] consume its sub-iterators in
    sequence, [TimeRangedIterator] clip to the window [[mint, maxt]], and
    the reversed iterator drain its source into memory and reverse it. *)
Definition NoopIterator : yielded := ([], None).

(** [NoopIterator] where a sample iterator is asked for. *)
Definition NoopSampleIterator : yieldedSamples := ([], None).

Definition first_error (a b : option error) : option error :=
  match a with Some _ => a | None => b end.

Definition NewNonOverlappingIterator (its : list yielded) : yielded :=
  fold_right (fun it acc => (fst it ++ fst acc, first_error (snd it) (snd acc)))
             NoopIterator its.

Definition NewTimeRangedIterator (it : yielded) (mint maxt : Z) : yielded :=
  (filter (fun e => (mint <=? Entry.Timestamp e) && (Entry.Timestamp e <=? maxt))
          (fst it),
   snd it).

Definition NewEntryReversedIter (it : yielded) : yielded :=
  (rev (fst it), snd it).

End iter.

Module encBlock.

Section WithPools.
Context `{Pools}.

Definition Iterator (fuel : nat) (st : ChunkData) (enc : Encoding) (blk : block)
           (pipeline : Pipeline) : outcome yielded :=
  if len (block.b blk) =? 0 then Ret iter.NoopIterator
  else
    entryBufferedIterator.drain fuel
      (entryBufferedIterator.newEntryIterator st (getReaderPool enc)
         (block.b blk) pipeline).

Definition SampleIterator (Sum64 : list byte -> Z) (fuel : nat) (st : ChunkData)
           (enc : Encoding) (blk : block) (extractor : SampleExtractor)
  : outcome yieldedSamples :=
  if len (block.b blk) =? 0 then Ret iter.NoopSampleIterator
  else
    sampleBufferedIterator.drain Sum64 fuel
      (sampleBufferedIterator.newSampleIterator st (getReaderPool enc)
         (block.b blk) extractor).

End WithPools.

End encBlock.

Module headIterator.

(** [headBlock.iterator].  Modelled from the spec: the stream iterator the
    head hands its entries to is missing.  With a pipeline that leaves the
    labels alone the head makes one stream, read in the order of the head
    (section 4.G); the lines the pipeline drops are left out.  Two things
    the code does are not followed here: the grouping of the entries by the
    hash of the labels the pipeline returns (a [Pipeline] returns no labels
    here), and the direction handed on to the stream iterator.  So the
    model says what the head yields when it is read forward as one stream;
    no property below rests on what it yields when it is read backward. *)
Definition iterator (hb : headBlock) (mint maxt : Z) (pipeline : Pipeline)
  : yielded :=
  if headBlock.isEmpty hb
     || ((maxt <? headBlock.mint hb) || (headBlock.maxt hb <? mint))
  then iter.NoopIterator
  else
    (flat_map (fun e =>
                 let '(newLine, keep) := pipeline (entry.s e) in
                 if keep then [Entry.mk (entry.t e) newLine] else [])
              (headBlock.entries hb),
     None).

End headIterator.

Module ChunkIterator.

Section WithPools.
Context `{Pools}.

(** The first loop of [MemChunk.Iterator]: an iterator for every block
    that meets the window.  Every iterator is read to its end here, from
    the counters [st]. *)
Fixpoint block_iterators (fuel : nat) (st : ChunkData) (enc : Encoding)
         (bs : list block) (mint maxt : Z) (pipeline : Pipeline)
  : outcome (list yielded) :=
  match bs with
  | [] => Ret []
  | blk :: rest =>
      if (maxt <? block.mint blk) || (block.maxt blk <? mint)
      then block_iterators fuel st enc rest mint maxt pipeline
      else
        it <- encBlock.Iterator fuel st enc blk pipeline ;;
        its <- block_iterators fuel st enc rest mint maxt pipeline ;;
        Ret (it :: its)
  end.

(** [MemChunk.Iterator], read to its end. *)
Definition Iterator (fuel : nat) (st : ChunkData) (c : MemChunk)
           (mint maxt : Z) (direction : Direction) (pipeline : Pipeline)
  : outcome yielded :=
  its <- block_iterators fuel st (MemChunk.encoding c) (MemChunk.blocks c)
           mint maxt pipeline ;;
  let its :=
    if negb (headBlock.isEmpty (MemChunk.head c))
    then its ++ [headIterator.iterator (MemChunk.head c) mint maxt pipeline]
    else its in
  match direction with
  | FORWARD =>
      Ret (iter.NewTimeRangedIterator
             (iter.NewNonOverlappingIterator its) mint maxt)
  | BACKWARD =>
      let its :=
        map (fun it => iter.NewEntryReversedIter
                         (iter.NewTimeRangedIterator it mint maxt)) its in
      Ret (iter.NewNonOverlappingIterator (rev its))
  end.

End WithPools.

End ChunkIterator.


(* ================================================================= *)
(** * Runs, windows and the inputs of the examples *)

(** The operations a writer applies to a chunk.  An operation that returns
    an error leaves the writer with the chunk as the operation left it. *)
Inductive op : Type :=
| OpAppend (e : Entry)
| OpCut.

Definition step `{Pools} (c : MemChunk) (o : op) : MemChunk :=
  match o with
  | OpAppend e => fst (MemChunk.Append c e)
  | OpCut => fst (MemChunk.cut c)
  end.

Definition run `{Pools} (c : MemChunk) (ops : list op) : MemChunk :=
  fold_left step ops c.

(** Appending the entries one after the other, keeping the errors. *)
Fixpoint appendAll `{Pools} (c : MemChunk) (es : list Entry)
  : MemChunk * list (option error) :=
  match es with
  | [] => (c, [])
  | e :: rest =>
      let '(c, err) := MemChunk.Append c e in
      let '(c, errs) := appendAll c rest in
      (c, err :: errs)
  end.

(** A value that an [int] holds without wrapping. *)
Definition fits_int (x : Z) : Prop := - 2 ^ 63 <= x < 2 ^ 63.

(** The utilization as the specification words it: the compressed size
    over the target size when the target size is positive, the uncompressed
    size over ten blocks otherwise. *)
Definition Utilization_as_specified (c : MemChunk) : PrimFloat.float :=
  if MemChunk.targetSize c >? 0 then
    PrimFloat.div (MemChunk.float64 (MemChunk.CompressedSize c))
                  (MemChunk.float64 (MemChunk.targetSize c))
  else
    PrimFloat.div (MemChunk.float64 (MemChunk.UncompressedSize c))
                  (MemChunk.float64 (int_mul 10 (MemChunk.blockSize c))).

Definition bytes_of (s : string) : list byte := String.list_byte_of_string s.

Definition stats0 : ChunkData := mkStats 0 0 0.

(** Scenario S2: block size 4 and three entries of two bytes. *)
Definition entries_S2 : list Entry :=
  [Entry.mk 1 (bytes_of "ab"); Entry.mk 2 (bytes_of "cd"); Entry.mk 3 (bytes_of "ef")].

Definition chunk_S2 : MemChunk :=
  fst (@appendAll nonePools (MemChunk.NewMemChunk EncNone 4 0) entries_S2).

(** Scenario S3: a chunk that holds the entry [(10, "x")] in its head. *)
Definition chunk_S3 : MemChunk :=
  fst (@appendAll nonePools (MemChunk.NewMemChunk EncNone 256 0)
         [Entry.mk 10 (bytes_of "x")]).

(** Scenario S2 as a run: the three entries, then a cut. *)
Definition ops_S2 : list op := map OpAppend entries_S2 ++ [OpCut].

(** A chunk with a head of one byte and a negative target size. *)
Definition chunk_negative_target : MemChunk :=
  fst (@appendAll nonePools (MemChunk.NewMemChunk EncNone 256 (-1))
         [Entry.mk 1 (bytes_of "a")]).

(** The magic number and the version of format 1, and nothing else. *)
Definition header_only : list byte := map z2b [0x01; 0x2E; 0xE5; 0x6A; 0x01].

(** A block whose only entry announces a line of 2^30 bytes. *)
Definition payload_line_too_long : list byte :=
  map z2b [0x02; 0x80; 0x80; 0x80; 0x80; 0x04].

(* ================================================================= *)
(** * The container format, laid out *)

(** A block as it stands in a file, with the four bytes found after its
    payload read as a checksum (the right one or not). *)
Definition stored := (block * Z)%type.

(** The bytes of a block in the file: the payload, then the checksum. *)
Definition stored_image (p : stored) : list byte :=
  block.b (fst p) ++ binary.PutUint32 (snd p).

(** The metadata of one block, as the second loop of [Bytes] writes them. *)
Definition meta_bytes (blk : block) : list byte :=
  binary.PutUvarint (to_uint64 (block.numEntries blk))
    ++ binary.PutVarint (block.mint blk)
    ++ binary.PutVarint (block.maxt blk)
    ++ binary.PutUvarint (to_uint64 (block.offset blk))
    ++ binary.PutUvarint (to_uint64 (len (block.b blk))).

(** The metadata section without its checksum: the count, then the blocks. *)
Definition metas_bytes (bs : list block) : list byte :=
  binary.PutUvarint (to_uint64 (len bs)) ++ flat_map meta_bytes bs.

(** The header: the magic number, the version and, in format 2, the
    encoding. *)
Definition header_bytes (format : Z) (enc : Encoding) : list byte :=
  binary.PutUint32 magicNumber ++ [z2b format]
    ++ (if format =? chunkFormatV2 then [z2b (to_byte enc)] else []).

(** A file of the container format: header, blocks, metadata, the checksum
    of the metadata and, in the last eight bytes, the offset of the
    metadata.  [body], [metas] and [mcrc] are any bytes and any checksum. *)
Definition chunk_file (format : Z) (enc : Encoding) (body metas : list byte) (mcrc : Z)
  : list byte :=
  header_bytes format enc ++ body ++ metas ++ binary.PutUint32 mcrc
    ++ binary.PutUint64 (to_uint64 (len (header_bytes format enc) + len body)).

(** The offsets in the metadata are the places of the payloads, the first
    payload standing at [off]. *)
Fixpoint laid_out (ps : list stored) (off : Z) : Prop :=
  match ps with
  | [] => True
  | p :: rest =>
      block.offset (fst p) = off /\ laid_out rest (off + len (stored_image p))
  end.

(** The metadata of the block are values of their Go types. *)
Definition stored_ok (p : stored) : Prop :=
  fits_int (block.numEntries (fst p)) /\ fits_int (block.mint (fst p)) /\
  fits_int (block.maxt (fst p)) /\ 0 <= snd p < 2 ^ 32.

(** The stored checksum is the checksum of the payload. *)
Definition crc_verifies (p : stored) : bool :=
  snd p =? crc32.Checksum (block.b (fst p)).

(** A block as the parser builds it: [uncompressedSize] is not in the file. *)
Definition as_parsed (blk : block) : block :=
  block.mk (block.b blk) (block.numEntries blk) (block.mint blk) (block.maxt blk)
           (block.offset blk) 0.

(** The blocks whose checksum verifies, in their order. *)
Definition verified (ps : list stored) : list block :=
  map (fun p => as_parsed (fst p)) (filter crc_verifies ps).

(** One event for every block whose checksum does not verify, [i] being
    the index of the first block. *)
Fixpoint skipped (ps : list stored) (i : Z) : list logEvent :=
  match ps with
  | [] => []
  | p :: rest =>
      (if crc_verifies p then [] else [BlockSkipped i ErrInvalidChecksum])
        ++ skipped rest (i + 1)
  end.

(** The sum of the lengths of the payloads. *)
Definition payload_total (bs : list block) : Z :=
  fold_right (fun blk acc => len (block.b blk) + acc) 0 bs.

(** The file of some stored blocks, with the checksum of the metadata right. *)
Definition blocks_file (format : Z) (enc : Encoding) (ps : list stored) : list byte :=
  chunk_file format enc (flat_map stored_image ps) (metas_bytes (map fst ps))
             (crc32.Checksum (metas_bytes (map fst ps))).

(** The offsets [Bytes] gives to the blocks, the first one being [off]. *)
Fixpoint assign_offsets (bs : list block) (off : Z) : list block :=
  match bs with
  | [] => []
  | blk :: rest =>
      block.with_offset blk off :: assign_offsets rest (off + (len (block.b blk) + 4))
  end.

(** A block with the checksum [Bytes] stores after it. *)
Definition with_checksum (blk : block) : stored :=
  (blk, crc32.Checksum (block.b blk)).

(* ================================================================= *)
(** * What a chunk holds *)

(** An entry the iterator reads back: its timestamp is an [int64] and its
    line is shorter than [maxLineLength]. *)
Definition entry_valid (e : entry) : Prop :=
  fits_int (entry.t e) /\ len (entry.s e) < maxLineLength.

(** The entry of the head as the iterator hands it out. *)
Definition to_Entry (e : entry) : Entry := Entry.mk (entry.t e) (entry.s e).

(** An open iterator without error that has [data] left to read: either it
    has not opened its reader yet and the pool delivers [data], or its
    buffered reader stands before [data]. *)
Definition ready (si : bufferedIterator) (data : list byte) : Prop :=
  bufferedIterator.closed si = false /\
  bufferedIterator.err si = None /\
  ((bufferedIterator.reader si = None /\
    bufferedIterator.pool si
      (match bufferedIterator.origBytes si with Some b => b | None => [] end)
    = mkStream data EOF)
   \/
   (bufferedIterator.reader si <> None /\
    bufferedIterator.bufReader si = Some (mkStream data EOF))).

(** A cut block that holds the entries [es]: its reader delivers them
    serialised, its metadata fits, and it meets the window [[lo, hi]]. *)
Definition block_good `{Pools} (enc : Encoding) (lo hi : Z) (blk : block)
           (es : list entry) : Prop :=
  Forall entry_valid es /\
  block.b blk <> [] /\
  getReaderPool enc (block.b blk)
    = mkStream (flat_map headBlock.serialise_entry es) EOF /\
  fits_int (block.numEntries blk) /\
  fits_int (block.mint blk) /\ fits_int (block.maxt blk) /\
  block.mint blk <= hi /\ lo <= block.maxt blk.

(** A chunk that holds the entries [P], block after block and then the head. *)
Definition holds `{Pools} (lo hi : Z) (c : MemChunk) (P : list Entry) : Prop :=
  exists ess : list (list entry),
    Forall2 (block_good (MemChunk.encoding c) lo hi) (MemChunk.blocks c) ess /\
    map to_Entry (concat ess ++ headBlock.entries (MemChunk.head c)) = P /\
    Forall entry_valid (headBlock.entries (MemChunk.head c)) /\
    (headBlock.isEmpty (MemChunk.head c) = true ->
     headBlock.mint (MemChunk.head c) = 0) /\
    (headBlock.isEmpty (MemChunk.head c) = false ->
     fits_int (headBlock.mint (MemChunk.head c)) /\
     fits_int (headBlock.maxt (MemChunk.head c)) /\
     headBlock.mint (MemChunk.head c) <= hi /\
     lo <= headBlock.maxt (MemChunk.head c)).

(** No timestamp in the chunk that [Append] compares with is above [T]. *)
Definition below (c : MemChunk) (T : Z) : Prop :=
  (headBlock.isEmpty (MemChunk.head c) = false ->
   headBlock.maxt (MemChunk.head c) <= T) /\
  (headBlock.isEmpty (MemChunk.head c) = true -> MemChunk.blocks c <> [] ->
   block.maxt (MemChunk.last_block c) <= T).

(** An entry a writer may append and read back through the window. *)
Definition Entry_valid (lo hi : Z) (e : Entry) : Prop :=
  fits_int (Entry.Timestamp e) /\ len (Entry.Line e) < maxLineLength /\
  lo <= Entry.Timestamp e <= hi.

(** The timestamps do not decrease, starting no lower than [T]. *)
Fixpoint in_order_from (T : Z) (es : list Entry) : Prop :=
  match es with
  | [] => True
  | e :: rest => T <= Entry.Timestamp e /\ in_order_from (Entry.Timestamp e) rest
  end.

(** The timestamps do not decrease. *)
Definition in_order (es : list Entry) : Prop :=
  match es with
  | [] => True
  | e :: rest => in_order_from (Entry.Timestamp e) rest
  end.

(** Each block ends before the next one starts. *)
Fixpoint ordered (bs : list block) : Prop :=
  match bs with
  | b1 :: (b2 :: _) as rest => block.maxt b1 <= block.mint b2 /\ ordered rest
  | _ => True
  end.

(** What every chunk reached from a new one satisfies. *)
Definition chunk_ordered (c : MemChunk) : Prop :=
  ordered (MemChunk.blocks c) /\
  (headBlock.isEmpty (MemChunk.head c) = true -> headBlock.mint (MemChunk.head c) = 0) /\
  (headBlock.isEmpty (MemChunk.head c) = false -> MemChunk.blocks c <> [] ->
   block.maxt (MemChunk.last_block c) <= headBlock.mint (MemChunk.head c) /\
   block.maxt (MemChunk.last_block c) <= headBlock.maxt (MemChunk.head c)).

(* ================================================================= *)
(** * Inputs of the scenarios *)

(** The payload of a block that holds one entry. *)
Definition one_entry_payload (ts : Z) (l : list byte) : list byte :=
  headBlock.serialise_entry (entry.mk ts l) ++ [].

(** The block cut from a head that holds one entry of timestamp 1. *)
Definition one_entry_block (l : list byte) : block :=
  block.mk (one_entry_payload 1 l) 1 1 1 0 (2 ^ 30).

(** The chunk that [Append] leaves. *)
Definition one_entry_chunk (l : list byte) : MemChunk :=
  MemChunk.mk 256 0 [one_entry_block l] (2 ^ 30 + 6) (headBlock.mk [] 0 0 1)
    chunkFormatV2 EncNone.

(** A line of 2^30 zero bytes. *)
Definition long_line : list byte := repeat x00 (Z.to_nat (2 ^ 30)).

(** Scenario S4: the two blocks of scenario S2 as [Bytes] lays them out,
    one byte of the first payload changed ("b" into "c") and its stored
    checksum left as it was. *)
Definition payload_S4_0 : list byte := map z2b [2; 2; 97; 98; 4; 2; 99; 100].
Definition damaged_S4_0 : list byte := map z2b [2; 2; 97; 99; 4; 2; 99; 100].
Definition payload_S4_1 : list byte := map z2b [6; 2; 101; 102].

Definition stored_S4 : list stored :=
  [ (block.mk damaged_S4_0 2 1 2 6 0, crc32.Checksum payload_S4_0);
    (block.mk payload_S4_1 1 3 3 18 0, crc32.Checksum payload_S4_1) ].

(** Scenario S5: the metadata of the same file with its first byte changed,
    under the checksum of the metadata as they were. *)
Definition metas_S5 : list byte :=
  z2b 3 :: tl (metas_bytes (map fst stored_S4)).

(* ================================================================= *)
(** * Counts, bounds and damaged inputs *)

(** The sum of a field over the blocks. *)
Definition block_total (f : block -> Z) (bs : list block) : Z :=
  fold_right (fun blk acc => f blk + acc) 0 bs.

(** A head that holds no entry has its size at zero, as [cut] and the
    constructors leave it. *)
Definition head_reset (c : MemChunk) : Prop :=
  headBlock.isEmpty (MemChunk.head c) = true -> headBlock.size (MemChunk.head c) = 0.

(** A block as [cut] makes it: it holds an entry, and starts no later than
    it ends. *)
Definition block_cut_ok (blk : block) : Prop :=
  1 <= block.Entries blk /\ block.MinTime blk <= block.MaxTime blk.

(** What [cut] and [Append] keep of the blocks and the head. *)
Definition blocks_cut_ok (c : MemChunk) : Prop :=
  Forall block_cut_ok (MemChunk.blocks c) /\
  (headBlock.isEmpty (MemChunk.head c) = false ->
   headBlock.mint (MemChunk.head c) <= headBlock.maxt (MemChunk.head c)).

(** A chunk whose first timestamp is [f] and whose last one is [l]. *)
Definition spans (c : MemChunk) (f l : Z) : Prop :=
  f <= l /\
  (headBlock.isEmpty (MemChunk.head c) = true -> headBlock.mint (MemChunk.head c) = 0) /\
  (headBlock.isEmpty (MemChunk.head c) = false ->
   f <= headBlock.mint (MemChunk.head c) /\
   headBlock.mint (MemChunk.head c) <= headBlock.maxt (MemChunk.head c) /\
   headBlock.maxt (MemChunk.head c) = l) /\
  (MemChunk.blocks c = [] ->
   headBlock.isEmpty (MemChunk.head c) = false /\ headBlock.mint (MemChunk.head c) = f) /\
  (MemChunk.blocks c <> [] ->
   block.mint (hd block.zero (MemChunk.blocks c)) = f /\
   block.maxt (MemChunk.last_block c) <= l /\
   (headBlock.isEmpty (MemChunk.head c) = true -> block.maxt (MemChunk.last_block c) = l)).

(** [cutBlockSize] is the sum of the lengths of the payloads, as an [int]. *)
Definition cutBlockSize_ok (c : MemChunk) : Prop :=
  MemChunk.cutBlockSize c = to_int (payload_total (MemChunk.blocks c)).

(** What [Append] does, case by case. *)
Inductive Append_case `{Pools} (c : MemChunk) (e : Entry) : Prop :=
| Append_refused :
    MemChunk.Append c e = (c, Some ErrOutOfOrder) -> Append_case c e
| Append_head (h : headBlock) :
    headBlock.append (MemChunk.head c) (Entry.Timestamp e) (Entry.Line e) = (h, None) ->
    MemChunk.Append c e = (MemChunk.with_head c h, None) ->
    Append_case c e
| Append_cut (h : headBlock) :
    headBlock.append (MemChunk.head c) (Entry.Timestamp e) (Entry.Line e) = (h, None) ->
    MemChunk.Append c e = MemChunk.cut (MemChunk.with_head c h) ->
    Append_case c e.

(** A block as it lies in the bytes [b] of a chunk: its payload is the
    slice of [b] at its offset, and the four bytes after the payload are
    the checksum of the payload. *)
Definition block_at (b : list byte) (blk : block) : Prop :=
  0 <= block.offset blk /\
  block.offset blk + len (block.b blk) + 4 <= len b /\
  slice b (block.offset blk) (block.offset blk + len (block.b blk)) = Ret (block.b blk) /\
  (exists tail : list byte,
     slice_from b (block.offset blk + len (block.b blk)) = Ret tail /\
     binary.Uint32 tail = Ret (crc32.Checksum (block.b blk))).

(** A block as the parser takes it from the input: it lies there, and its
    uncompressed size is not known. *)
Definition block_in_file (b : list byte) (blk : block) : Prop :=
  block_at b blk /\ block.uncompressedSize blk = 0.

(** Five bytes that do not start with the magic number. *)
Definition header_bad_magic : list byte := map z2b [0; 0; 0; 0; 1].

(** The magic number, then the version 3, which does not exist. *)
Definition header_bad_version : list byte := map z2b [0x01; 0x2E; 0xE5; 0x6A; 3].

(** What the loop of [NewByteChunk] keeps: the blocks it has taken lie in
    the input, and the counter is the sum of their lengths. *)
Definition parse_ok (b : list byte) (st : MemChunk.parse) : Prop :=
  Forall (block_in_file b) (MemChunk.p_blocks st) /\
  MemChunk.p_cutBlockSize st = to_int (payload_total (MemChunk.p_blocks st)).

(** A file of format 1 whose last eight bytes give an offset far behind
    its end. *)
Definition file_bad_metas_offset : list byte :=
  map z2b [0x01; 0x2E; 0xE5; 0x6A; 0x01; 0; 0; 0; 0;
           0xFF; 0xFF; 0xFF; 0xFF; 0xFF; 0xFF; 0xFF; 0xFF].

(** The metadata of the block are values of their Go types. *)
Definition block_meta_fits (blk : block) : Prop :=
  fits_int (block.numEntries blk) /\ fits_int (block.mint blk) /\
  fits_int (block.maxt blk).

(** The entries a pipeline lets through, with the lines it makes of them. *)
Definition processed (pipeline : Pipeline) (es : list entry) : list Entry :=
  flat_map (fun e => let '(newLine, keep) := pipeline (entry.s e) in
                     if keep then [Entry.mk (entry.t e) newLine] else [])
           es.

(** The samples an extractor takes from the entries, each with the hash of
    the line it was taken from. *)
Definition sampled (Sum64 : list byte -> Z) (extractor : SampleExtractor)
           (es : list entry) : list Sample :=
  flat_map (fun e => let '(val, keep) := extractor (entry.s e) in
                     if keep then [Sample.mk (entry.t e) val (Sum64 (entry.s e))] else [])
           es.

(** A pipeline that keeps the lines that are not empty and cuts them down
    to their first byte. *)
Definition first_byte : Pipeline :=
  fun line => (firstn 1 line, negb (len line =? 0)).

(** An extractor that gives the value one for every line that is not empty. *)
Definition count_nonempty : SampleExtractor :=
  fun line => (PrimFloat.one, negb (len line =? 0)).

(** A head of three entries, the second with an empty line. *)
Definition chunk_three : MemChunk :=
  fst (@appendAll nonePools (MemChunk.NewMemChunk EncNone 256 0)
         [Entry.mk 1 (bytes_of "ab"); Entry.mk 2 []; Entry.mk 3 (bytes_of "cd")]).

(** A block whose only entry announces a line of two bytes and holds one. *)
Definition payload_truncated : list byte := map z2b [0x02; 0x02; 0x61].

(** A block whose only entry announces a line of 2^63 bytes. *)
Definition payload_negative_length : list byte :=
  map z2b [0x02; 0x80; 0x80; 0x80; 0x80; 0x80; 0x80; 0x80; 0x80; 0x80; 0x01].

(** A block that ends after the timestamp of an entry. *)
Definition payload_timestamp_only : list byte := map z2b [0x02].

(** The sum of the lengths of the lines. *)
Definition lines_total (es : list entry) : Z :=
  fold_right (fun e acc => len (entry.s e) + acc) 0 es.

(** The timestamps of the head do not decrease, [maxt] is the last of
    them, and [size] counts the bytes of the lines. *)
Definition head_ok (hb : headBlock) : Prop :=
  in_order_from (match headBlock.entries hb with
                 | e :: _ => entry.t e
                 | [] => 0
                 end)
                (map to_Entry (headBlock.entries hb)) /\
  (headBlock.isEmpty hb = false ->
   headBlock.maxt hb = entry.t (last (headBlock.entries hb) (entry.mk 0 []))) /\
  headBlock.size hb = to_int (lines_total (headBlock.entries hb)).

(** The sum of the lengths of the lines of some entries. *)
Definition Lines_total (E : list Entry) : Z :=
  fold_right (fun e acc => len (Entry.Line e) + acc) 0 E.

(* ================================================================= *)
(** * Properties *)

(** ** Integers *)

Lemma to_int_fits (x : Z) : fits_int x -> to_int x = x.
Proof.
  unfold fits_int, to_int, to_int64. intros Hx.
  rewrite Z.mod_small by lia. lia.
Qed.

Lemma to_int_range (x : Z) : fits_int (to_int x).
Proof.
  unfold fits_int, to_int, to_int64.
  pose proof (Z.mod_pos_bound (x + 2 ^ 63) (2 ^ 64) ltac:(lia)). lia.
Qed.

(** Closes [fits_int x] for a closed [x]. *)
Ltac fits_int_closed :=
  unfold fits_int; vm_compute; split; [intros Hcmp; discriminate Hcmp | reflexivity].

Lemma int_add_fits (x y : Z) : fits_int (x + y) -> int_add x y = x + y.
Proof. apply to_int_fits. Qed.

Lemma len_nonneg {A : Type} (l : list A) : 0 <= len l.
Proof. unfold len. lia. Qed.

Lemma len_app {A : Type} (l1 l2 : list A) : len (l1 ++ l2) = len l1 + len l2.
Proof. unfold len. rewrite length_app. lia. Qed.

Lemma len_nil_iff {A : Type} (l : list A) : (len l =? 0) = true <-> l = [].
Proof.
  unfold len. destruct l; simpl; split; intros H; try reflexivity; discriminate.
Qed.

Lemma isEmpty_true (hb : headBlock) :
  headBlock.isEmpty hb = true <-> headBlock.entries hb = [].
Proof. apply len_nil_iff. Qed.

Lemma isEmpty_false (hb : headBlock) :
  headBlock.isEmpty hb = false <-> headBlock.entries hb <> [].
Proof.
  rewrite <- isEmpty_true. destruct (headBlock.isEmpty hb); split; congruence.
Qed.

(* ================================================================= *)
(** ** The head block and the cut *)

Section ChunkFacts.
Context `{Pools}.

(** [serialise] fails with a wrapped error only. *)
Lemma serialise_error_wrapped (hb : headBlock) (pool : WriterPool) (out : list byte) (e : error) :
  headBlock.serialise hb pool = (out, Some e) -> e <> ErrOutOfOrder.
Proof.
  unfold headBlock.serialise. destruct (pool _); intros [= <- <-]; discriminate.
Qed.

Lemma cut_error_wrapped (c c' : MemChunk) (e : error) :
  MemChunk.cut c = (c', Some e) -> e <> ErrOutOfOrder.
Proof.
  unfold MemChunk.cut. destruct (headBlock.isEmpty _); [discriminate|].
  destruct (headBlock.serialise _ _) as [out [e'|]] eqn:Hs; [|discriminate].
  intros [= <- <-]. eapply serialise_error_wrapped; eauto.
Qed.

Lemma head_append_error (hb hb' : headBlock) (ts : Z) (line : list byte) (e : error) :
  headBlock.append hb ts line = (hb', Some e) ->
  e = ErrOutOfOrder /\ hb' = hb /\
  headBlock.isEmpty hb = false /\ ts < headBlock.maxt hb.
Proof.
  unfold headBlock.append.
  destruct (headBlock.isEmpty hb) eqn:He; simpl; [discriminate|].
  destruct (headBlock.maxt hb >? ts) eqn:Hgt; [|discriminate].
  intros [= <- <-]. rewrite Z.gtb_ltb in Hgt. apply Z.ltb_lt in Hgt. auto.
Qed.

Lemma head_append_ok (hb hb' : headBlock) (ts : Z) (line : list byte) :
  headBlock.append hb ts line = (hb', None) ->
  (headBlock.isEmpty hb = true \/ headBlock.maxt hb <= ts) /\
  hb' = headBlock.mk (headBlock.entries hb ++ [entry.mk ts line])
          (int_add (headBlock.size hb) (len line))
          (if (headBlock.mint hb =? 0) || (headBlock.mint hb >? ts)
           then ts else headBlock.mint hb)
          ts.
Proof.
  unfold headBlock.append.
  destruct (headBlock.isEmpty hb) eqn:He; simpl.
  - intros [= <-]. auto.
  - destruct (headBlock.maxt hb >? ts) eqn:Hgt; [discriminate|].
    intros [= <-]. rewrite Z.gtb_ltb in Hgt. apply Z.ltb_ge in Hgt. auto.
Qed.

(** C2. [Append] returns [ErrOutOfOrder] exactly when the head is empty,
    there are blocks and the timestamp is below the [maxt] of the last
    block, or the head is not empty and the timestamp is below the [maxt]
    of the head; and then the chunk is the one it was. *)
Theorem Append_out_of_order (c : MemChunk) (e : Entry) :
  (snd (MemChunk.Append c e) = Some ErrOutOfOrder <->
     (headBlock.isEmpty (MemChunk.head c) = true /\
      MemChunk.blocks c <> [] /\
      Entry.Timestamp e < block.maxt (MemChunk.last_block c))
     \/
     (headBlock.isEmpty (MemChunk.head c) = false /\
      Entry.Timestamp e < headBlock.maxt (MemChunk.head c)))
  /\
  (snd (MemChunk.Append c e) = Some ErrOutOfOrder ->
   fst (MemChunk.Append c e) = c).
Proof.
  unfold MemChunk.Append.
  destruct (headBlock.isEmpty (MemChunk.head c)) eqn:He; simpl.
  - (* empty head *)
    destruct (len (MemChunk.blocks c) >? 0) eqn:Hb; simpl.
    + assert (Hne : MemChunk.blocks c <> []).
      { intros Hnil. rewrite Hnil in Hb. discriminate. }
      destruct (block.maxt (MemChunk.last_block c) >? Entry.Timestamp e) eqn:Hgt.
      * rewrite Z.gtb_ltb in Hgt. apply Z.ltb_lt in Hgt. simpl.
        split; [split; auto | auto].
      * rewrite Z.gtb_ltb in Hgt. apply Z.ltb_ge in Hgt.
        destruct (headBlock.append _ _ _) as [h [err|]] eqn:Ha.
        { apply head_append_error in Ha. destruct Ha as (_ & _ & Hf & _). congruence. }
        assert (Hcut : forall c0, snd (MemChunk.cut c0) <> Some ErrOutOfOrder).
        { intros c0 Hc. destruct (MemChunk.cut c0) as [c1 [e1|]] eqn:Hcc; simpl in Hc; [|discriminate].
          injection Hc as ->. eapply cut_error_wrapped in Hcc. congruence. }
        destruct (headBlock.size _ >=? MemChunk.blockSize _).
        { split; [split|]; intros Hx.
          - exfalso. eapply Hcut; eauto.
          - destruct Hx as [(_ & _ & Hx)|(Hx & _)]; [lia|discriminate].
          - exfalso. eapply Hcut; eauto. }
        { simpl. split; [split|]; intros Hx; try discriminate.
          destruct Hx as [(_ & _ & Hx)|(Hx & _)]; [lia|discriminate]. }
    + assert (Hnil : MemChunk.blocks c = []).
      { destruct (MemChunk.blocks c); [reflexivity|].
        unfold len in Hb. simpl length in Hb. rewrite Z.gtb_ltb in Hb.
        apply Z.ltb_ge in Hb. lia. }
      destruct (headBlock.append _ _ _) as [h [err|]] eqn:Ha.
      { apply head_append_error in Ha. destruct Ha as (_ & _ & Hf & _). congruence. }
      assert (Hcut : forall c0, snd (MemChunk.cut c0) <> Some ErrOutOfOrder).
      { intros c0 Hc. destruct (MemChunk.cut c0) as [c1 [e1|]] eqn:Hcc; simpl in Hc; [|discriminate].
        injection Hc as ->. eapply cut_error_wrapped in Hcc. congruence. }
      destruct (headBlock.size _ >=? MemChunk.blockSize _).
      { split; [split|]; intros Hx.
        - exfalso. eapply Hcut; eauto.
        - destruct Hx as [(_ & Hx & _)|(Hx & _)]; [congruence|discriminate].
        - exfalso. eapply Hcut; eauto. }
      { simpl. split; [split|]; intros Hx; try discriminate.
        destruct Hx as [(_ & Hx & _)|(Hx & _)]; [congruence|discriminate]. }
  - (* head not empty *)
    destruct (headBlock.append _ _ _) as [h [err|]] eqn:Ha.
    + apply head_append_error in Ha. destruct Ha as (-> & _ & _ & Hlt). simpl.
      split; [split; auto | auto].
    + apply head_append_ok in Ha. destruct Ha as ([Hemp|Hle] & _); [congruence|].
      assert (Hcut : forall c0, snd (MemChunk.cut c0) <> Some ErrOutOfOrder).
      { intros c0 Hc. destruct (MemChunk.cut c0) as [c1 [e1|]] eqn:Hcc; simpl in Hc; [|discriminate].
        injection Hc as ->. eapply cut_error_wrapped in Hcc. congruence. }
      destruct (headBlock.size _ >=? MemChunk.blockSize _).
      { split; [split|]; intros Hx.
        - exfalso. eapply Hcut; eauto.
        - destruct Hx as [(Hx & _)|(_ & Hx)]; [discriminate|lia].
        - exfalso. eapply Hcut; eauto. }
      { simpl. split; [split|]; intros Hx; try discriminate.
        destruct Hx as [(Hx & _)|(_ & Hx)]; [discriminate|lia]. }
Qed.

End ChunkFacts.

(** Scenario S3, through the theorem: after [(10, "x")] the entry [(5, "y")]
    is refused and the chunk stays as it was. *)
Lemma Append_out_of_order_witness :
  snd (@MemChunk.Append nonePools chunk_S3 (Entry.mk 5 (bytes_of "y")))
    = Some ErrOutOfOrder /\
  fst (@MemChunk.Append nonePools chunk_S3 (Entry.mk 5 (bytes_of "y"))) = chunk_S3.
Proof.
  destruct (@Append_out_of_order nonePools chunk_S3 (Entry.mk 5 (bytes_of "y")))
    as [Hiff Hsame].
  assert (Herr : snd (@MemChunk.Append nonePools chunk_S3 (Entry.mk 5 (bytes_of "y")))
                 = Some ErrOutOfOrder).
  { apply Hiff. right. split; reflexivity. }
  split; [exact Herr | exact (Hsame Herr)].
Defined.

(* ================================================================= *)
(** ** Cutting *)

Section Cutting.
Context `{Pools}.

Lemma cut_empty (c : MemChunk) :
  headBlock.isEmpty (MemChunk.head c) = true -> MemChunk.cut c = (c, None).
Proof. unfold MemChunk.cut. intros ->. reflexivity. Qed.

Lemma cut_serialised (c : MemChunk) (out : list byte) :
  headBlock.isEmpty (MemChunk.head c) = false ->
  headBlock.serialise (MemChunk.head c) (getWriterPool (MemChunk.encoding c)) = (out, None) ->
  MemChunk.cut c =
    (MemChunk.mk (MemChunk.blockSize c) (MemChunk.targetSize c)
       (MemChunk.blocks c ++
          [block.mk out (len (headBlock.entries (MemChunk.head c)))
             (headBlock.mint (MemChunk.head c)) (headBlock.maxt (MemChunk.head c))
             0 (headBlock.size (MemChunk.head c))])
       (int_add (MemChunk.cutBlockSize c) (len out))
       (headBlock.mk [] 0 0 (headBlock.maxt (MemChunk.head c)))
       (MemChunk.format c) (MemChunk.encoding c),
     None).
Proof. unfold MemChunk.cut. intros -> ->. reflexivity. Qed.

Lemma cut_failed (c : MemChunk) (out : list byte) (e : error) :
  headBlock.isEmpty (MemChunk.head c) = false ->
  headBlock.serialise (MemChunk.head c) (getWriterPool (MemChunk.encoding c)) = (out, Some e) ->
  MemChunk.cut c = (c, Some e).
Proof. unfold MemChunk.cut. intros -> ->. reflexivity. Qed.

(** C6. [cut] does nothing on an empty head.  On a head that is not empty
    and that serialises to [out], it adds one block with the payload [out]
    and the head's entry count, [mint], [maxt] and size, adds [len out] to
    [cutBlockSize] and empties the head; when the compressor fails it
    returns the error and the chunk as it was.  [Append] cuts exactly when
    the head, after it took the entry, holds at least [blockSize] bytes. *)
Theorem cut_adds_one_block (c : MemChunk) :
  (headBlock.isEmpty (MemChunk.head c) = true -> MemChunk.cut c = (c, None))
  /\
  (headBlock.isEmpty (MemChunk.head c) = false ->
   forall out : list byte,
     headBlock.serialise (MemChunk.head c) (getWriterPool (MemChunk.encoding c))
       = (out, None) ->
     snd (MemChunk.cut c) = None /\
     MemChunk.blocks (fst (MemChunk.cut c)) =
       MemChunk.blocks c ++
         [block.mk out (len (headBlock.entries (MemChunk.head c)))
            (headBlock.mint (MemChunk.head c)) (headBlock.maxt (MemChunk.head c))
            0 (headBlock.size (MemChunk.head c))] /\
     MemChunk.cutBlockSize (fst (MemChunk.cut c)) =
       int_add (MemChunk.cutBlockSize c) (len out) /\
     headBlock.isEmpty (MemChunk.head (fst (MemChunk.cut c))) = true /\
     headBlock.entries (MemChunk.head (fst (MemChunk.cut c))) = [] /\
     headBlock.size (MemChunk.head (fst (MemChunk.cut c))) = 0 /\
     headBlock.mint (MemChunk.head (fst (MemChunk.cut c))) = 0)
  /\
  (headBlock.isEmpty (MemChunk.head c) = false ->
   forall (out : list byte) (e : error),
     headBlock.serialise (MemChunk.head c) (getWriterPool (MemChunk.encoding c))
       = (out, Some e) ->
     MemChunk.cut c = (c, Some e))
  /\
  (forall (e : Entry) (h : headBlock),
     snd (MemChunk.Append c e) <> Some ErrOutOfOrder ->
     headBlock.append (MemChunk.head c) (Entry.Timestamp e) (Entry.Line e) = (h, None) ->
     (MemChunk.blockSize c <= headBlock.size h ->
      MemChunk.Append c e = MemChunk.cut (MemChunk.with_head c h)) /\
     (headBlock.size h < MemChunk.blockSize c ->
      MemChunk.Append c e = (MemChunk.with_head c h, None))).
Proof.
  split; [apply cut_empty|].
  split.
  { intros He out Hs. rewrite (cut_serialised _ He Hs). simpl. auto 10. }
  split.
  { intros He out e Hs. apply (cut_failed _ He Hs). }
  intros e h Hno Ha. unfold MemChunk.Append in *.
  destruct (headBlock.isEmpty (MemChunk.head c) && (len (MemChunk.blocks c) >? 0)
            && (block.maxt (MemChunk.last_block c) >? Entry.Timestamp e)).
  { exfalso. apply Hno. reflexivity. }
  rewrite Ha. simpl.
  split; intros Hsz.
  - replace (headBlock.size h >=? MemChunk.blockSize c) with true; [reflexivity|].
    symmetry. rewrite Z.geb_leb. apply Z.leb_le. exact Hsz.
  - replace (headBlock.size h >=? MemChunk.blockSize c) with false; [reflexivity|].
    symmetry. rewrite Z.geb_leb. apply Z.leb_gt. exact Hsz.
Qed.

End Cutting.

(** A head of one entry is cut into one block, through the theorem. *)
Lemma cut_adds_one_block_witness :
  MemChunk.blocks (fst (@MemChunk.cut nonePools chunk_S3))
  = [block.mk (map z2b [20; 1; 120]) 1 10 10 0 1].
Proof.
  destruct (@cut_adds_one_block nonePools chunk_S3) as (_ & Hcut & _).
  destruct (Hcut eq_refl (map z2b [20; 1; 120]) eq_refl) as (_ & Hblocks & _).
  exact Hblocks.
Defined.

(** Scenario S2: with a block size of 4 the second entry fills the head,
    which is cut; after the third entry there is one block and a head of one
    entry. *)
Example scenario_S2 :
  len (MemChunk.blocks chunk_S2) = 1 /\
  len (headBlock.entries (MemChunk.head chunk_S2)) = 1 /\
  snd (@appendAll nonePools (MemChunk.NewMemChunk EncNone 4 0) entries_S2)
    = [None; None; None].
Proof. vm_compute. auto. Qed.

(* ================================================================= *)
(** ** Sizes *)

(** C7. [SpaceFor] compares the cut bytes, the head bytes and the new line
    with the target size when there is one, and the number of blocks with
    ten otherwise. *)
Theorem SpaceFor_formula (c : MemChunk) (e : Entry)
  (Hhead : fits_int (headBlock.size (MemChunk.head c) + len (Entry.Line e)))
  (Hsum : fits_int (MemChunk.cutBlockSize c
                    + (headBlock.size (MemChunk.head c) + len (Entry.Line e)))) :
  MemChunk.SpaceFor c e =
    if 0 <? MemChunk.targetSize c
    then MemChunk.cutBlockSize c + headBlock.size (MemChunk.head c) + len (Entry.Line e)
         <? MemChunk.targetSize c
    else len (MemChunk.blocks c) <? 10.
Proof.
  unfold MemChunk.SpaceFor, blocksPerChunk.
  rewrite Z.gtb_ltb.
  destruct (0 <? MemChunk.targetSize c); [|reflexivity].
  rewrite (int_add_fits _ _ Hhead), (int_add_fits _ _ Hsum).
  f_equal. lia.
Qed.

Lemma SpaceFor_formula_witness :
  MemChunk.SpaceFor chunk_S2 (Entry.mk 4 (bytes_of "gh")) = true.
Proof.
  rewrite (@SpaceFor_formula chunk_S2 (Entry.mk 4 (bytes_of "gh"))).
  - reflexivity.
  - fits_int_closed.
  - fits_int_closed.
Defined.

(** [Utilization] and [CompressedSize] as the code has them.
    [Utilization] divides the compressed size by the target size whenever
    the target size is not zero, and the uncompressed size by ten blocks
    when it is zero; the compressed size of a chunk whose head is not empty
    is [cutBlockSize] plus the size of the head. *)
Theorem Utilization_formula (c : MemChunk)
  (Hhead : fits_int (headBlock.size (MemChunk.head c)))
  (Hsum : fits_int (MemChunk.cutBlockSize c + headBlock.size (MemChunk.head c))) :
  MemChunk.Utilization c =
    (if MemChunk.targetSize c =? 0
     then PrimFloat.div (MemChunk.float64 (MemChunk.UncompressedSize c))
                        (MemChunk.float64 (int_mul 10 (MemChunk.blockSize c)))
     else PrimFloat.div (MemChunk.float64 (MemChunk.CompressedSize c))
                        (MemChunk.float64 (MemChunk.targetSize c)))
  /\
  (headBlock.isEmpty (MemChunk.head c) = false ->
   MemChunk.CompressedSize c
     = MemChunk.cutBlockSize c + headBlock.size (MemChunk.head c)).
Proof.
  split.
  - unfold MemChunk.Utilization, blocksPerChunk.
    destruct (MemChunk.targetSize c =? 0); reflexivity.
  - intros He. unfold MemChunk.CompressedSize. rewrite He. simpl negb. cbv iota.
    rewrite (int_add_fits 0 _) by exact Hhead.
    rewrite int_add_fits; [lia|].
    replace (0 + headBlock.size (MemChunk.head c) + MemChunk.cutBlockSize c)
      with (MemChunk.cutBlockSize c + headBlock.size (MemChunk.head c)) by lia.
    exact Hsum.
Qed.

Lemma Utilization_formula_witness :
  MemChunk.CompressedSize chunk_negative_target = 0 + 1.
Proof.
  refine (proj2 (@Utilization_formula chunk_negative_target _ _) _).
  - fits_int_closed.
  - fits_int_closed.
  - reflexivity.
Defined.

(** Where the target size is not negative, [Utilization] is what the
    specification words: the compressed size over the target size when the
    target size is positive, the uncompressed size over ten blocks when it
    is zero. *)
Lemma Utilization_nonnegative_target (c : MemChunk) :
  0 <= MemChunk.targetSize c ->
  MemChunk.Utilization c = Utilization_as_specified c.
Proof.
  intros Ht. unfold MemChunk.Utilization, Utilization_as_specified, blocksPerChunk.
  destruct (MemChunk.targetSize c =? 0) eqn:H0.
  - apply Z.eqb_eq in H0.
    replace (MemChunk.targetSize c >? 0) with false
      by (symmetry; rewrite Z.gtb_ltb; apply Z.ltb_ge; lia).
    reflexivity.
  - apply Z.eqb_neq in H0.
    replace (MemChunk.targetSize c >? 0) with true
      by (symmetry; rewrite Z.gtb_ltb; apply Z.ltb_lt; lia).
    reflexivity.
Qed.

(** Where the target size is negative, the two methods that read it part:
    [SpaceFor] takes it for not defined and counts the blocks,
    [Utilization] divides by it. *)
Lemma negative_target_SpaceFor_Utilization (c : MemChunk) (e : Entry) :
  MemChunk.targetSize c < 0 ->
  MemChunk.SpaceFor c e = (len (MemChunk.blocks c) <? blocksPerChunk) /\
  MemChunk.Utilization c
  = PrimFloat.div (MemChunk.float64 (MemChunk.CompressedSize c))
                  (MemChunk.float64 (MemChunk.targetSize c)).
Proof.
  intros Ht. unfold MemChunk.SpaceFor, MemChunk.Utilization.
  replace (MemChunk.targetSize c >? 0) with false
    by (symmetry; rewrite Z.gtb_ltb; apply Z.ltb_ge; lia).
  replace (MemChunk.targetSize c =? 0) with false
    by (symmetry; apply Z.eqb_neq; lia).
  split; reflexivity.
Qed.

(** C8 fails on the code.  The chunk has the target size -1 and a head of
    one byte.  [SpaceFor] takes that target size for not defined and counts
    the blocks, as the claim does for every target size that is not
    positive; [Utilization] tests the target size against zero only,
    divides by it and returns -1, where the claim has the uncompressed size
    over ten blocks, 1/2560. *)
Theorem Utilization_divides_by_negative_target (e : Entry) :
  MemChunk.targetSize chunk_negative_target = -1 /\
  MemChunk.SpaceFor chunk_negative_target e
  = (len (MemChunk.blocks chunk_negative_target) <? blocksPerChunk) /\
  MemChunk.Utilization chunk_negative_target = PrimFloat.opp PrimFloat.one /\
  Utilization_as_specified chunk_negative_target
  = PrimFloat.div PrimFloat.one (MemChunk.float64 2560) /\
  MemChunk.Utilization chunk_negative_target
  <> Utilization_as_specified chunk_negative_target.
Proof.
  split; [reflexivity|].
  split; [reflexivity|].
  split; [vm_compute; reflexivity|].
  split; [vm_compute; reflexivity|].
  intros Heq.
  apply (f_equal (fun x => PrimFloat.ltb x PrimFloat.zero)) in Heq.
  vm_compute in Heq. discriminate.
Qed.

(* ================================================================= *)
(** ** What [cut] leaves, and writing the blocks again *)

Section BytesTwice.
Context `{Pools}.

Lemma cut_head_empty (c c' : MemChunk) :
  MemChunk.cut c = (c', None) -> headBlock.isEmpty (MemChunk.head c') = true.
Proof.
  unfold MemChunk.cut.
  destruct (headBlock.isEmpty (MemChunk.head c)) eqn:He.
  - intros [= <-]. exact He.
  - destruct (headBlock.serialise _ _) as [out [e|]]; [discriminate|].
    intros [= <-]. reflexivity.
Qed.

Lemma cut_error_unchanged (c c' : MemChunk) (e : error) :
  MemChunk.cut c = (c', Some e) -> c' = c.
Proof.
  unfold MemChunk.cut.
  destruct (headBlock.isEmpty (MemChunk.head c)); [discriminate|].
  destruct (headBlock.serialise _ _) as [out [e'|]]; [|discriminate].
  intros [= <- _]. reflexivity.
Qed.

(** Writing the blocks again, from the blocks the first writing left,
    gives the same bytes and the same offsets. *)
Lemma write_blocks_again (bs : list block) (buf : list byte) (offset : Z) :
  MemChunk.write_blocks (fst (fst (MemChunk.write_blocks bs buf offset))) buf offset
  = MemChunk.write_blocks bs buf offset.
Proof.
  revert buf offset. induction bs as [|blk rest IH]; intros buf offset; [reflexivity|].
  simpl.
  specialize (IH (buf ++ encbuf.get (encbuf.putHash (encbuf.putBytes (encbuf.reset []) (block.b blk))))
                 (int_add offset (len (encbuf.get (encbuf.putHash (encbuf.putBytes (encbuf.reset []) (block.b blk))))))).
  destruct (MemChunk.write_blocks rest _ _) as [[rest' buf'] offset'] eqn:Hw.
  simpl in *. rewrite IH. destruct blk; reflexivity.
Qed.

End BytesTwice.

(* ================================================================= *)
(** ** The order of the blocks *)

Lemma ordered_snoc (bs : list block) (x : block) :
  ordered bs ->
  (bs <> [] -> block.maxt (last bs block.zero) <= block.mint x) ->
  ordered (bs ++ [x]).
Proof.
  induction bs as [|b1 rest IH]; intros Ho Hl; [exact I|].
  destruct rest as [|b2 rest'].
  - simpl. split; [|exact I]. apply Hl. discriminate.
  - destruct Ho as [H12 Ho]. split; [exact H12|].
    apply IH; [exact Ho|]. intros _. apply Hl. discriminate.
Qed.

Lemma ordered_nth (bs : list block) (i : nat) (b1 b2 : block) :
  ordered bs ->
  nth_error bs i = Some b1 -> nth_error bs (S i) = Some b2 ->
  block.maxt b1 <= block.mint b2.
Proof.
  revert i. induction bs as [|x rest IH]; intros i Ho H1 H2.
  - destruct i; discriminate.
  - destruct rest as [|y rest']; [destruct i; discriminate|].
    destruct Ho as [Hxy Ho].
    destruct i as [|i].
    + simpl in H1, H2. injection H1 as <-. injection H2 as <-. exact Hxy.
    + apply (IH i Ho); assumption.
Qed.

Section BlockOrder.
Context `{Pools}.

Lemma chunk_ordered_new (enc : Encoding) (blockSize targetSize : Z) :
  chunk_ordered (MemChunk.NewMemChunk enc blockSize targetSize).
Proof.
  unfold chunk_ordered. simpl. split; [exact I|]. split; [reflexivity|].
  intros He. discriminate.
Qed.

Lemma chunk_ordered_cut (c : MemChunk) :
  chunk_ordered c -> chunk_ordered (fst (MemChunk.cut c)).
Proof.
  intros (Ho & Hz & Hh). unfold MemChunk.cut.
  destruct (headBlock.isEmpty (MemChunk.head c)) eqn:He.
  - simpl. unfold chunk_ordered. rewrite He. auto.
  - destruct (headBlock.serialise _ _) as [out [e|]].
    + simpl. unfold chunk_ordered. rewrite He. auto.
    + simpl. unfold chunk_ordered. simpl. split; [|split].
      * apply ordered_snoc; [exact Ho|]. intros Hne. apply (Hh eq_refl Hne).
      * reflexivity.
      * intros Hf. discriminate.
Qed.

Lemma chunk_ordered_Append (c : MemChunk) (e : Entry) :
  chunk_ordered c -> chunk_ordered (fst (MemChunk.Append c e)).
Proof.
  intros Hc. pose proof Hc as (Ho & Hz & Hh). unfold MemChunk.Append.
  destruct (headBlock.isEmpty (MemChunk.head c) && (len (MemChunk.blocks c) >? 0)
            && (block.maxt (MemChunk.last_block c) >? Entry.Timestamp e)) eqn:Hpre;
    [exact Hc|].
  destruct (headBlock.append _ _ _) as [h [err|]] eqn:Ha; [exact Hc|].
  apply head_append_ok in Ha. destruct Ha as (Hin & ->).
  assert (Hnew : chunk_ordered
            (MemChunk.with_head c
               (headBlock.mk (headBlock.entries (MemChunk.head c)
                                ++ [entry.mk (Entry.Timestamp e) (Entry.Line e)])
                  (int_add (headBlock.size (MemChunk.head c)) (len (Entry.Line e)))
                  (if (headBlock.mint (MemChunk.head c) =? 0)
                      || (headBlock.mint (MemChunk.head c) >? Entry.Timestamp e)
                   then Entry.Timestamp e else headBlock.mint (MemChunk.head c))
                  (Entry.Timestamp e)))).
  { unfold chunk_ordered. simpl. split; [exact Ho|]. split.
    - intros Hemp. apply isEmpty_true in Hemp. simpl in Hemp.
      destruct (headBlock.entries (MemChunk.head c)); discriminate.
    - intros _ Hne.
      change (MemChunk.last_block (MemChunk.with_head c _)) with (MemChunk.last_block c).
      destruct (headBlock.isEmpty (MemChunk.head c)) eqn:He.
      + (* the head was empty: the timestamp was compared with the last block *)
        simpl in Hpre.
        assert (Hlen : (len (MemChunk.blocks c) >? 0) = true).
        { destruct (MemChunk.blocks c); [congruence|reflexivity]. }
        rewrite Hlen in Hpre. simpl in Hpre.
        rewrite Z.gtb_ltb in Hpre. apply Z.ltb_ge in Hpre.
        rewrite (Hz eq_refl). simpl. lia.
      + destruct Hin as [Hx|Hle]; [discriminate|].
        destruct (Hh eq_refl Hne) as (Hm & Hx).
        destruct ((headBlock.mint (MemChunk.head c) =? 0)
                  || (headBlock.mint (MemChunk.head c) >? Entry.Timestamp e)); lia. }
  set (c' := MemChunk.with_head c _) in *.
  destruct (headBlock.size (MemChunk.head c') >=? MemChunk.blockSize c').
  - apply chunk_ordered_cut. exact Hnew.
  - exact Hnew.
Qed.

Lemma chunk_ordered_run (ops : list op) (c : MemChunk) :
  chunk_ordered c -> chunk_ordered (run c ops).
Proof.
  revert c. induction ops as [|o ops IH]; intros c Hc; [exact Hc|].
  simpl. apply IH. destruct o; simpl.
  - apply chunk_ordered_Append. exact Hc.
  - apply chunk_ordered_cut. exact Hc.
Qed.

(** C5. After any run of [Append] and [cut] from a new chunk, every block
    ends no later than the next one starts, and a head that is not empty
    starts no earlier than the last block ends. *)
Theorem blocks_stay_ordered (enc : Encoding) (blockSize targetSize : Z) (ops : list op) :
  let c := run (MemChunk.NewMemChunk enc blockSize targetSize) ops in
  (forall (i : nat) (b1 b2 : block),
     nth_error (MemChunk.blocks c) i = Some b1 ->
     nth_error (MemChunk.blocks c) (S i) = Some b2 ->
     block.maxt b1 <= block.mint b2)
  /\
  (MemChunk.blocks c <> [] ->
   headBlock.isEmpty (MemChunk.head c) = false ->
   headBlock.mint (MemChunk.head c) >= block.maxt (MemChunk.last_block c)).
Proof.
  intros c.
  assert (Hc : chunk_ordered c).
  { apply chunk_ordered_run, chunk_ordered_new. }
  destruct Hc as (Ho & _ & Hh). split.
  - intros i b1 b2. apply ordered_nth. exact Ho.
  - intros Hne He. destruct (Hh He Hne) as (Hm & _). lia.
Qed.

End BlockOrder.

(** The two blocks of scenario S2, through the theorem. *)
Lemma blocks_stay_ordered_witness :
  block.maxt (nth 0 (MemChunk.blocks (@run nonePools (MemChunk.NewMemChunk EncNone 4 0) ops_S2))
                block.zero)
  <= block.mint (nth 1 (MemChunk.blocks (@run nonePools (MemChunk.NewMemChunk EncNone 4 0) ops_S2))
                   block.zero).
Proof.
  apply (proj1 (@blocks_stay_ordered nonePools EncNone 4 0 ops_S2) 0%nat); reflexivity.
Defined.

(* ================================================================= *)
(** ** Inputs on which the code panics *)

(** Every buffer with a sound header and fewer than eight bytes makes the
    parser panic, at the slice [b[len(b)-8:]]. *)
Lemma NewByteChunk_short_panics (b : list byte) (blockSize targetSize : Z)
      (version : Z) (enc : Encoding) :
  MemChunk.read_header b = inl (version, enc) ->
  len b < 8 ->
  MemChunk.NewByteChunk b blockSize targetSize = Panics.
Proof.
  intros Hh Hl. unfold MemChunk.NewByteChunk. rewrite Hh.
  unfold slice_from, slice.
  replace (0 <=? len b - 8) with false by (symmetry; apply Z.leb_gt; lia).
  reflexivity.
Qed.

(** C4 fails on the code.  A buffer that holds the magic number and the
    version and nothing more passes the header checks; the parser then
    slices [b[len(b)-8:]] with a negative bound, which panics. *)
Theorem NewByteChunk_short_input_panics (blockSize targetSize : Z) :
  MemChunk.NewByteChunk header_only blockSize targetSize = Panics.
Proof. reflexivity. Qed.

Section IteratorAfterClose.
Context `{Pools}.

(** An iterator that is closed has no buffered reader left, and [Next]
    reads from it all the same. *)
Lemma Next_closed_panics (fuel : nat) (si : bufferedIterator) :
  bufferedIterator.closed si = true ->
  bufferedIterator.bufReader si = None ->
  bufferedIterator.Next fuel si = Panics.
Proof.
  intros Hc Hb. unfold bufferedIterator.Next. rewrite Hc. simpl.
  unfold bufferedIterator.moveNext. rewrite Hb. reflexivity.
Qed.

Lemma read_rest_closed (fuel : nat) (si : bufferedIterator) (r : rstream)
      (line : list byte) (lineSize : Z) (line' : list byte) (ok : bool)
      (si' : bufferedIterator) :
  bufferedIterator.read_rest fuel si r line lineSize = Ret (line', ok, si') ->
  bufferedIterator.closed si' = bufferedIterator.closed si.
Proof.
  revert si r line. induction fuel as [|fuel IH]; intros si r line; simpl.
  - destruct (len line <? lineSize); [discriminate|]. intros [= _ _ <-]. reflexivity.
  - destruct (len line <? lineSize); [|intros [= _ _ <-]; reflexivity].
    destruct (bufio.Read r _) as [[p e] r'].
    destruct (bufferedIterator.not_EOF e).
    + intros [= _ _ <-]. reflexivity.
    + intros Hr. apply IH in Hr. exact Hr.
Qed.

Lemma moveNext_closed (fuel : nat) (si si' : bufferedIterator)
      (ts : Z) (line : list byte) (ok : bool) :
  bufferedIterator.moveNext fuel si = Ret (ts, line, ok, si') ->
  bufferedIterator.closed si' = bufferedIterator.closed si.
Proof.
  unfold bufferedIterator.moveNext.
  destruct (bufferedIterator.bufReader si) as [r|]; [|discriminate].
  destruct (binary.ReadVarint r) as [[ts0 e0] r0].
  destruct e0 as [e0|].
  { intros [= _ _ _ <-]. destruct (negb (is_EOF e0)); reflexivity. }
  destruct (binary.ReadUvarint r0) as [[l e1] r1].
  destruct (bufferedIterator.not_EOF e1).
  { intros [= _ _ _ <-]. reflexivity. }
  destruct (to_int l >=? maxLineLength).
  { intros [= _ _ _ <-]. reflexivity. }
  match goal with
  | |- context [if ?f then bufferedIterator.with_buf ?a ?b else ?c] =>
      assert (Hsi : bufferedIterator.closed (if f then bufferedIterator.with_buf a b else c)
                    = bufferedIterator.closed si) by (destruct f; reflexivity);
      generalize dependent (if f then bufferedIterator.with_buf a b else c)
  end.
  intros s2 Hs2.
  match goal with |- context [if ?g then _ else _] => destruct g end.
  { intros [= _ _ _ <-]. exact Hs2. }
  destruct (to_int l <? 0); [discriminate|].
  destruct (bufio.Read r1 (to_int l)) as [[p e2] r2].
  destruct (bufferedIterator.not_EOF e2).
  { intros [= _ _ _ <-]. exact Hs2. }
  destruct (bufferedIterator.read_rest _ _ _ _ _) as [[[line' ok'] s3]| |] eqn:Hr;
    simpl; try discriminate.
  apply read_rest_closed in Hr. simpl in Hr.
  destruct ok'; intros [= _ _ _ <-]; congruence.
Qed.

(** A [Next] that returns false on an open iterator closes it and drops
    its buffered reader. *)
Lemma Next_false_closes (fuel : nat) (si si' : bufferedIterator) :
  bufferedIterator.closed si = false ->
  bufferedIterator.Next fuel si = Ret (false, si') ->
  bufferedIterator.closed si' = true /\ bufferedIterator.bufReader si' = None.
Proof.
  intros Hopen. unfold bufferedIterator.Next.
  destruct (bufferedIterator.moveNext fuel _) as [[[[ts line] ok] s1]| |] eqn:Hm;
    simpl; try discriminate.
  apply moveNext_closed in Hm.
  assert (Hs1 : bufferedIterator.closed s1 = false).
  { rewrite Hm. destruct (negb (bufferedIterator.closed si) && _); simpl; exact Hopen. }
  destruct ok; simpl; [discriminate|].
  unfold bufferedIterator.Close. rewrite Hs1. simpl.
  intros [= <-]. split; reflexivity.
Qed.

(** Once [Next] has returned false, for an error or at the end of the
    block, the call after it panics. *)
Lemma Next_after_false_panics (fuel fuel' : nat) (si si' : bufferedIterator) :
  bufferedIterator.closed si = false ->
  bufferedIterator.Next fuel si = Ret (false, si') ->
  bufferedIterator.Next fuel' si' = Panics.
Proof.
  intros Hopen Hn. destruct (@Next_false_closes fuel si si' Hopen Hn) as (Hc & Hb).
  apply Next_closed_panics; assumption.
Qed.

End IteratorAfterClose.

(** C9 fails on the code.  The block announces a line of 2^30 bytes: the
    first [Next] returns false and [Error] gives the cause, the iterator is
    closed, and the second [Next] reads through the reader that [Close] has
    set to nil, which panics instead of returning false. *)
Theorem Next_after_error_panics (fuel : nat) :
  let pools := nonePools in
  let it := bufferedIterator.newBufferedIterator stats0 (getReaderPool EncNone)
              payload_line_too_long in
  exists si : bufferedIterator,
    bufferedIterator.Next fuel it = Ret (false, si) /\
    bufferedIterator.Error si = Some (ErrLineTooLong (2 ^ 30)) /\
    bufferedIterator.Next fuel si = Panics.
Proof.
  intros pools it.
  assert (Hn : exists si, bufferedIterator.Next fuel it = Ret (false, si) /\
                          bufferedIterator.Error si = Some (ErrLineTooLong (2 ^ 30))).
  { eexists. split; reflexivity. }
  destruct Hn as (si & Hn & He). exists si. split; [exact Hn|]. split; [exact He|].
  eapply Next_after_false_panics; [|exact Hn]. reflexivity.
Qed.

(* ================================================================= *)
(** ** Bytes and bit operations *)

Lemma b2z_range (c : byte) : 0 <= b2z c < 256.
Proof.
  unfold b2z. pose proof (Byte.to_N_bounded c). lia.
Qed.

Lemma b2z_z2b (x : Z) : b2z (z2b x) = x mod 256.
Proof.
  unfold b2z, z2b, to_byte.
  pose proof (Z.mod_pos_bound x 256 ltac:(lia)) as Hm.
  destruct (Byte.of_N (Z.to_N (x mod 256))) as [c|] eqn:Hc.
  - apply Byte.to_of_N in Hc. rewrite Hc. lia.
  - apply Byte.of_N_None_iff in Hc. lia.
Qed.

Lemma z2b_b2z (c : byte) : z2b (b2z c) = c.
Proof.
  unfold b2z, z2b, to_byte.
  pose proof (Byte.to_N_bounded c).
  rewrite Z.mod_small by lia. rewrite N2Z.id. rewrite Byte.of_to_N. reflexivity.
Qed.

Lemma b2z_z2b_small (x : Z) : 0 <= x < 256 -> b2z (z2b x) = x.
Proof. intros Hx. rewrite b2z_z2b. apply Z.mod_small. exact Hx. Qed.

Lemma land_shiftl_low (x y s : Z) :
  0 <= s -> 0 <= x < 2 ^ s -> Z.land x (Z.shiftl y s) = 0.
Proof.
  intros Hs Hx. apply Z.bits_inj'. intros n Hn.
  rewrite Z.land_spec, Z.bits_0.
  destruct (Z.lt_ge_cases n s) as [Hlt|Hge].
  - rewrite (Z.shiftl_spec_low y s n Hlt). apply andb_false_r.
  - replace x with (x mod 2 ^ s) by (apply Z.mod_small; exact Hx).
    rewrite Z.mod_pow2_bits_high by lia. reflexivity.
Qed.

Lemma lor_shiftl_add (x y s : Z) :
  0 <= s -> 0 <= x < 2 ^ s -> Z.lor x (Z.shiftl y s) = x + y * 2 ^ s.
Proof.
  intros Hs Hx.
  pose proof (Z.add_lor_land x (Z.shiftl y s)) as Ha.
  rewrite land_shiftl_low in Ha by assumption.
  rewrite Z.shiftl_mul_pow2 in Ha |- * by exact Hs. lia.
Qed.

Lemma lxor_range (n a b : Z) :
  0 <= n -> 0 <= a < 2 ^ n -> 0 <= b < 2 ^ n -> 0 <= Z.lxor a b < 2 ^ n.
Proof.
  intros Hn Ha Hb. split.
  - apply Z.lxor_nonneg. lia.
  - replace (Z.lxor a b) with (Z.lxor a b mod 2 ^ n); [apply Z.mod_pos_bound; lia|].
    apply Z.bits_inj'. intros k Hk.
    destruct (Z.lt_ge_cases k n) as [Hlt|Hge].
    + rewrite Z.mod_pow2_bits_low by lia. reflexivity.
    + rewrite Z.mod_pow2_bits_high by lia.
      rewrite Z.lxor_spec.
      replace a with (a mod 2 ^ n) by (apply Z.mod_small; exact Ha).
      replace b with (b mod 2 ^ n) by (apply Z.mod_small; exact Hb).
      rewrite !Z.mod_pow2_bits_high by lia. reflexivity.
Qed.

Lemma shiftr_range (n a k : Z) :
  0 <= k -> 0 <= a < 2 ^ n -> 0 <= Z.shiftr a k < 2 ^ n.
Proof.
  intros Hk Ha. rewrite Z.shiftr_div_pow2 by exact Hk.
  assert (0 < 2 ^ k) by (apply Z.pow_pos_nonneg; lia).
  split.
  - apply Z.div_pos; lia.
  - apply Z.le_lt_trans with a; [|lia]. apply Z.div_le_upper_bound; nia.
Qed.

Lemma table_step_range (crc : Z) :
  0 <= crc < 2 ^ 32 -> 0 <= crc32.table_step crc < 2 ^ 32.
Proof.
  intros Hc. unfold crc32.table_step.
  destruct (Z.land crc 1 =? 1).
  - apply lxor_range; [lia| apply shiftr_range; lia | unfold crc32.Castagnoli; lia].
  - apply shiftr_range; lia.
Qed.

Lemma castagnoliTable_range (i : Z) :
  0 <= i < 2 ^ 32 -> 0 <= crc32.castagnoliTable i < 2 ^ 32.
Proof.
  intros Hi. unfold crc32.castagnoliTable. simpl.
  repeat apply table_step_range. exact Hi.
Qed.

Lemma update_byte_range (crc : Z) (v : byte) :
  0 <= crc < 2 ^ 32 -> 0 <= crc32.update_byte crc v < 2 ^ 32.
Proof.
  intros Hc. unfold crc32.update_byte.
  apply lxor_range; [lia| |apply shiftr_range; lia].
  apply castagnoliTable_range.
  pose proof (b2z_range v).
  assert (0 <= to_byte crc < 2 ^ 8) by (unfold to_byte; apply Z.mod_pos_bound; lia).
  assert (0 <= Z.lxor (to_byte crc) (b2z v) < 2 ^ 8) by (apply lxor_range; lia).
  lia.
Qed.

Lemma Checksum_range (p : list byte) : 0 <= crc32.Checksum p < 2 ^ 32.
Proof.
  unfold crc32.Checksum.
  assert (Hfold : forall crc, 0 <= crc < 2 ^ 32 ->
             0 <= fold_left crc32.update_byte p crc < 2 ^ 32).
  { induction p as [|v p IH]; intros crc Hc; simpl; [exact Hc|].
    apply IH, update_byte_range, Hc. }
  unfold crc32.not32 at 1. apply lxor_range; [lia| |lia].
  apply Hfold. unfold crc32.not32. simpl. lia.
Qed.

(* ================================================================= *)
(** ** Big-endian integers *)

Ltac pow2_consts :=
  change (2 ^ 8) with 256 in *; change (2 ^ 16) with 65536 in *;
  change (2 ^ 24) with 16777216 in *; change (2 ^ 32) with 4294967296 in *;
  change (2 ^ 40) with 1099511627776 in *; change (2 ^ 48) with 281474976710656 in *;
  change (2 ^ 56) with 72057594037927936 in *;
  change (2 ^ 64) with 18446744073709551616 in *.

Ltac div_mod_lia := pow2_consts; Z.to_euclidean_division_equations; lia.

(** Turns the innermost [Z.lor _ (Z.shiftl _ _)] into a sum, again and again. *)
Ltac lor_to_add :=
  repeat match goal with
         | |- context [Z.lor ?x (Z.shiftl ?y ?s)] =>
             lazymatch x with
             | context [Z.lor] => fail
             | _ => rewrite (@lor_shiftl_add x y s) by (first [lia | div_mod_lia])
             end
         end.

Lemma Uint32_PutUint32 (v : Z) (rest : list byte) :
  0 <= v < 2 ^ 32 -> binary.Uint32 (binary.PutUint32 v ++ rest) = Ret v.
Proof.
  intros Hv. unfold binary.PutUint32, binary.Uint32. cbn [app]. f_equal.
  rewrite !b2z_z2b.
  rewrite !Z.shiftr_div_pow2 by lia.
  lor_to_add. div_mod_lia.
Qed.

Lemma Uint64_PutUint64 (v : Z) (rest : list byte) :
  0 <= v < 2 ^ 64 -> binary.Uint64 (binary.PutUint64 v ++ rest) = Ret v.
Proof.
  intros Hv. unfold binary.PutUint64, binary.Uint64. cbn [app]. f_equal.
  rewrite !b2z_z2b.
  rewrite !Z.shiftr_div_pow2 by lia.
  lor_to_add. div_mod_lia.
Qed.

(* ================================================================= *)
(** ** Varints *)

Lemma continuation_byte_bool (c : byte) :
  (128 <=? Z.lor (b2z c) 128) && (Z.lor (b2z c) 128 <? 256)
  && (Z.land (Z.lor (b2z c) 128) 127 =? b2z c mod 128) = true.
Proof. destruct c; reflexivity. Qed.

Lemma continuation_byte (x : Z) :
  128 <= Z.lor (to_byte x) 0x80 < 256 /\
  Z.land (Z.lor (to_byte x) 0x80) 0x7f = x mod 128.
Proof.
  pose proof (continuation_byte_bool (z2b x)) as Hb.
  rewrite b2z_z2b in Hb. unfold to_byte.
  apply andb_prop in Hb. destruct Hb as [Hb H3].
  apply andb_prop in Hb. destruct Hb as [H1 H2].
  apply Z.leb_le in H1. apply Z.ltb_lt in H2. apply Z.eqb_eq in H3.
  split; [lia|]. rewrite H3. Z.to_euclidean_division_equations; lia.
Qed.

Lemma len_PutUvarint_loop (rounds : nat) (x : Z) :
  1 <= len (binary.PutUvarint_loop rounds x) <= Z.of_nat rounds + 1.
Proof.
  revert x. induction rounds as [|r IH]; intros x.
  - simpl. unfold len. simpl. lia.
  - cbn [binary.PutUvarint_loop]. destruct (0x80 <=? x).
    + specialize (IH (Z.shiftr x 7)). unfold len in *. simpl length. lia.
    + unfold len. simpl. lia.
Qed.

Lemma pow2_split (s : Z) : 0 <= s -> 2 ^ (s + 7) = 128 * 2 ^ s.
Proof. intros Hs. rewrite Z.pow_add_r by lia. change (2 ^ 7) with 128. lia. Qed.

(** The decoding loop reads back what the encoding loop wrote. *)
Lemma Uvarint_loop_PutUvarint_loop (rounds : nat) :
  forall (x i acc : Z) (rest : list byte),
    0 <= i -> i + Z.of_nat rounds = 9 ->
    0 <= acc < 2 ^ (7 * i) ->
    0 <= x < 2 ^ (64 - 7 * i) ->
    binary.Uvarint_loop (binary.PutUvarint_loop rounds x ++ rest) i (7 * i) acc
    = (acc + x * 2 ^ (7 * i), i + len (binary.PutUvarint_loop rounds x)).
Proof.
  induction rounds as [|r IH]; intros x i acc rest Hi Hr Hacc Hx.
  - assert (i = 9) by lia. subst i. change (64 - 7 * 9) with 1 in Hx.
    cbn [binary.PutUvarint_loop app binary.Uvarint_loop].
    unfold binary.MaxVarintLen64. change (9 =? 10) with false. cbv iota.
    rewrite b2z_z2b_small by lia.
    replace (x <? 128) with true by (symmetry; apply Z.ltb_lt; lia).
    replace ((9 =? 10 - 1) && (1 <? x)) with false
      by (symmetry; apply andb_false_iff; right; apply Z.ltb_ge; lia).
    assert (Hsh : Z.shiftl x (7 * 9) = x * 2 ^ (7 * 9))
      by (apply Z.shiftl_mul_pow2; lia).
    unfold to_uint64. rewrite Z.mod_small by (rewrite Hsh; lia).
    rewrite lor_shiftl_add by lia. reflexivity.
  - assert (Hi8 : i <= 8) by lia.
    assert (Hp : 0 < 2 ^ (7 * i)) by (apply Z.pow_pos_nonneg; lia).
    cbn [binary.PutUvarint_loop]. destruct (0x80 <=? x) eqn:Hge.
    + apply Z.leb_le in Hge.
      destruct (continuation_byte x) as (Hrange & Hland).
      cbn [app binary.Uvarint_loop]. unfold binary.MaxVarintLen64.
      replace (i =? 10) with false by (symmetry; apply Z.eqb_neq; lia).
      rewrite b2z_z2b_small by lia.
      replace (Z.lor (to_byte x) 128 <? 128) with false
        by (symmetry; apply Z.ltb_ge; lia).
      rewrite Hland.
      assert (Hm : 0 <= x mod 128 < 128) by (apply Z.mod_pos_bound; lia).
      assert (Hsh : Z.shiftl (x mod 128) (7 * i) = x mod 128 * 2 ^ (7 * i))
        by (apply Z.shiftl_mul_pow2; lia).
      assert (Hle : 2 ^ (7 * i) <= 2 ^ 56) by (apply Z.pow_le_mono_r; lia).
      unfold to_uint64. rewrite Z.mod_small by (rewrite Hsh; nia).
      rewrite lor_shiftl_add by lia.
      replace (7 * i + 7) with (7 * (i + 1)) by lia.
      assert (Hpow : 2 ^ (7 * (i + 1)) = 128 * 2 ^ (7 * i)).
      { replace (7 * (i + 1)) with (7 * i + 7) by lia. apply pow2_split. lia. }
      rewrite IH; try lia.
      * rewrite Z.shiftr_div_pow2 by lia. change (2 ^ 7) with 128.
        rewrite Hpow. unfold len. simpl length.
        f_equal; [|lia].
        pose proof (Z.div_mod x 128 ltac:(lia)). nia.
      * rewrite Hpow. nia.
      * rewrite Z.shiftr_div_pow2 by lia. change (2 ^ 7) with 128.
        assert (H64 : 2 ^ (64 - 7 * i) = 128 * 2 ^ (64 - 7 * (i + 1))).
        { replace (64 - 7 * i) with (64 - 7 * (i + 1) + 7) by lia.
          apply pow2_split. lia. }
        split; [apply Z.div_pos; lia|].
        apply Z.div_lt_upper_bound; lia.
    + apply Z.leb_gt in Hge.
      cbn [app binary.Uvarint_loop]. unfold binary.MaxVarintLen64.
      replace (i =? 10) with false by (symmetry; apply Z.eqb_neq; lia).
      rewrite b2z_z2b_small by lia.
      replace (x <? 128) with true by (symmetry; apply Z.ltb_lt; lia).
      replace ((i =? 10 - 1) && (1 <? x)) with false
        by (symmetry; apply andb_false_iff; left; apply Z.eqb_neq; lia).
      assert (Hsh : Z.shiftl x (7 * i) = x * 2 ^ (7 * i))
        by (apply Z.shiftl_mul_pow2; lia).
      assert (Hle : 2 ^ (7 * i) <= 2 ^ 56) by (apply Z.pow_le_mono_r; lia).
      unfold to_uint64. rewrite Z.mod_small by (rewrite Hsh; nia).
      rewrite lor_shiftl_add by lia. unfold len. simpl length. reflexivity.
Qed.

Lemma Uvarint_PutUvarint (x : Z) (rest : list byte) :
  0 <= x < 2 ^ 64 ->
  binary.Uvarint (binary.PutUvarint x ++ rest) = (x, len (binary.PutUvarint x)).
Proof.
  intros Hx. unfold binary.Uvarint, binary.PutUvarint.
  change 0 with (7 * 0) at 2.
  rewrite Uvarint_loop_PutUvarint_loop; try lia.
  f_equal. change (2 ^ (7 * 0)) with 1. lia.
Qed.

(* ================================================================= *)
(** ** Varints on streams, zig-zag *)

Lemma skipn_len_app {A : Type} (l1 l2 : list A) :
  skipn (Z.to_nat (len l1)) (l1 ++ l2) = l2.
Proof.
  unfold len. rewrite Nat2Z.id. rewrite skipn_app, skipn_all, Nat.sub_diag. reflexivity.
Qed.

Lemma firstn_len_app {A : Type} (l1 l2 : list A) :
  firstn (Z.to_nat (len l1)) (l1 ++ l2) = l1.
Proof.
  unfold len. rewrite Nat2Z.id. rewrite firstn_app, firstn_all, Nat.sub_diag.
  simpl. apply app_nil_r.
Qed.

(** Reading a varint from a stream follows reading it from a buffer. *)
Lemma ReadUvarint_loop_Uvarint_loop (buf : list byte) :
  forall (rounds : nat) (i s acc v n : Z) (e : error),
    0 <= i -> Z.of_nat rounds = 10 - i ->
    binary.Uvarint_loop buf i s acc = (v, n) -> 0 < n ->
    i < n /\
    binary.ReadUvarint_loop rounds i s acc (mkStream buf e)
    = (v, None, mkStream (skipn (Z.to_nat (n - i)) buf) e).
Proof.
  induction buf as [|c rest IH]; intros rounds i s acc v n e Hi Hr Hu Hn.
  - simpl in Hu. injection Hu as <- <-. lia.
  - cbn [binary.Uvarint_loop] in Hu. unfold binary.MaxVarintLen64 in *.
    destruct (i =? 10) eqn:Hi10.
    { injection Hu as <- <-. lia. }
    apply Z.eqb_neq in Hi10.
    destruct rounds as [|r]; [lia|].
    cbn [binary.ReadUvarint_loop bufio.ReadByte rs_data rs_end].
    unfold binary.MaxVarintLen64.
    destruct (b2z c <? 128) eqn:Hc.
    + rewrite Z.gtb_ltb.
      destruct ((i =? 10 - 1) && (1 <? b2z c)).
      { injection Hu as <- <-. lia. }
      injection Hu as <- <-. split; [lia|].
      replace (i + 1 - i) with 1 by lia. reflexivity.
    + destruct (IH r (i + 1) (s + 7) _ v n e ltac:(lia) ltac:(lia) Hu Hn) as (Hlt & ->).
      split; [lia|].
      replace (Z.to_nat (n - i)) with (S (Z.to_nat (n - (i + 1)))) by lia.
      reflexivity.
Qed.

Lemma ReadUvarint_PutUvarint (x : Z) (rest : list byte) (e : error) :
  0 <= x < 2 ^ 64 ->
  binary.ReadUvarint (mkStream (binary.PutUvarint x ++ rest) e)
  = (x, None, mkStream rest e).
Proof.
  intros Hx. unfold binary.ReadUvarint.
  pose proof (Uvarint_PutUvarint rest Hx) as Hu. unfold binary.Uvarint in Hu.
  pose proof (len_PutUvarint_loop 9 x) as Hl. fold (binary.PutUvarint x) in Hl.
  destruct (@ReadUvarint_loop_Uvarint_loop (binary.PutUvarint x ++ rest)
              10%nat 0 0 0 x (len (binary.PutUvarint x)) e
              ltac:(lia) ltac:(lia) Hu ltac:(lia)) as (_ & ->).
  rewrite Z.sub_0_r, skipn_len_app. reflexivity.
Qed.

(** [^ux] on 64 bits. *)
Lemma lxor_ones_64 (u : Z) :
  0 <= u < 2 ^ 64 -> Z.lxor u (2 ^ 64 - 1) = 2 ^ 64 - 1 - u.
Proof.
  intros Hu.
  replace (2 ^ 64 - 1 - u) with (Z.lnot u mod 2 ^ 64).
  2:{ unfold Z.lnot. rewrite <- (Z.mod_add _ 1) by lia. rewrite Z.mod_small; lia. }
  change (2 ^ 64 - 1) with (Z.ones 64).
  apply Z.bits_inj'. intros n Hn. rewrite Z.lxor_spec.
  destruct (Z.lt_ge_cases n 64) as [Hlt|Hge].
  - rewrite Z.ones_spec_low by lia. rewrite Z.mod_pow2_bits_low by lia.
    rewrite Z.lnot_spec by lia. apply xorb_true_r.
  - rewrite Z.ones_spec_high by lia. rewrite Z.mod_pow2_bits_high by lia.
    replace u with (u mod 2 ^ 64) by (apply Z.mod_small; exact Hu).
    rewrite Z.mod_pow2_bits_high by lia. reflexivity.
Qed.

Lemma zigzag_range (x : Z) : fits_int x -> 0 <= binary.zigzag x < 2 ^ 64.
Proof.
  intros Hx. unfold fits_int in Hx. unfold binary.zigzag, to_uint64.
  assert (Hm : 0 <= Z.shiftl (x mod 2 ^ 64) 1 mod 2 ^ 64 < 2 ^ 64)
    by (apply Z.mod_pos_bound; lia).
  destruct (x <? 0); [|exact Hm].
  rewrite lxor_ones_64 by exact Hm. lia.
Qed.

Lemma land_1 (u : Z) : Z.land u 1 = u mod 2.
Proof. change 1 with (Z.ones 1). rewrite Z.land_ones by lia. reflexivity. Qed.

Lemma unzigzag_zigzag (x : Z) : fits_int x -> binary.unzigzag (binary.zigzag x) = x.
Proof.
  intros Hx. unfold fits_int in Hx. unfold binary.unzigzag, binary.zigzag, to_uint64, to_int64.
  rewrite !land_1.
  rewrite !Z.shiftl_mul_pow2, !Z.shiftr_div_pow2 by lia.
  change (2 ^ 1) with 2.
  destruct (x <? 0) eqn:Hneg.
  - apply Z.ltb_lt in Hneg.
    assert (H1 : x mod 2 ^ 64 = x + 2 ^ 64).
    { rewrite <- (Z.mod_add _ 1) by lia. rewrite Z.mod_small; lia. }
    rewrite H1.
    assert (H2 : ((x + 2 ^ 64) * 2) mod 2 ^ 64 = 2 * x + 2 ^ 64).
    { replace ((x + 2 ^ 64) * 2) with (2 * x + 2 ^ 64 + 1 * 2 ^ 64) by lia.
      rewrite Z.mod_add by lia. rewrite Z.mod_small; lia. }
    rewrite H2. rewrite lxor_ones_64 by lia.
    replace (2 ^ 64 - 1 - (2 * x + 2 ^ 64)) with (- 2 * x - 1) by lia.
    replace ((- 2 * x - 1) mod 2) with 1 by (Z.to_euclidean_division_equations; lia).
    change (1 =? 0) with false. cbv iota.
    replace ((- 2 * x - 1) / 2) with (- x - 1) by (Z.to_euclidean_division_equations; lia).
    rewrite Z.mod_small by lia. unfold Z.lnot. lia.
  - apply Z.ltb_ge in Hneg.
    rewrite (Z.mod_small x) by lia.
    rewrite (Z.mod_small (x * 2)) by lia.
    replace ((x * 2) mod 2) with 0 by (Z.to_euclidean_division_equations; lia).
    change (0 =? 0) with true. cbv iota.
    replace (x * 2 / 2) with x by (Z.to_euclidean_division_equations; lia).
    rewrite Z.mod_small by lia. lia.
Qed.


Lemma Varint_PutVarint (x : Z) (rest : list byte) :
  fits_int x ->
  binary.Varint (binary.PutVarint x ++ rest) = (x, len (binary.PutVarint x)).
Proof.
  intros Hx. unfold binary.Varint. unfold binary.PutVarint.
  rewrite Uvarint_PutUvarint by (apply zigzag_range; exact Hx).
  rewrite unzigzag_zigzag by exact Hx. reflexivity.
Qed.

Lemma ReadVarint_PutVarint (x : Z) (rest : list byte) (e : error) :
  fits_int x ->
  binary.ReadVarint (mkStream (binary.PutVarint x ++ rest) e)
  = (x, None, mkStream rest e).
Proof.
  intros Hx. unfold binary.ReadVarint. unfold binary.PutVarint.
  rewrite ReadUvarint_PutUvarint by (apply zigzag_range; exact Hx).
  rewrite unzigzag_zigzag by exact Hx. reflexivity.
Qed.

Lemma to_int_to_uint64 (x : Z) : fits_int x -> to_int (to_uint64 x) = x.
Proof.
  unfold fits_int, to_int, to_int64, to_uint64. intros Hx.
  destruct (Z.lt_ge_cases x 0) as [Hneg|Hpos].
  - assert (H1 : x mod 2 ^ 64 = x + 2 ^ 64).
    { rewrite <- (Z.mod_add _ 1) by lia. rewrite Z.mod_small; lia. }
    rewrite H1.
    replace (x + 2 ^ 64 + 2 ^ 63) with (x + 2 ^ 63 + 1 * 2 ^ 64) by lia.
    rewrite Z.mod_add by lia. rewrite Z.mod_small by lia. lia.
  - rewrite (Z.mod_small x) by lia. rewrite Z.mod_small by lia. lia.
Qed.

Lemma to_uint64_range (x : Z) : 0 <= to_uint64 x < 2 ^ 64.
Proof. unfold to_uint64. apply Z.mod_pos_bound. lia. Qed.

(* ================================================================= *)
(** ** Parsing a laid-out file *)

Lemma decbuf_uvarint_put (x : Z) (rest : list byte) :
  fits_int x ->
  decbuf.uvarint (decbuf.mk (binary.PutUvarint (to_uint64 x) ++ rest) None)
  = (x, decbuf.mk rest None).
Proof.
  intros Hx. unfold decbuf.uvarint, decbuf.uvarint64. cbn [decbuf.e decbuf.b].
  rewrite Uvarint_PutUvarint by apply to_uint64_range.
  pose proof (len_PutUvarint_loop 9 (to_uint64 x)) as Hl.
  fold (binary.PutUvarint (to_uint64 x)) in Hl.
  replace (len (binary.PutUvarint (to_uint64 x)) <? 1) with false
    by (symmetry; apply Z.ltb_ge; lia).
  rewrite skipn_len_app, to_int_to_uint64 by exact Hx. reflexivity.
Qed.

Lemma decbuf_varint64_put (x : Z) (rest : list byte) :
  fits_int x ->
  decbuf.varint64 (decbuf.mk (binary.PutVarint x ++ rest) None)
  = (x, decbuf.mk rest None).
Proof.
  intros Hx. unfold decbuf.varint64. cbn [decbuf.e decbuf.b].
  rewrite Varint_PutVarint by exact Hx.
  pose proof (len_PutUvarint_loop 9 (binary.zigzag x)) as Hl.
  fold (binary.PutUvarint (binary.zigzag x)) in Hl.
  fold (binary.PutVarint x) in Hl.
  replace (len (binary.PutVarint x) <? 1) with false
    by (symmetry; apply Z.ltb_ge; lia).
  rewrite skipn_len_app. reflexivity.
Qed.

Lemma slice_middle (pre mid post : list byte) :
  slice (pre ++ mid ++ post) (len pre) (len pre + len mid) = Ret mid.
Proof.
  unfold slice. pose proof (len_nonneg pre). pose proof (len_nonneg mid).
  pose proof (len_nonneg post).
  rewrite !len_app.
  replace ((0 <=? len pre) && (len pre <=? len pre + len mid)
           && (len pre + len mid <=? len pre + (len mid + len post))) with true.
  2:{ symmetry. rewrite !andb_true_iff, !Z.leb_le. lia. }
  rewrite skipn_len_app.
  replace (len pre + len mid - len pre) with (len mid) by lia.
  rewrite firstn_len_app. reflexivity.
Qed.

Lemma slice_from_suffix (pre post : list byte) :
  slice_from (pre ++ post) (len pre) = Ret post.
Proof.
  unfold slice_from. rewrite len_app.
  pose proof (slice_middle pre post []) as Hs. rewrite app_nil_r in Hs. exact Hs.
Qed.

Lemma len_PutUint32 (v : Z) : len (binary.PutUint32 v) = 4.
Proof. reflexivity. Qed.

Lemma len_PutUint64 (v : Z) : len (binary.PutUint64 v) = 8.
Proof. reflexivity. Qed.

Lemma len_stored_image (p : stored) :
  len (stored_image p) = len (block.b (fst p)) + 4.
Proof. unfold stored_image. rewrite len_app, len_PutUint32. reflexivity. Qed.

Lemma len_images_lower (ps : list stored) :
  4 * len ps <= len (flat_map stored_image ps).
Proof.
  induction ps as [|p ps IH]; [unfold len; simpl; lia|].
  cbn [flat_map]. rewrite len_app, len_stored_image.
  pose proof (len_nonneg (block.b (fst p))).
  unfold len in *. simpl length. lia.
Qed.

(** One round of the loop on a file laid out block after block. *)
Lemma parse_block_layout (pre post rest : list byte) (p : stored) (i : Z) (st : MemChunk.parse) :
  stored_ok p ->
  block.offset (fst p) = len pre ->
  fits_int (len (pre ++ stored_image p ++ post)) ->
  MemChunk.p_db st = decbuf.mk (meta_bytes (fst p) ++ rest) None ->
  MemChunk.parse_block (pre ++ stored_image p ++ post) i st
  = Ret (inl (if crc_verifies p
              then MemChunk.mkParse (MemChunk.p_blocks st ++ [as_parsed (fst p)])
                     (int_add (MemChunk.p_cutBlockSize st) (len (block.b (fst p))))
                     (decbuf.mk rest None) (MemChunk.p_log st)
              else MemChunk.mkParse (MemChunk.p_blocks st) (MemChunk.p_cutBlockSize st)
                     (decbuf.mk rest None)
                     (MemChunk.p_log st ++ [BlockSkipped i ErrInvalidChecksum]))).
Proof.
  intros (Hn & Hmin & Hmax & Hcrc) Hoff Hfit Hdb.
  pose proof (len_nonneg pre) as Hpre. pose proof (len_nonneg post) as Hpost.
  pose proof (len_nonneg (block.b (fst p))) as Hb.
  rewrite !len_app, len_stored_image in Hfit. unfold fits_int in Hfit.
  unfold MemChunk.parse_block. rewrite Hdb. unfold meta_bytes.
  rewrite <- !app_assoc.
  rewrite decbuf_uvarint_put by exact Hn.
  rewrite decbuf_varint64_put by exact Hmin.
  rewrite decbuf_varint64_put by exact Hmax.
  rewrite decbuf_uvarint_put by (rewrite Hoff; unfold fits_int; lia).
  rewrite decbuf_uvarint_put by (unfold fits_int; lia).
  rewrite Hoff.
  rewrite int_add_fits by (unfold fits_int; lia).
  unfold stored_image. rewrite <- !app_assoc.
  rewrite slice_middle. cbn [bind].
  replace (pre ++ block.b (fst p) ++ binary.PutUint32 (snd p) ++ post)
    with ((pre ++ block.b (fst p)) ++ binary.PutUint32 (snd p) ++ post)
    by (rewrite <- app_assoc; reflexivity).
  rewrite <- len_app. rewrite slice_from_suffix. cbn [bind].
  rewrite Uint32_PutUint32 by exact Hcrc. cbn [bind].
  unfold crc_verifies.
  destruct (snd p =? crc32.Checksum (block.b (fst p))); cbn [negb]; cbv iota.
  - cbn [decbuf.err decbuf.e]. unfold as_parsed. rewrite Hoff. reflexivity.
  - reflexivity.
Qed.

Lemma payload_total_nonneg (bs : list block) : 0 <= payload_total bs.
Proof.
  induction bs as [|blk bs IH]; simpl; [lia|].
  pose proof (len_nonneg (block.b blk)). lia.
Qed.

Lemma payload_total_verified (ps : list stored) :
  payload_total (verified ps) <= len (flat_map stored_image ps).
Proof.
  induction ps as [|p ps IH]; [unfold len; simpl; lia|].
  cbn [flat_map]. rewrite len_app, len_stored_image.
  pose proof (len_nonneg (block.b (fst p))).
  unfold verified in *. cbn [filter].
  destruct (crc_verifies p); cbn [map payload_total fold_right]; cbn [as_parsed block.b];
    unfold payload_total in *; simpl; lia.
Qed.

(** The loop on a file laid out block after block: the blocks whose stored
    checksum is the checksum of their payload are kept, the others logged. *)
Lemma parse_blocks_layout (ps : list stored) :
  forall (pre post rest : list byte) (i : Z) (st : MemChunk.parse),
    Forall stored_ok ps ->
    laid_out ps (len pre) ->
    fits_int (len (pre ++ flat_map stored_image ps ++ post)) ->
    0 <= MemChunk.p_cutBlockSize st <= len pre ->
    MemChunk.p_db st = decbuf.mk (flat_map (fun p => meta_bytes (fst p)) ps ++ rest) None ->
    MemChunk.parse_blocks (length ps) (pre ++ flat_map stored_image ps ++ post) i st
    = Ret (inl (MemChunk.mkParse
                  (MemChunk.p_blocks st ++ verified ps)
                  (MemChunk.p_cutBlockSize st + payload_total (verified ps))
                  (decbuf.mk rest None)
                  (MemChunk.p_log st ++ skipped ps i))).
Proof.
  induction ps as [|p ps IH]; intros pre post rest i st Hok Hlay Hfit Hcut Hdb.
  - cbn [length MemChunk.parse_blocks flat_map verified filter map skipped payload_total fold_right].
    cbn [flat_map app] in Hdb. rewrite !app_nil_r, Z.add_0_r.
    destruct st as [bs cbs db lg]. cbn in *. subst db. reflexivity.
  - inversion Hok as [|? ? Hp Hok']; subst.
    destruct Hlay as (Hoff & Hlay).
    cbn [length MemChunk.parse_blocks flat_map].
    rewrite <- app_assoc.
    pose proof Hfit as Hfit0.
    cbn [flat_map] in Hfit. rewrite <- app_assoc in Hfit.
    cbn [flat_map] in Hdb. rewrite <- app_assoc in Hdb.
    erewrite parse_block_layout; [|exact Hp|exact Hoff|exact Hfit|exact Hdb].
    cbn [bind].
    pose proof (len_nonneg pre) as Hpre.
    pose proof (len_nonneg (block.b (fst p))) as Hb.
    pose proof (len_nonneg (flat_map stored_image ps)) as Himgs.
    pose proof (len_nonneg post) as Hpost.
    assert (Hfit' : fits_int (len ((pre ++ stored_image p) ++ flat_map stored_image ps ++ post))).
    { rewrite <- app_assoc. exact Hfit. }
    rewrite !len_app, len_stored_image in Hfit. unfold fits_int in Hfit.
    replace (pre ++ stored_image p ++ flat_map stored_image ps ++ post)
      with ((pre ++ stored_image p) ++ flat_map stored_image ps ++ post)
      by (rewrite <- app_assoc; reflexivity).
    assert (Hlay' : laid_out ps (len (pre ++ stored_image p))).
    { rewrite len_app. exact Hlay. }
    unfold verified. cbn [filter skipped].
    destruct (crc_verifies p) eqn:Hv.
    + rewrite IH with (rest := rest); try assumption.
      * cbn [MemChunk.p_blocks MemChunk.p_cutBlockSize MemChunk.p_log map app
               payload_total fold_right as_parsed block.b].
        assert (Hx : fits_int (MemChunk.p_cutBlockSize st + len (block.b (fst p))))
          by (unfold fits_int; lia).
        rewrite int_add_fits by exact Hx.
        rewrite <- app_assoc. cbn [app]. f_equal. f_equal. f_equal.
        unfold payload_total, verified. lia.
      * cbn [MemChunk.p_cutBlockSize].
        assert (Hx : fits_int (MemChunk.p_cutBlockSize st + len (block.b (fst p))))
          by (unfold fits_int; lia).
        rewrite int_add_fits by exact Hx.
        rewrite len_app, len_stored_image. lia.
      * reflexivity.
    + rewrite IH with (rest := rest); try assumption.
      * cbn [MemChunk.p_blocks MemChunk.p_cutBlockSize MemChunk.p_log].
        rewrite <- app_assoc. reflexivity.
      * cbn [MemChunk.p_cutBlockSize]. rewrite len_app, len_stored_image. lia.
      * reflexivity.
Qed.

Lemma decbuf_be32_put (v : Z) (rest : list byte) :
  0 <= v < 2 ^ 32 ->
  decbuf.be32 (decbuf.mk (binary.PutUint32 v ++ rest) None) = (v, decbuf.mk rest None).
Proof.
  intros Hv. unfold decbuf.be32. cbn [decbuf.e decbuf.b].
  rewrite Uint32_PutUint32 by exact Hv. reflexivity.
Qed.

Lemma read_header_file (format : Z) (enc : Encoding) (rest : list byte) :
  format = chunkFormatV1 \/ format = chunkFormatV2 ->
  0 <= enc < 256 ->
  MemChunk.read_header (header_bytes format enc ++ rest)
  = inl (format, if format =? chunkFormatV2 then enc else EncGZIP).
Proof.
  intros Hf He. unfold MemChunk.read_header, header_bytes.
  rewrite <- !app_assoc.
  rewrite decbuf_be32_put by (unfold magicNumber; lia).
  rewrite Z.eqb_refl. cbn [negb].
  destruct Hf as [-> | ->].
  - reflexivity.
  - assert (Hb : to_byte enc = enc) by (unfold to_byte; apply Z.mod_small; lia).
    rewrite Hb. change (chunkFormatV2 =? chunkFormatV2) with true. cbv iota.
    unfold decbuf.byte. cbn [app decbuf.e decbuf.b decbuf.err].
    change (b2z (z2b chunkFormatV2)) with 2.
    cbn [decbuf.e decbuf.b decbuf.err].
    rewrite b2z_z2b_small by lia. reflexivity.
Qed.

(** What is left of [NewByteChunk] once the header and the footer of a file
    laid out as [chunk_file] are read. *)
Lemma NewByteChunk_footer (format : Z) (enc : Encoding) (body metas : list byte)
      (mcrc blockSize targetSize : Z) :
  format = chunkFormatV1 \/ format = chunkFormatV2 ->
  0 <= enc < 256 ->
  0 <= mcrc < 2 ^ 32 ->
  fits_int (len (chunk_file format enc body metas mcrc)) ->
  MemChunk.NewByteChunk (chunk_file format enc body metas mcrc) blockSize targetSize
  = if negb (mcrc =? crc32.Checksum metas) then Ret (inr ErrInvalidChecksum, [])
    else
      let '(num, db) := decbuf.uvarint (decbuf.mk metas None) in
      if negb (MemChunk.make_blocks_ok num) then Panics
      else
        x <- MemChunk.parse_blocks (Z.to_nat num)
               (chunk_file format enc body metas mcrc) 0
               (MemChunk.mkParse [] 0 db []) ;;
        match x with
        | inr e => Ret (inr e, [])
        | inl st =>
            Ret (inl (MemChunk.mk blockSize targetSize (MemChunk.p_blocks st)
                        (MemChunk.p_cutBlockSize st) headBlock.zero format
                        (if format =? chunkFormatV2 then enc else EncGZIP)),
                 MemChunk.p_log st)
        end.
Proof.
  intros Hf He Hm Hfit.
  unfold MemChunk.NewByteChunk.
  set (file := chunk_file format enc body metas mcrc) in *.
  set (hd := header_bytes format enc) in *.
  assert (Hfile : file = hd ++ body ++ metas ++ binary.PutUint32 mcrc
                    ++ binary.PutUint64 (to_uint64 (len hd + len body)))
    by reflexivity.
  pose proof (len_nonneg hd) as Hhd. pose proof (len_nonneg body) as Hbody.
  pose proof (len_nonneg metas) as Hmetas.
  assert (Hlen : len file = len hd + len body + len metas + 12).
  { rewrite Hfile, !len_app, len_PutUint32, len_PutUint64. lia. }
  unfold fits_int in Hfit. rewrite Hlen in Hfit.
  assert (Hoff : to_uint64 (len hd + len body) = len hd + len body).
  { unfold to_uint64. apply Z.mod_small. lia. }
  rewrite Hoff in Hfile.
  replace (MemChunk.read_header file)
    with (@inl (Z * Encoding) error (format, if format =? chunkFormatV2 then enc else EncGZIP)).
  2:{ symmetry. rewrite Hfile. apply read_header_file; assumption. }
  (* the last eight bytes *)
  assert (H8 : slice_from file (len file - 8)
               = Ret (binary.PutUint64 (len hd + len body))).
  { replace (len file - 8) with (len (hd ++ body ++ metas ++ binary.PutUint32 mcrc))
      by (rewrite !len_app, len_PutUint32; lia).
    rewrite Hfile.
    replace (hd ++ body ++ metas ++ binary.PutUint32 mcrc ++ binary.PutUint64 (len hd + len body))
      with ((hd ++ body ++ metas ++ binary.PutUint32 mcrc) ++ binary.PutUint64 (len hd + len body))
      by (rewrite <- !app_assoc; reflexivity).
    apply slice_from_suffix. }
  rewrite H8. cbn [bind].
  rewrite <- (app_nil_r (binary.PutUint64 (len hd + len body))).
  rewrite Uint64_PutUint64 by lia. cbn [bind].
  (* the metadata *)
  assert (Hmb : slice file (len hd + len body) (len file - (8 + 4)) = Ret metas).
  { replace (len file - (8 + 4)) with (len (hd ++ body) + len metas)
      by (rewrite len_app; lia).
    rewrite <- len_app. rewrite Hfile.
    replace (hd ++ body ++ metas ++ binary.PutUint32 mcrc ++ binary.PutUint64 (len hd + len body))
      with ((hd ++ body) ++ metas ++ binary.PutUint32 mcrc ++ binary.PutUint64 (len hd + len body))
      by (rewrite <- !app_assoc; reflexivity).
    apply slice_middle. }
  rewrite Hmb. cbn [bind].
  assert (H12 : slice_from file (len file - (8 + 4))
                = Ret (binary.PutUint32 mcrc ++ binary.PutUint64 (len hd + len body))).
  { replace (len file - (8 + 4)) with (len (hd ++ body ++ metas))
      by (rewrite !len_app; lia).
    rewrite Hfile.
    replace (hd ++ body ++ metas ++ binary.PutUint32 mcrc ++ binary.PutUint64 (len hd + len body))
      with ((hd ++ body ++ metas) ++ binary.PutUint32 mcrc ++ binary.PutUint64 (len hd + len body))
      by (rewrite <- !app_assoc; reflexivity).
    apply slice_from_suffix. }
  rewrite H12. cbn [bind].
  rewrite Uint32_PutUint32 by exact Hm. cbn [bind].
  unfold decbuf.crc32. cbn [decbuf.b].
  reflexivity.
Qed.

Lemma make_blocks_ok_small (n : Z) : 0 <= n < 2 ^ 42 -> MemChunk.make_blocks_ok n = true.
Proof.
  intros Hn. unfold MemChunk.make_blocks_ok.
  change (2 ^ 48 / 64) with (2 ^ 42).
  apply andb_true_iff. split; [apply Z.leb_le|apply Z.leb_le]; lia.
Qed.

Lemma flat_map_meta_fst (ps : list stored) :
  flat_map (fun p => meta_bytes (fst p)) ps = flat_map meta_bytes (map fst ps).
Proof.
  induction ps as [|p ps IH]; [reflexivity|]. cbn [flat_map map]. rewrite IH. reflexivity.
Qed.

Lemma NewByteChunk_blocks_file (format : Z) (enc : Encoding) (ps : list stored)
      (blockSize targetSize : Z) :
  format = chunkFormatV1 \/ format = chunkFormatV2 ->
  0 <= enc < 256 ->
  Forall stored_ok ps ->
  laid_out ps (len (header_bytes format enc)) ->
  len (blocks_file format enc ps) < 2 ^ 44 ->
  MemChunk.NewByteChunk (blocks_file format enc ps) blockSize targetSize
  = Ret (inl (MemChunk.mk blockSize targetSize (verified ps)
                (payload_total (verified ps)) headBlock.zero format
                (if format =? chunkFormatV2 then enc else EncGZIP)),
         skipped ps 0).
Proof.
  intros Hf He Hok Hlay Hsize.
  unfold blocks_file in *.
  pose proof (len_nonneg (chunk_file format enc (flat_map stored_image ps)
                            (metas_bytes (map fst ps))
                            (crc32.Checksum (metas_bytes (map fst ps))))) as Hnn.
  rewrite NewByteChunk_footer; try assumption.
  2:{ apply Checksum_range. }
  2:{ unfold fits_int. lia. }
  rewrite Z.eqb_refl. cbn [negb]. cbv iota.
  unfold metas_bytes at 1.
  assert (Hcount : 0 <= len ps < 2 ^ 42).
  { pose proof (len_images_lower ps) as Hlow. split; [apply len_nonneg|].
    unfold chunk_file in Hsize. rewrite !len_app in Hsize.
    pose proof (len_nonneg (header_bytes format enc)).
    pose proof (len_nonneg (metas_bytes (map fst ps))).
    rewrite len_PutUint32, len_PutUint64 in Hsize.
    change (2 ^ 44) with (4 * 2 ^ 42) in Hsize. lia. }
  assert (Hlenmap : len (map fst ps) = len ps).
  { unfold len. rewrite length_map. reflexivity. }
  rewrite Hlenmap.
  rewrite decbuf_uvarint_put by (unfold fits_int; lia).
  rewrite make_blocks_ok_small by exact Hcount. cbn [negb]. cbv iota.
  unfold len at 1. rewrite Nat2Z.id.
  unfold chunk_file.
  erewrite parse_blocks_layout with (rest := []); try eassumption.
  - cbn [bind MemChunk.p_blocks MemChunk.p_cutBlockSize MemChunk.p_log app].
    rewrite Z.add_0_l. reflexivity.
  - fold (chunk_file format enc (flat_map stored_image ps) (metas_bytes (map fst ps))
            (crc32.Checksum (metas_bytes (map fst ps)))).
    unfold fits_int. lia.
  - cbn [MemChunk.p_cutBlockSize]. pose proof (len_nonneg (header_bytes format enc)). lia.
  - cbn [MemChunk.p_db]. rewrite app_nil_r, flat_map_meta_fst. reflexivity.
Qed.

(* ================================================================= *)
(** ** What [Bytes] writes *)

Lemma write_blocks_layout (bs : list block) :
  forall (buf : list byte) (off : Z),
    0 <= off ->
    fits_int (off + len (flat_map stored_image (map with_checksum bs))) ->
    MemChunk.write_blocks bs buf off
    = (assign_offsets bs off,
       buf ++ flat_map stored_image (map with_checksum bs),
       off + len (flat_map stored_image (map with_checksum bs))).
Proof.
  induction bs as [|blk bs IH]; intros buf off Hoff Hfit.
  - cbn. rewrite app_nil_r. unfold len. simpl. rewrite Z.add_0_r. reflexivity.
  - cbn [MemChunk.write_blocks map flat_map assign_offsets].
    unfold encbuf.putHash, encbuf.putBytes, encbuf.reset, encbuf.get.
    cbn [app].
    change (block.b blk ++ binary.PutUint32 (crc32.Checksum (block.b blk)))
      with (stored_image (with_checksum blk)).
    cbn [flat_map map] in Hfit. rewrite len_app in Hfit.
    pose proof (len_stored_image (with_checksum blk)) as Hl. cbn [with_checksum fst] in Hl.
    pose proof (len_nonneg (block.b blk)).
    pose proof (len_nonneg (flat_map stored_image (map with_checksum bs))).
    unfold fits_int in Hfit.
    assert (Hx : fits_int (off + len (stored_image (with_checksum blk))))
      by (unfold fits_int; lia).
    rewrite int_add_fits by exact Hx.
    rewrite IH; [| lia | unfold fits_int; lia].
    rewrite len_app, <- app_assoc.
    rewrite Hl. f_equal. lia.
Qed.

Lemma put_meta_bytes (eb : encbuf.encbuf) (blk : block) :
  MemChunk.put_meta eb blk = eb ++ meta_bytes blk.
Proof.
  unfold MemChunk.put_meta, meta_bytes, encbuf.putUvarint, encbuf.putUvarint64,
    encbuf.putVarint64.
  rewrite <- !app_assoc. reflexivity.
Qed.

Lemma fold_put_meta (bs : list block) (eb : encbuf.encbuf) :
  fold_left MemChunk.put_meta bs eb = eb ++ flat_map meta_bytes bs.
Proof.
  revert eb. induction bs as [|blk bs IH]; intros eb.
  - cbn. rewrite app_nil_r. reflexivity.
  - cbn [fold_left flat_map]. rewrite IH, put_meta_bytes, <- app_assoc. reflexivity.
Qed.

Lemma write_header_bytes (c : MemChunk) :
  MemChunk.write_header c = header_bytes (MemChunk.format c) (MemChunk.encoding c).
Proof.
  unfold MemChunk.write_header, header_bytes, encbuf.putBE32, encbuf.putByte.
  cbn [app]. destruct (MemChunk.format c =? chunkFormatV2); rewrite <- ?app_assoc; reflexivity.
Qed.

Lemma images_of_assigned (bs : list block) (off : Z) :
  flat_map stored_image (map with_checksum (assign_offsets bs off))
  = flat_map stored_image (map with_checksum bs).
Proof.
  revert off. induction bs as [|blk bs IH]; intros off; [reflexivity|].
  cbn [assign_offsets map flat_map]. rewrite IH. reflexivity.
Qed.

Lemma len_assign_offsets (bs : list block) (off : Z) :
  len (assign_offsets bs off) = len bs.
Proof.
  unfold len. f_equal. revert off.
  induction bs as [|blk bs IH]; intros off; [reflexivity|].
  cbn [assign_offsets length]. rewrite IH. reflexivity.
Qed.

Lemma map_fst_with_checksum (bs : list block) : map fst (map with_checksum bs) = bs.
Proof. rewrite map_map. cbn. apply map_id. Qed.

Lemma laid_out_assigned (bs : list block) (off : Z) :
  laid_out (map with_checksum (assign_offsets bs off)) off.
Proof.
  revert off. induction bs as [|blk bs IH]; intros off; [exact I|].
  cbn [assign_offsets map laid_out]. split; [reflexivity|].
  rewrite len_stored_image. cbn [with_checksum fst block.with_offset block.b].
  apply IH.
Qed.

Lemma verified_with_checksum (bs : list block) :
  verified (map with_checksum bs) = map as_parsed bs.
Proof.
  unfold verified.
  induction bs as [|blk bs IH]; [reflexivity|].
  cbn [map filter]. unfold crc_verifies at 1. cbn [with_checksum fst snd].
  rewrite Z.eqb_refl. cbn [map fst]. rewrite IH. reflexivity.
Qed.

Lemma skipped_with_checksum (bs : list block) (i : Z) :
  skipped (map with_checksum bs) i = [].
Proof.
  revert i. induction bs as [|blk bs IH]; intros i; [reflexivity|].
  cbn [map skipped]. unfold crc_verifies. cbn [with_checksum fst snd].
  rewrite Z.eqb_refl. cbn [app]. apply IH.
Qed.

(** What [Bytes] writes for a chunk whose head is already cut. *)
Section BytesLayout.
Context `{Pools}.

Lemma Bytes_layout (c c1 : MemChunk) :
  MemChunk.cut c = (c1, None) ->
  let off := len (header_bytes (MemChunk.format c1) (MemChunk.encoding c1)) in
  let bs := assign_offsets (MemChunk.blocks c1) off in
  fits_int (off + len (flat_map stored_image (map with_checksum (MemChunk.blocks c1)))) ->
  MemChunk.Bytes c
  = (MemChunk.with_blocks c1 bs,
     (blocks_file (MemChunk.format c1) (MemChunk.encoding c1) (map with_checksum bs),
      None)).
Proof.
  intros Hcut off bs Hfit. unfold MemChunk.Bytes. rewrite Hcut.
  rewrite write_header_bytes. unfold encbuf.get. fold off.
  pose proof (len_nonneg (header_bytes (MemChunk.format c1) (MemChunk.encoding c1))) as Hoff.
  fold off in Hoff.
  pose proof (len_nonneg (flat_map stored_image (map with_checksum (MemChunk.blocks c1)))) as Hb.
  assert (H0 : int_add 0 off = off).
  { apply int_add_fits. unfold fits_int in *. lia. }
  rewrite H0.
  rewrite write_blocks_layout by assumption. fold bs.
  cbn [MemChunk.blocks MemChunk.with_blocks].
  rewrite fold_put_meta.
  unfold encbuf.putHash, encbuf.putBE64int, encbuf.putBE64, encbuf.putUvarint,
    encbuf.putUvarint64, encbuf.reset. cbn [app].
  unfold blocks_file, chunk_file. subst bs.
  rewrite images_of_assigned, map_fst_with_checksum.
  fold off. unfold metas_bytes.
  rewrite <- !app_assoc. reflexivity.
Qed.

End BytesLayout.

(* ================================================================= *)
(** ** Reading a block back *)

Section Iterating.
Context `{Pools}.

Lemma read_rest_done (fuel : nat) (si : bufferedIterator) (r : rstream)
      (line : list byte) (lineSize : Z) :
  lineSize <= len line ->
  bufferedIterator.read_rest fuel si r line lineSize = Ret (line, true, si).
Proof.
  intros Hl. destruct fuel; cbn [bufferedIterator.read_rest];
    replace (len line <? lineSize) with false by (symmetry; apply Z.ltb_ge; lia);
    reflexivity.
Qed.

Lemma Read_line (line rest : list byte) (e : error) :
  bufio.Read (mkStream (line ++ rest) e) (len line) = (line, None, mkStream rest e).
Proof.
  unfold bufio.Read. destruct line as [|c line].
  - reflexivity.
  - replace (len (c :: line) <=? 0) with false
      by (symmetry; apply Z.leb_gt; unfold len; simpl length; lia).
    cbn [rs_data rs_end app].
    change (c :: line ++ rest) with ((c :: line) ++ rest).
    rewrite firstn_len_app, skipn_len_app. reflexivity.
Qed.

(** [moveNext] before a serialised entry reads the entry. *)
Lemma moveNext_entry (fuel : nat) (si : bufferedIterator) (e : entry) (rest : list byte) :
  bufferedIterator.bufReader si
    = Some (mkStream (headBlock.serialise_entry e ++ rest) EOF) ->
  entry_valid e ->
  exists si' : bufferedIterator,
    bufferedIterator.moveNext fuel si = Ret (entry.t e, entry.s e, true, si') /\
    bufferedIterator.bufReader si' = Some (mkStream rest EOF) /\
    bufferedIterator.closed si' = bufferedIterator.closed si /\
    bufferedIterator.err si' = bufferedIterator.err si /\
    bufferedIterator.reader si' = bufferedIterator.reader si.
Proof.
  intros Hb (Ht & Hs).
  pose proof (len_nonneg (entry.s e)) as Hl.
  assert (Hfit : fits_int (len (entry.s e))).
  { unfold fits_int, maxLineLength in *. lia. }
  unfold bufferedIterator.moveNext. rewrite Hb.
  unfold headBlock.serialise_entry. rewrite <- !app_assoc.
  rewrite ReadVarint_PutVarint by exact Ht.
  rewrite ReadUvarint_PutUvarint by apply to_uint64_range.
  cbn [bufferedIterator.not_EOF].
  rewrite to_int_to_uint64 by exact Hfit.
  replace (len (entry.s e) >=? maxLineLength) with false
    by (symmetry; rewrite Z.geb_leb; apply Z.leb_gt; lia).
  set (si1 := bufferedIterator.with_bufReader
                (bufferedIterator.with_bufReader si _) _).
  set (fresh := match bufferedIterator.buf si1 with
                | Some c => len (entry.s e) >? c
                | None => true
                end).
  set (si2 := if fresh
              then bufferedIterator.with_buf si1 (BytesBufferPool_Get (len (entry.s e)))
              else si1).
  assert (Hcap : (fresh && (len (entry.s e) >?
                    match bufferedIterator.buf si2 with Some c => c | None => 0 end))
                 = false).
  { subst si2. destruct fresh; [|reflexivity]. cbn [andb bufferedIterator.with_buf bufferedIterator.buf].
    rewrite Z.gtb_ltb. apply Z.ltb_ge. apply BytesBufferPool_Get_cap. }
  rewrite Hcap.
  replace (len (entry.s e) <? 0) with false by (symmetry; apply Z.ltb_ge; lia).
  rewrite Read_line. cbn [bufferedIterator.not_EOF].
  rewrite read_rest_done by lia. cbn [bind].
  eexists. split; [reflexivity|].
  subst si2 si1. destruct fresh; cbn; auto.
Qed.

(** [moveNext] at the end of the stream stops without an error. *)
Lemma moveNext_end (fuel : nat) (si : bufferedIterator) :
  bufferedIterator.bufReader si = Some (mkStream [] EOF) ->
  exists si' : bufferedIterator,
    bufferedIterator.moveNext fuel si = Ret (0, [], false, si') /\
    bufferedIterator.closed si' = bufferedIterator.closed si /\
    bufferedIterator.err si' = bufferedIterator.err si.
Proof.
  intros Hb. unfold bufferedIterator.moveNext. rewrite Hb.
  cbn. eexists. split; [reflexivity|]. split; reflexivity.
Qed.

Lemma Next_entry (fuel : nat) (si : bufferedIterator) (e : entry) (rest : list byte) :
  ready si (headBlock.serialise_entry e ++ rest) ->
  entry_valid e ->
  exists si' : bufferedIterator,
    bufferedIterator.Next fuel si = Ret (true, si') /\
    ready si' rest /\
    bufferedIterator.currTs si' = entry.t e /\
    bufferedIterator.currLine si' = entry.s e.
Proof.
  intros (Hc & He & Hr) Hv. unfold bufferedIterator.Next. rewrite Hc. cbn [negb andb].
  destruct Hr as [(Hnone & Hpool) | (Hsome & Hbuf)].
  - rewrite Hnone. rewrite Hpool.
    match goal with
    | |- context [bufferedIterator.moveNext fuel ?s] =>
        destruct (@moveNext_entry fuel s e rest eq_refl Hv)
          as (si' & Hm & Hb' & Hc' & He' & Hr')
    end.
    rewrite Hm. cbn [bind negb]. eexists. split; [reflexivity|].
    cbn in Hc', He', Hr'.
    split; [|split; reflexivity].
    split; [cbn; congruence|]. split; [cbn; congruence|].
    right. cbn. split; [congruence|exact Hb'].
  - destruct (bufferedIterator.reader si) eqn:Hrd; [|congruence].
    destruct (@moveNext_entry fuel si e rest Hbuf Hv)
      as (si' & Hm & Hb' & Hc' & He' & Hr').
    rewrite Hm. cbn [bind negb]. eexists. split; [reflexivity|].
    split; [|split; reflexivity].
    split; [cbn; congruence|]. split; [cbn; congruence|].
    right. cbn. split; [congruence|exact Hb'].
Qed.

Lemma Next_end (fuel : nat) (si : bufferedIterator) :
  ready si [] ->
  exists si' : bufferedIterator,
    bufferedIterator.Next fuel si = Ret (false, si') /\
    bufferedIterator.err si' = None.
Proof.
  intros (Hc & He & Hr). unfold bufferedIterator.Next. rewrite Hc. cbn [negb andb].
  destruct Hr as [(Hnone & Hpool) | (Hsome & Hbuf)].
  - rewrite Hnone. rewrite Hpool.
    match goal with
    | |- context [bufferedIterator.moveNext fuel ?s] =>
        destruct (@moveNext_end fuel s eq_refl) as (si' & Hm & Hc' & He')
    end.
    rewrite Hm. cbn [bind negb]. unfold bufferedIterator.Close.
    cbn in Hc', He'. rewrite Hc'. cbn [negb].
    eexists. split; [reflexivity|]. cbn. congruence.
  - destruct (bufferedIterator.reader si) eqn:Hrd; [|congruence].
    destruct (@moveNext_end fuel si Hbuf) as (si' & Hm & Hc' & He').
    rewrite Hm. cbn [bind negb]. unfold bufferedIterator.Close.
    rewrite Hc', Hc. cbn [negb].
    eexists. split; [reflexivity|]. cbn. congruence.
Qed.

Lemma entry_Next_S (fuel : nat) (e : entryBufferedIterator) :
  entryBufferedIterator.Next (S fuel) e
  = ('(ok, si) <- bufferedIterator.Next fuel (entryBufferedIterator.base e) ;;
     if ok then
       let '(newLine, keep) :=
         entryBufferedIterator.pipeline e (bufferedIterator.currLine si) in
       if negb keep
       then entryBufferedIterator.Next fuel
              (entryBufferedIterator.mk si (entryBufferedIterator.pipeline e)
                 (entryBufferedIterator.cur e))
       else Ret (true, entryBufferedIterator.mk si (entryBufferedIterator.pipeline e)
                         (Entry.mk (bufferedIterator.currTs si) newLine))
     else Ret (false, entryBufferedIterator.mk si (entryBufferedIterator.pipeline e)
                        (entryBufferedIterator.cur e))).
Proof. reflexivity. Qed.

Lemma drain_S (fuel : nat) (e : entryBufferedIterator) :
  entryBufferedIterator.drain (S fuel) e
  = ('(ok, e) <- entryBufferedIterator.Next fuel e ;;
     if ok then
       '(out, err) <- entryBufferedIterator.drain fuel e ;;
       Ret (entryBufferedIterator.Entry e :: out, err)
     else Ret ([], entryBufferedIterator.Error e)).
Proof. reflexivity. Qed.

(** Reading a block of serialised entries to its end yields the entries. *)
Lemma drain_entries (es : list entry) :
  forall (fuel : nat) (it : entryBufferedIterator),
    ready (entryBufferedIterator.base it) (flat_map headBlock.serialise_entry es) ->
    entryBufferedIterator.pipeline it = NoopPipeline ->
    Forall entry_valid es ->
    (length es + 2 <= fuel)%nat ->
    entryBufferedIterator.drain fuel it = Ret (map to_Entry es, None).
Proof.
  induction es as [|e es IH]; intros fuel it Hr Hp Hv Hfuel.
  - destruct fuel as [|[|fuel]]; [simpl in Hfuel; lia|simpl in Hfuel; lia|].
    rewrite drain_S, entry_Next_S.
    destruct (@Next_end fuel _ Hr) as (si' & Hn & He).
    rewrite Hn. cbn [bind]. unfold entryBufferedIterator.Error, bufferedIterator.Error.
    cbn [entryBufferedIterator.base]. rewrite He. reflexivity.
  - inversion Hv as [|? ? Hve Hves]; subst.
    destruct fuel as [|[|fuel]]; [simpl in Hfuel; lia|simpl in Hfuel; lia|].
    rewrite drain_S, entry_Next_S.
    cbn [flat_map] in Hr.
    destruct (@Next_entry fuel _ e _ Hr Hve) as (si' & Hn & Hr' & Hts & Hline).
    rewrite Hn. cbn [bind]. rewrite Hp. unfold NoopPipeline at 1. cbn [negb bind].
    rewrite (IH (S fuel)).
    + cbn [bind entryBufferedIterator.Entry entryBufferedIterator.cur map].
      rewrite Hts, Hline. reflexivity.
    + exact Hr'.
    + reflexivity.
    + exact Hves.
    + simpl in Hfuel. lia.
Qed.

End Iterating.

(* ================================================================= *)
(** ** Building a chunk *)

Section Building.
Context `{Pools}.

Lemma serialise_entry_nonempty (e : entry) : headBlock.serialise_entry e <> [].
Proof.
  unfold headBlock.serialise_entry, binary.PutVarint.
  pose proof (len_PutUvarint_loop 9 (binary.zigzag (entry.t e))) as Hl.
  fold (binary.PutUvarint (binary.zigzag (entry.t e))) in Hl.
  destruct (binary.PutUvarint (binary.zigzag (entry.t e))); [|discriminate].
  unfold len in Hl. simpl in Hl. lia.
Qed.

Lemma inBuf_nonempty (hb : headBlock) :
  headBlock.isEmpty hb = false -> headBlock.inBuf hb <> [].
Proof.
  intros He. apply isEmpty_false in He. unfold headBlock.inBuf.
  destruct (headBlock.entries hb) as [|e es]; [congruence|].
  cbn [flat_map]. pose proof (serialise_entry_nonempty e).
  destruct (headBlock.serialise_entry e); [congruence|discriminate].
Qed.

Lemma len_concat_le (ess : list (list entry)) (rest : list entry) (P : list Entry) :
  map to_Entry (concat ess ++ rest) = P -> len rest <= len P.
Proof.
  intros <-. unfold len. rewrite length_map, length_app. lia.
Qed.

Lemma holds_cut (lo hi : Z) (c : MemChunk) (P : list Entry) :
  supported (MemChunk.encoding c) ->
  holds lo hi c P ->
  fits_int (len P) ->
  exists c' : MemChunk,
    MemChunk.cut c = (c', None) /\
    holds lo hi c' P /\
    headBlock.isEmpty (MemChunk.head c') = true /\
    MemChunk.encoding c' = MemChunk.encoding c /\
    MemChunk.format c' = MemChunk.format c /\
    (forall T, below c T -> below c' T).
Proof.
  intros Hsup Hh HP.
  destruct (headBlock.isEmpty (MemChunk.head c)) eqn:He.
  - exists c. rewrite cut_empty by exact He. auto 10.
  - destruct Hh as (ess & Hbs & Hmap & Hval & Hz & Hne).
    destruct (Hne He) as (Hfmin & Hfmax & Hmin & Hmax).
    destruct (Hsup (headBlock.inBuf (MemChunk.head c))) as (out & Hw & Hout & Hrd).
    assert (Hser : headBlock.serialise (MemChunk.head c)
                     (getWriterPool (MemChunk.encoding c)) = (out, None)).
    { unfold headBlock.serialise. rewrite Hw. reflexivity. }
    eexists. split; [apply cut_serialised; [exact He|exact Hser]|].
    cbn [MemChunk.head MemChunk.encoding MemChunk.format MemChunk.blocks].
    split; [|split; [reflexivity|split; [reflexivity|split; [reflexivity|]]]].
    + exists (ess ++ [headBlock.entries (MemChunk.head c)]).
      cbn [MemChunk.head MemChunk.encoding MemChunk.blocks headBlock.entries
             headBlock.mint headBlock.isEmpty].
      split; [|split; [|split; [constructor|split; [reflexivity|]]]].
      * apply Forall2_app; [exact Hbs|]. constructor; [|constructor].
        unfold block_good. cbn [block.b block.numEntries block.mint block.maxt].
        split; [exact Hval|]. split; [apply Hout, inBuf_nonempty, He|].
        split; [exact Hrd|].
        split.
        { pose proof (len_concat_le _ _ Hmap). pose proof (len_nonneg (headBlock.entries (MemChunk.head c))).
          unfold fits_int in *. lia. }
        auto.
      * rewrite concat_app. cbn [concat]. rewrite !app_nil_r. exact Hmap.
      * intros Hf. discriminate.
    + intros T (Hb1 & Hb2). split.
      * intros Hf. discriminate.
      * intros _ _. unfold MemChunk.last_block. cbn [MemChunk.blocks].
        rewrite last_last. cbn [block.maxt]. apply Hb1, He.
Qed.

Lemma holds_Append (lo hi : Z) (c : MemChunk) (P : list Entry) (e : Entry) (T : Z) :
  supported (MemChunk.encoding c) ->
  holds lo hi c P ->
  below c T ->
  T <= Entry.Timestamp e ->
  Entry_valid lo hi e ->
  fits_int (len (P ++ [e])) ->
  exists c' : MemChunk,
    MemChunk.Append c e = (c', None) /\
    holds lo hi c' (P ++ [e]) /\
    below c' (Entry.Timestamp e) /\
    MemChunk.encoding c' = MemChunk.encoding c /\
    MemChunk.format c' = MemChunk.format c.
Proof.
  intros Hsup Hh (Hb1 & Hb2) HT (Hfit & Hline & Hwin) HP.
  pose proof Hh as (ess & Hbs & Hmap & Hval & Hz & Hne).
  unfold MemChunk.Append.
  (* the comparison with the last block *)
  assert (Hpre : headBlock.isEmpty (MemChunk.head c) && (len (MemChunk.blocks c) >? 0)
                 && (block.maxt (MemChunk.last_block c) >? Entry.Timestamp e) = false).
  { destruct (headBlock.isEmpty (MemChunk.head c)) eqn:He; [|reflexivity].
    destruct (len (MemChunk.blocks c) >? 0) eqn:Hl; [|reflexivity].
    cbn [andb]. rewrite Z.gtb_ltb. apply Z.ltb_ge.
    assert (Hbne : MemChunk.blocks c <> []).
    { intros Hnil. rewrite Hnil in Hl. discriminate. }
    specialize (Hb2 eq_refl Hbne). lia. }
  rewrite Hpre.
  (* the comparison within the head *)
  assert (Hhead : negb (headBlock.isEmpty (MemChunk.head c))
                  && (headBlock.maxt (MemChunk.head c) >? Entry.Timestamp e) = false).
  { destruct (headBlock.isEmpty (MemChunk.head c)) eqn:He; [reflexivity|].
    cbn [negb andb]. rewrite Z.gtb_ltb. apply Z.ltb_ge. specialize (Hb1 eq_refl). lia. }
  unfold headBlock.append. rewrite Hhead.
  set (h := headBlock.mk _ _ _ _).
  set (c0 := MemChunk.with_head c h).
  assert (Hh0 : holds lo hi c0 (P ++ [e])).
  { exists ess. subst c0 h.
    cbn [MemChunk.with_head MemChunk.encoding MemChunk.blocks MemChunk.head
           headBlock.entries headBlock.mint headBlock.maxt].
    split; [exact Hbs|]. split.
    { rewrite app_assoc, map_app, Hmap. destruct e; reflexivity. }
    split.
    { apply Forall_app. split; [exact Hval|]. constructor; [|constructor].
      split; assumption. }
    split.
    { intros Hemp. apply isEmpty_true in Hemp. cbn in Hemp.
      destruct (headBlock.entries (MemChunk.head c)); discriminate. }
    intros _.
    destruct (headBlock.isEmpty (MemChunk.head c)) eqn:He.
    - rewrite (Hz eq_refl). cbn. unfold fits_int in *. lia.
    - destruct (Hne eq_refl) as (Hfmin & Hfmax & Hmin & Hmax).
      destruct ((headBlock.mint (MemChunk.head c) =? 0)
                || (headBlock.mint (MemChunk.head c) >? Entry.Timestamp e));
        unfold fits_int in *; lia. }
  assert (Hb0 : below c0 (Entry.Timestamp e)).
  { subst c0 h. split.
    - intros _. cbn. lia.
    - intros Hemp. apply isEmpty_true in Hemp. cbn in Hemp.
      destruct (headBlock.entries (MemChunk.head c)); discriminate. }
  destruct (headBlock.size (MemChunk.head c0) >=? MemChunk.blockSize c0).
  - destruct (@holds_cut lo hi c0 (P ++ [e]) Hsup Hh0 HP)
      as (c' & Hcut & Hh' & _ & Henc & Hfmt & Hbelow).
    exists c'. split; [exact Hcut|]. split; [exact Hh'|].
    split; [apply Hbelow, Hb0|]. split; assumption.
  - exists c0. auto.
Qed.

Lemma holds_appendAll (lo hi : Z) (E : list Entry) :
  forall (c : MemChunk) (P : list Entry) (T : Z),
    supported (MemChunk.encoding c) ->
    holds lo hi c P ->
    below c T ->
    in_order_from T E ->
    Forall (Entry_valid lo hi) E ->
    fits_int (len (P ++ E)) ->
    exists c' : MemChunk,
      appendAll c E = (c', map (fun _ => None) E) /\
      holds lo hi c' (P ++ E) /\
      MemChunk.encoding c' = MemChunk.encoding c /\
      MemChunk.format c' = MemChunk.format c.
Proof.
  induction E as [|e E IH]; intros c P T Hsup Hh Hb Hord Hval Hfit.
  - exists c. rewrite app_nil_r. cbn. auto.
  - destruct Hord as (HT & Hord). inversion Hval as [|? ? Hve Hves]; subst.
    assert (Hfit1 : fits_int (len (P ++ [e]))).
    { unfold fits_int in *. rewrite !len_app in *.
      pose proof (len_nonneg P). pose proof (len_nonneg E).
      unfold len in *. simpl length in *. lia. }
    destruct (@holds_Append lo hi c P e T Hsup Hh Hb HT Hve Hfit1)
      as (c1 & Ha & Hh1 & Hb1 & Henc & Hfmt).
    assert (Hsup1 : supported (MemChunk.encoding c1)) by (rewrite Henc; exact Hsup).
    assert (Hfit2 : fits_int (len ((P ++ [e]) ++ E))).
    { rewrite <- app_assoc. exact Hfit. }
    destruct (IH c1 (P ++ [e]) (Entry.Timestamp e) Hsup1 Hh1 Hb1 Hord Hves Hfit2)
      as (c' & Hall & Hh' & Henc' & Hfmt').
    exists c'. cbn [appendAll]. rewrite Ha, Hall. cbn [map].
    rewrite <- app_assoc in Hh'. split; [reflexivity|]. split; [exact Hh'|].
    split; congruence.
Qed.

End Building.

(* ================================================================= *)
(** ** The round trip *)

Section RoundTrip.
Context `{Pools}.

Lemma write_blocks_buf (bs : list block) :
  forall (buf : list byte) (off : Z),
    snd (fst (MemChunk.write_blocks bs buf off))
    = buf ++ flat_map stored_image (map with_checksum bs).
Proof.
  induction bs as [|blk bs IH]; intros buf off.
  - cbn. rewrite app_nil_r. reflexivity.
  - cbn [MemChunk.write_blocks map flat_map].
    specialize (IH (buf ++ encbuf.get (encbuf.putHash (encbuf.putBytes (encbuf.reset []) (block.b blk))))
                   (int_add off (len (encbuf.get (encbuf.putHash (encbuf.putBytes (encbuf.reset []) (block.b blk))))))).
    destruct (MemChunk.write_blocks bs _ _) as [[bs' buf'] off'].
    cbn [fst snd] in *. rewrite IH, <- app_assoc. reflexivity.
Qed.

Lemma Bytes_len_lower (c c1 : MemChunk) :
  MemChunk.cut c = (c1, None) ->
  len (header_bytes (MemChunk.format c1) (MemChunk.encoding c1))
  + len (flat_map stored_image (map with_checksum (MemChunk.blocks c1)))
  <= len (fst (snd (MemChunk.Bytes c))).
Proof.
  intros Hcut. unfold MemChunk.Bytes. rewrite Hcut.
  rewrite write_header_bytes. unfold encbuf.get.
  pose proof (write_blocks_buf (MemChunk.blocks c1)
                (header_bytes (MemChunk.format c1) (MemChunk.encoding c1))
                (int_add 0 (len (header_bytes (MemChunk.format c1) (MemChunk.encoding c1)))))
    as Hbuf.
  destruct (MemChunk.write_blocks _ _ _) as [[bs' buf'] off'].
  cbn [fst snd] in *. subst buf'.
  rewrite !len_app.
  match goal with |- _ <= _ + _ + len ?m + len ?o =>
    pose proof (len_nonneg m); pose proof (len_nonneg o) end.
  lia.
Qed.

Lemma block_good_as_parsed (enc : Encoding) (lo hi : Z) (blk : block)
      (es : list entry) (o : Z) :
  block_good enc lo hi blk es ->
  block_good enc lo hi (as_parsed (block.with_offset blk o)) es.
Proof. intros Hg. exact Hg. Qed.

Lemma blocks_good_parsed (enc : Encoding) (lo hi : Z) (bs : list block)
      (ess : list (list entry)) :
  Forall2 (block_good enc lo hi) bs ess ->
  forall off, Forall2 (block_good enc lo hi) (map as_parsed (assign_offsets bs off)) ess.
Proof.
  induction 1 as [|blk es bs ess Hg Hrest IH]; intros off; [constructor|].
  cbn [assign_offsets map]. constructor; [|apply IH].
  apply block_good_as_parsed. exact Hg.
Qed.

Lemma blocks_good_stored_ok (enc : Encoding) (lo hi : Z) (bs : list block)
      (ess : list (list entry)) :
  Forall2 (block_good enc lo hi) bs ess ->
  forall off, Forall stored_ok (map with_checksum (assign_offsets bs off)).
Proof.
  induction 1 as [|blk es bs ess Hg Hrest IH]; intros off; [constructor|].
  cbn [assign_offsets map]. constructor; [|apply IH].
  destruct Hg as (_ & _ & _ & Hn & Hmin & Hmax & _).
  unfold stored_ok. cbn. split; [exact Hn|]. split; [exact Hmin|]. split; [exact Hmax|].
  apply Checksum_range.
Qed.

(** The iterator of a good block yields the entries of the block. *)
Lemma encBlock_Iterator_good (fuel : nat) (st : ChunkData) (enc : Encoding)
      (lo hi : Z) (blk : block) (es : list entry) :
  block_good enc lo hi blk es ->
  (length es + 2 <= fuel)%nat ->
  encBlock.Iterator fuel st enc blk NoopPipeline = Ret (map to_Entry es, None).
Proof.
  intros (Hval & Hne & Hrd & _) Hfuel. unfold encBlock.Iterator.
  replace (len (block.b blk) =? 0) with false.
  2:{ symmetry. apply Z.eqb_neq. intros Hl.
      apply Hne. apply len_nil_iff. apply Z.eqb_eq. exact Hl. }
  apply drain_entries; try assumption.
  - unfold ready. cbn. split; [reflexivity|]. split; [reflexivity|].
    left. split; [reflexivity|exact Hrd].
  - reflexivity.
Qed.

Lemma block_iterators_good (fuel : nat) (st : ChunkData) (enc : Encoding) (lo hi : Z)
      (bs : list block) (ess : list (list entry)) :
  Forall2 (block_good enc lo hi) bs ess ->
  (length (concat ess) + 2 <= fuel)%nat ->
  ChunkIterator.block_iterators fuel st enc bs lo hi NoopPipeline
  = Ret (map (fun es => (map to_Entry es, @None error)) ess).
Proof.
  induction 1 as [|blk es bs ess Hg Hrest IH]; intros Hfuel; [reflexivity|].
  cbn [concat] in Hfuel. rewrite length_app in Hfuel.
  cbn [ChunkIterator.block_iterators].
  pose proof Hg as (_ & _ & _ & _ & _ & _ & Hmin & Hmax).
  replace ((hi <? block.mint blk) || (block.maxt blk <? lo)) with false.
  2:{ symmetry. apply orb_false_iff. split; apply Z.ltb_ge; lia. }
  rewrite (encBlock_Iterator_good st Hg) by lia. cbn [bind].
  rewrite IH by lia. reflexivity.
Qed.

Lemma NonOverlapping_blocks (ess : list (list entry)) :
  iter.NewNonOverlappingIterator (map (fun es => (map to_Entry es, @None error)) ess)
  = (map to_Entry (concat ess), None).
Proof.
  unfold iter.NewNonOverlappingIterator.
  induction ess as [|es ess IH]; [reflexivity|].
  cbn [map fold_right concat]. rewrite IH. cbn [fst snd iter.first_error].
  rewrite map_app. reflexivity.
Qed.

Lemma TimeRanged_all (lo hi : Z) (E : list Entry) (err : option error) :
  Forall (Entry_valid lo hi) E ->
  iter.NewTimeRangedIterator (E, err) lo hi = (E, err).
Proof.
  intros Hv. unfold iter.NewTimeRangedIterator. cbn [fst snd]. f_equal.
  induction Hv as [|e E (_ & _ & Hw) Hrest IH]; [reflexivity|].
  cbn [filter].
  replace ((lo <=? Entry.Timestamp e) && (Entry.Timestamp e <=? hi)) with true
    by (symmetry; apply andb_true_iff; split; apply Z.leb_le; lia).
  rewrite IH. reflexivity.
Qed.

Lemma in_order_from_first (E : list Entry) (e : Entry) :
  in_order (e :: E) -> in_order_from (Entry.Timestamp e) (e :: E).
Proof. intros Ho. cbn. split; [lia|exact Ho]. Qed.

Lemma holds_new (lo hi : Z) (enc : Encoding) (blockSize targetSize : Z) :
  holds lo hi (MemChunk.NewMemChunk enc blockSize targetSize) [].
Proof.
  exists []. cbn. split; [constructor|]. split; [reflexivity|]. split; [constructor|].
  split; [reflexivity|]. intros Hf. discriminate.
Qed.

Lemma below_new (enc : Encoding) (blockSize targetSize T : Z) :
  below (MemChunk.NewMemChunk enc blockSize targetSize) T.
Proof.
  split.
  - intros Hf. discriminate.
  - intros _ Hne. cbn in Hne. congruence.
Qed.

End RoundTrip.

(** C3. In a file laid out as [Bytes] lays it out, with any bytes for the
    blocks and for the metadata: when the checksum stored after the
    metadata is not the checksum of the metadata, [NewByteChunk] returns
    [ErrInvalidChecksum] and no chunk.  When the metadata are sound, whatever
    the payloads and the checksums stored after them, [NewByteChunk]
    succeeds; the chunk has exactly the blocks whose stored checksum is the
    checksum of their payload, in their order, and one event is logged for
    each of the others. *)
Theorem NewByteChunk_checksums (format : Z) (enc : Encoding) (body metas : list byte)
        (mcrc : Z) (ps : list stored) (blockSize targetSize : Z) :
  format = chunkFormatV1 \/ format = chunkFormatV2 ->
  0 <= enc < 256 ->
  (0 <= mcrc < 2 ^ 32 ->
   fits_int (len (chunk_file format enc body metas mcrc)) ->
   mcrc <> crc32.Checksum metas ->
   MemChunk.NewByteChunk (chunk_file format enc body metas mcrc) blockSize targetSize
   = Ret (inr ErrInvalidChecksum, []))
  /\
  (Forall stored_ok ps ->
   laid_out ps (len (header_bytes format enc)) ->
   len (blocks_file format enc ps) < 2 ^ 44 ->
   MemChunk.NewByteChunk (blocks_file format enc ps) blockSize targetSize
   = Ret (inl (MemChunk.mk blockSize targetSize (verified ps)
                 (payload_total (verified ps)) headBlock.zero format
                 (if format =? chunkFormatV2 then enc else EncGZIP)),
          skipped ps 0)).
Proof.
  intros Hf He. split.
  - intros Hm Hfit Hne. rewrite NewByteChunk_footer by assumption.
    replace (mcrc =? crc32.Checksum metas) with false
      by (symmetry; apply Z.eqb_neq; exact Hne).
    reflexivity.
  - intros Hok Hlay Hsize. apply NewByteChunk_blocks_file; assumption.
Qed.

Section RoundTripTheorem.
Context `{Pools}.

(** C1, for lines the iterator accepts.  Entries in order, each with a
    line shorter than 2^30 bytes, are appended to a new chunk of a supported
    encoding; the chunk is serialised with [Bytes] and parsed with
    [NewByteChunk].  Every [Append] succeeds, [Bytes] and the parser
    succeed, no block is skipped, and the iterator of the parsed chunk over
    a window that covers the entries yields exactly the entries, in their
    order.  The sizes are those Go can hold: the entries fit in a slice and
    the serialised chunk is shorter than 2^44 bytes. *)
Theorem round_trip (enc : Encoding) (blockSize targetSize blockSize' targetSize' : Z)
        (lo hi : Z) (E : list Entry) (fuel : nat) :
  supported enc ->
  0 <= enc < 256 ->
  in_order E ->
  Forall (Entry_valid lo hi) E ->
  fits_int (len E) ->
  len (fst (snd (MemChunk.Bytes
                   (fst (appendAll (MemChunk.NewMemChunk enc blockSize targetSize) E)))))
    < 2 ^ 44 ->
  (length E + 2 <= fuel)%nat ->
  exists (c c1 c2 : MemChunk) (b : list byte),
    appendAll (MemChunk.NewMemChunk enc blockSize targetSize) E
      = (c, map (fun _ => None) E) /\
    MemChunk.Bytes c = (c1, (b, None)) /\
    MemChunk.NewByteChunk b blockSize' targetSize' = Ret (inl c2, []) /\
    ChunkIterator.Iterator fuel stats0 c2 lo hi FORWARD NoopPipeline = Ret (E, None).
Proof.
  intros Hsup Henc Hord Hval HlenE Hsize Hfuel.
  set (c0 := MemChunk.NewMemChunk enc blockSize targetSize) in *.
  assert (Hfrom : exists T, in_order_from T E).
  { destruct E as [|e E']; [exists 0; exact I|].
    exists (Entry.Timestamp e). apply in_order_from_first. exact Hord. }
  destruct Hfrom as (T & Hfrom).
  destruct (@holds_appendAll _ lo hi E c0 [] T Hsup (holds_new lo hi enc blockSize targetSize)
              (below_new enc blockSize targetSize T) Hfrom Hval HlenE)
    as (c & Hall & Hh & Hcenc & Hcfmt).
  cbn [app] in Hh. cbn [c0 MemChunk.NewMemChunk MemChunk.encoding MemChunk.format] in Hcenc, Hcfmt.
  rewrite Hall in Hsize. cbn [fst] in Hsize.
  assert (Hsupc : supported (MemChunk.encoding c)) by (rewrite Hcenc; exact Hsup).
  destruct (@holds_cut _ lo hi c E Hsupc Hh HlenE)
    as (c1 & Hcut & Hh1 & Hemp & Henc1 & Hfmt1 & _).
  pose proof (Bytes_len_lower c Hcut) as Hlow.
  set (off := len (header_bytes (MemChunk.format c1) (MemChunk.encoding c1))) in *.
  set (bs := assign_offsets (MemChunk.blocks c1) off).
  assert (Hfit : fits_int (off + len (flat_map stored_image
                                        (map with_checksum (MemChunk.blocks c1))))).
  { pose proof (len_nonneg (header_bytes (MemChunk.format c1) (MemChunk.encoding c1))).
    pose proof (len_nonneg (flat_map stored_image (map with_checksum (MemChunk.blocks c1)))).
    unfold fits_int. subst off. lia. }
  pose proof (Bytes_layout c Hcut Hfit) as Hbytes. fold off in Hbytes. fold bs in Hbytes.
  rewrite Hbytes in Hsize. cbn [fst snd] in Hsize.
  assert (Hfmt : MemChunk.format c1 = chunkFormatV2) by congruence.
  assert (Henc' : MemChunk.encoding c1 = enc) by congruence.
  destruct Hh1 as (ess & Hgood & Hmap & _ & _ & _).
  apply isEmpty_true in Hemp. rewrite Hemp, app_nil_r in Hmap.
  rewrite Henc' in Hgood.
  pose proof (@NewByteChunk_blocks_file (MemChunk.format c1) (MemChunk.encoding c1)
                (map with_checksum bs) blockSize' targetSize'
                (or_intror Hfmt) ltac:(rewrite Henc'; exact Henc)
                (blocks_good_stored_ok Hgood off) (laid_out_assigned _ off) Hsize)
    as Hparse.
  rewrite verified_with_checksum, skipped_with_checksum in Hparse.
  rewrite Hfmt, Henc' in Hparse. change (chunkFormatV2 =? chunkFormatV2) with true in Hparse.
  cbv iota in Hparse.
  eexists c, _, _, _. split; [exact Hall|]. split; [exact Hbytes|].
  split; [rewrite Hfmt, Henc'; exact Hparse|].
  unfold ChunkIterator.Iterator.
  cbn [MemChunk.encoding MemChunk.blocks MemChunk.head].
  assert (Hlen : length (concat ess) = length E).
  { rewrite <- Hmap. rewrite length_map. reflexivity. }
  rewrite (block_iterators_good stats0 (blocks_good_parsed Hgood off)) by lia.
  cbn [bind]. change (headBlock.isEmpty headBlock.zero) with true. cbn [negb].
  rewrite NonOverlapping_blocks, Hmap. rewrite TimeRanged_all by exact Hval.
  reflexivity.
Qed.

End RoundTripTheorem.

Lemma nonePools_supported (enc : Encoding) : @supported nonePools enc.
Proof.
  intros inBuf. exists inBuf. split; [reflexivity|]. split; [auto|reflexivity].
Qed.

(** The round trip of scenario S2, through the theorem. *)
Lemma round_trip_witness :
  exists (c c1 c2 : MemChunk) (b : list byte),
    @appendAll nonePools (MemChunk.NewMemChunk EncNone 4 0) entries_S2
      = (c, map (fun _ => None) entries_S2) /\
    @MemChunk.Bytes nonePools c = (c1, (b, None)) /\
    MemChunk.NewByteChunk b 4 0 = Ret (inl c2, []) /\
    @ChunkIterator.Iterator nonePools 5 stats0 c2 0 10 FORWARD NoopPipeline
      = Ret (entries_S2, None).
Proof.
  apply (@round_trip nonePools EncNone 4 0 4 0 0 10 entries_S2 5%nat).
  - apply nonePools_supported.
  - unfold EncNone. lia.
  - cbn. lia.
  - repeat (apply Forall_cons || apply Forall_nil);
      vm_compute; repeat split; try reflexivity; intros Hx; discriminate Hx.
  - fits_int_closed.
  - vm_compute. reflexivity.
  - vm_compute. lia.
Defined.

(* ================================================================= *)
(** ** A line of 2^30 bytes *)

Lemma len_one_entry_payload (l : list byte) :
  len l = 2 ^ 30 -> len (one_entry_payload 1 l) = 2 ^ 30 + 6.
Proof.
  intros Hl. unfold one_entry_payload, headBlock.serialise_entry.
  cbn [entry.t entry.s]. rewrite !len_app, Hl. reflexivity.
Qed.

Lemma Append_long_line (l : list byte) :
  len l = 2 ^ 30 ->
  @MemChunk.Append nonePools (MemChunk.NewMemChunk EncNone 256 0) (Entry.mk 1 l)
  = (MemChunk.mk 256 0 [one_entry_block l]
       (2 ^ 30 + 6) (headBlock.mk [] 0 0 1) chunkFormatV2 EncNone,
     None).
Proof.
  intros Hl.
  assert (Hsz : int_add 0 (len l) = 2 ^ 30) by (rewrite Hl; reflexivity).
  assert (Ha : headBlock.append headBlock.zero 1 l
               = (headBlock.mk [entry.mk 1 l] (2 ^ 30) 1 1, None)).
  { unfold headBlock.append, headBlock.zero.
    cbn [headBlock.entries headBlock.size headBlock.mint headBlock.maxt app].
    rewrite Hsz. reflexivity. }
  unfold MemChunk.Append.
  change (MemChunk.head (MemChunk.NewMemChunk EncNone 256 0)) with headBlock.zero.
  cbn [Entry.Timestamp Entry.Line]. rewrite Ha.
  change (headBlock.isEmpty headBlock.zero && (len (MemChunk.blocks (MemChunk.NewMemChunk EncNone 256 0)) >? 0)
          && (block.maxt (MemChunk.last_block (MemChunk.NewMemChunk EncNone 256 0)) >? 1))
    with false.
  cbv iota.
  set (c := MemChunk.with_head (MemChunk.NewMemChunk EncNone 256 0)
              (headBlock.mk [entry.mk 1 l] (2 ^ 30) 1 1)).
  change (headBlock.size (MemChunk.head c) >=? MemChunk.blockSize c) with true.
  cbv iota.
  assert (Hser : headBlock.serialise (MemChunk.head c)
                   (@getWriterPool nonePools (MemChunk.encoding c))
                 = (one_entry_payload 1 l, None)) by reflexivity.
  rewrite (@cut_serialised nonePools c (one_entry_payload 1 l) eq_refl Hser).
  rewrite len_one_entry_payload by exact Hl.
  reflexivity.
Qed.

Lemma Bytes_long_line (l : list byte) :
  len l = 2 ^ 30 ->
  @MemChunk.Bytes nonePools (one_entry_chunk l)
  = (MemChunk.with_blocks (one_entry_chunk l) [block.with_offset (one_entry_block l) 6],
     (blocks_file chunkFormatV2 EncNone
        [with_checksum (block.with_offset (one_entry_block l) 6)], None)).
Proof.
  intros Hl.
  assert (Hcut : @MemChunk.cut nonePools (one_entry_chunk l) = (one_entry_chunk l, None))
    by reflexivity.
  rewrite (@Bytes_layout nonePools _ _ Hcut); [reflexivity|].
  cbn [one_entry_chunk MemChunk.format MemChunk.encoding MemChunk.blocks map flat_map].
  rewrite app_nil_r, len_stored_image.
  cbn [with_checksum fst one_entry_block block.b].
  rewrite len_one_entry_payload by exact Hl.
  fits_int_closed.
Qed.

Lemma NewByteChunk_long_line (l : list byte) :
  len l = 2 ^ 30 ->
  MemChunk.NewByteChunk
    (blocks_file chunkFormatV2 EncNone
       [with_checksum (block.with_offset (one_entry_block l) 6)]) 256 0
  = Ret (inl (MemChunk.mk 256 0 [as_parsed (block.with_offset (one_entry_block l) 6)]
                (2 ^ 30 + 6) headBlock.zero chunkFormatV2 EncNone),
         []).
Proof.
  intros Hl.
  rewrite NewByteChunk_blocks_file.
  - change [with_checksum (block.with_offset (one_entry_block l) 6)]
      with (map with_checksum [block.with_offset (one_entry_block l) 6]).
    rewrite verified_with_checksum, skipped_with_checksum.
    cbn [map payload_total fold_right as_parsed block.b block.with_offset one_entry_block].
    rewrite len_one_entry_payload by exact Hl. reflexivity.
  - right. reflexivity.
  - unfold EncNone. lia.
  - constructor; [|constructor]. unfold stored_ok.
    cbn [with_checksum fst snd block.with_offset one_entry_block block.numEntries
           block.mint block.maxt block.b].
    split; [fits_int_closed|]. split; [fits_int_closed|]. split; [fits_int_closed|].
    apply Checksum_range.
  - cbn [laid_out with_checksum fst block.with_offset block.offset]. split; [reflexivity|exact I].
  - unfold blocks_file, chunk_file, metas_bytes, meta_bytes.
    cbn [map flat_map fst with_checksum block.with_offset one_entry_block block.b
           block.numEntries block.mint block.maxt block.offset].
    rewrite !app_nil_r, !len_app, len_stored_image.
    cbn [with_checksum fst block.with_offset one_entry_block block.b].
    rewrite !len_one_entry_payload by exact Hl.
    vm_compute. reflexivity.
Qed.

Lemma Iterator_long_line (l : list byte) (fuel : nat) :
  len l = 2 ^ 30 ->
  @ChunkIterator.Iterator nonePools (S (S (S fuel))) stats0
    (MemChunk.mk 256 0 [as_parsed (block.with_offset (one_entry_block l) 6)]
       (2 ^ 30 + 6) headBlock.zero chunkFormatV2 EncNone)
    0 10 FORWARD NoopPipeline
  = Ret ([], Some (ErrLineTooLong (2 ^ 30))).
Proof.
  intros Hl. unfold ChunkIterator.Iterator.
  cbn [MemChunk.encoding MemChunk.blocks MemChunk.head ChunkIterator.block_iterators].
  cbn [as_parsed block.with_offset one_entry_block block.b block.mint block.maxt
         block.numEntries block.offset].
  change ((10 <? 1) || (1 <? 0)) with false. cbv iota.
  unfold encBlock.Iterator.
  change (block.b (as_parsed (block.with_offset (one_entry_block l) 6)))
    with (one_entry_payload 1 l).
  rewrite len_one_entry_payload by exact Hl.
  change (2 ^ 30 + 6 =? 0) with false. cbv iota.
  rewrite drain_S, entry_Next_S.
  unfold entryBufferedIterator.newEntryIterator. cbn [entryBufferedIterator.base].
  assert (Hnext :
    @bufferedIterator.Next nonePools (S fuel)
      (bufferedIterator.newBufferedIterator stats0 (@getReaderPool nonePools EncNone)
         (one_entry_payload 1 l))
    = Ret (false,
           bufferedIterator.mk None
             (mkStats (len (one_entry_payload 1 l)) 0 0) None None
             (@getReaderPool nonePools EncNone)
             (Some (ErrLineTooLong (2 ^ 30))) None [] 0 true)).
  { unfold bufferedIterator.Next, bufferedIterator.newBufferedIterator.
    cbn [bufferedIterator.closed bufferedIterator.reader bufferedIterator.origBytes
           bufferedIterator.pool negb andb getReaderPool nonePools].
    unfold bufferedIterator.moveNext. cbn [bufferedIterator.bufReader].
    unfold one_entry_payload at 1 2, headBlock.serialise_entry.
    cbn [entry.t entry.s]. rewrite <- !app_assoc.
    rewrite ReadVarint_PutVarint by fits_int_closed.
    rewrite ReadUvarint_PutUvarint by apply to_uint64_range.
    cbn [bufferedIterator.not_EOF]. rewrite Hl.
    change (to_int (to_uint64 (2 ^ 30)) >=? maxLineLength) with true. cbv iota.
    cbn [bind negb]. reflexivity. }
  rewrite Hnext. cbn [bind].
  reflexivity.
Qed.

(** A line of 2^30 bytes is appended, serialised and parsed, and is not
    read back: the iterator stops with the error "line too long". *)
Lemma long_line_not_read_back (l : list byte) :
  len l = 2 ^ 30 ->
  exists (c c1 c2 : MemChunk) (b : list byte),
    @appendAll nonePools (MemChunk.NewMemChunk EncNone 256 0) [Entry.mk 1 l]
      = (c, [None]) /\
    @MemChunk.Bytes nonePools c = (c1, (b, None)) /\
    MemChunk.NewByteChunk b 256 0 = Ret (inl c2, []) /\
    forall fuel : nat,
      @ChunkIterator.Iterator nonePools (S (S (S fuel))) stats0 c2 0 10 FORWARD NoopPipeline
      = Ret ([], Some (ErrLineTooLong (2 ^ 30))).
Proof.
  intros Hl. eexists _, _, _, _.
  split.
  { cbn [appendAll]. rewrite Append_long_line by exact Hl. reflexivity. }
  split.
  { apply Bytes_long_line. exact Hl. }
  split.
  { apply NewByteChunk_long_line. exact Hl. }
  intros fuel. apply Iterator_long_line. exact Hl.
Qed.

Lemma len_long_line : len long_line = 2 ^ 30.
Proof.
  unfold len, long_line. rewrite repeat_length. apply Z2Nat.id. lia.
Qed.

(** C1 fails, as it is worded, for a line of 2^30 bytes: the entry is
    appended, serialised and parsed without error, and the iterator of the
    parsed chunk yields no entry and the error "line too long". *)
Lemma round_trip_fails_on_long_line :
  exists (c c1 c2 : MemChunk) (b : list byte),
    @appendAll nonePools (MemChunk.NewMemChunk EncNone 256 0) [Entry.mk 1 long_line]
      = (c, [None]) /\
    @MemChunk.Bytes nonePools c = (c1, (b, None)) /\
    MemChunk.NewByteChunk b 256 0 = Ret (inl c2, []) /\
    forall fuel : nat,
      @ChunkIterator.Iterator nonePools (S (S (S fuel))) stats0 c2 0 10 FORWARD NoopPipeline
      = Ret ([], Some (ErrLineTooLong (2 ^ 30))).
Proof. exact (@long_line_not_read_back long_line len_long_line). Qed.

(* ================================================================= *)
(** ** Damaged files *)

(** Scenarios S5 and S4, through the theorem: the damaged metadata are
    refused, the damaged block is skipped and the other one kept. *)
Lemma NewByteChunk_checksums_witness :
  MemChunk.NewByteChunk
    (chunk_file chunkFormatV2 EncNone (flat_map stored_image stored_S4) metas_S5
       (crc32.Checksum (metas_bytes (map fst stored_S4)))) 4 0
  = Ret (inr ErrInvalidChecksum, [])
  /\
  MemChunk.NewByteChunk (blocks_file chunkFormatV2 EncNone stored_S4) 4 0
  = Ret (inl (MemChunk.mk 4 0 [block.mk payload_S4_1 1 3 3 18 0] 4 headBlock.zero
                chunkFormatV2 EncNone),
         [BlockSkipped 0 ErrInvalidChecksum]).
Proof.
  destruct (@NewByteChunk_checksums chunkFormatV2 EncNone
              (flat_map stored_image stored_S4) metas_S5
              (crc32.Checksum (metas_bytes (map fst stored_S4)))
              stored_S4 4 0 (or_intror eq_refl))
    as [Hmeta Hblocks].
  - unfold EncNone. lia.
  - split.
    + apply Hmeta.
      * apply Checksum_range.
      * fits_int_closed.
      * vm_compute. intros Hx. discriminate Hx.
    + apply Hblocks.
      * repeat (apply Forall_cons || apply Forall_nil);
          vm_compute; repeat split; try reflexivity; intros Hx; discriminate Hx.
      * vm_compute. auto.
      * vm_compute. reflexivity.
Defined.

(* ================================================================= *)
(** ** Counting entries and bytes *)

Lemma to_int_add_l (x y : Z) : to_int (to_int x + y) = to_int (x + y).
Proof.
  unfold to_int, to_int64.
  replace ((x + 2 ^ 63) mod 2 ^ 64 - 2 ^ 63 + y + 2 ^ 63)
    with ((x + 2 ^ 63) mod 2 ^ 64 + y) by ring.
  rewrite Zplus_mod_idemp_l.
  replace (x + 2 ^ 63 + y) with (x + y + 2 ^ 63) by ring. reflexivity.
Qed.

Lemma to_int_add_r (x y : Z) : to_int (x + to_int y) = to_int (x + y).
Proof. rewrite Z.add_comm, to_int_add_l. f_equal. apply Z.add_comm. Qed.

Lemma to_int_idem (x : Z) : to_int (to_int x) = to_int x.
Proof. apply to_int_fits, to_int_range. Qed.

Lemma to_int_0 : to_int 0 = 0.
Proof. reflexivity. Qed.

Lemma block_total_app (f : block -> Z) (bs1 bs2 : list block) :
  block_total f (bs1 ++ bs2) = block_total f bs1 + block_total f bs2.
Proof.
  induction bs1 as [|blk bs1 IH]; [reflexivity|].
  change (f blk + block_total f (bs1 ++ bs2)
          = (f blk + block_total f bs1) + block_total f bs2).
  rewrite IH. ring.
Qed.

Lemma fold_int_add (f : block -> Z) (bs : list block) :
  forall a : Z,
    fold_left (fun acc blk => int_add acc (f blk)) bs (to_int a)
    = to_int (a + block_total f bs).
Proof.
  induction bs as [|blk bs IH]; intros a.
  - cbn. f_equal. ring.
  - change (fold_left (fun acc b0 => int_add acc (f b0)) bs (int_add (to_int a) (f blk))
            = to_int (a + (f blk + block_total f bs))).
    unfold int_add at 2. rewrite to_int_add_l, IH. f_equal. ring.
Qed.

Lemma fold_int_add_0 (f : block -> Z) (bs : list block) :
  fold_left (fun acc blk => int_add acc (f blk)) bs 0 = to_int (block_total f bs).
Proof. rewrite <- to_int_0 at 1. rewrite fold_int_add. reflexivity. Qed.

Lemma payload_total_block_total (bs : list block) :
  payload_total bs = block_total (fun blk => len (block.b blk)) bs.
Proof. reflexivity. Qed.

Lemma len_is_0 {A : Type} (l : list A) : (len l =? 0) = true -> len l = 0.
Proof. intros Hl. apply Z.eqb_eq in Hl. exact Hl. Qed.

(** [Size], without the loop. *)
Lemma Size_total (c : MemChunk) :
  MemChunk.Size c
  = to_int (block_total block.numEntries (MemChunk.blocks c)
            + len (headBlock.entries (MemChunk.head c))).
Proof.
  unfold MemChunk.Size. rewrite fold_int_add_0.
  destruct (headBlock.isEmpty (MemChunk.head c)) eqn:He; cbn [negb].
  - unfold headBlock.isEmpty in He. apply len_is_0 in He. rewrite He.
    rewrite Z.add_0_r. reflexivity.
  - unfold int_add. rewrite to_int_add_l. reflexivity.
Qed.

(** [UncompressedSize], without the loop, for a head that is reset. *)
Lemma UncompressedSize_total (c : MemChunk) :
  head_reset c ->
  MemChunk.UncompressedSize c
  = to_int (headBlock.size (MemChunk.head c)
            + block_total block.uncompressedSize (MemChunk.blocks c)).
Proof.
  intros Hr. unfold MemChunk.UncompressedSize.
  destruct (headBlock.isEmpty (MemChunk.head c)) eqn:He; cbn [negb].
  - rewrite (Hr He), fold_int_add_0. reflexivity.
  - unfold int_add at 2. rewrite Z.add_0_l, fold_int_add. reflexivity.
Qed.

(** The same for a head that holds entries, whatever its size. *)
Lemma UncompressedSize_total_head (c : MemChunk) :
  headBlock.isEmpty (MemChunk.head c) = false ->
  MemChunk.UncompressedSize c
  = to_int (headBlock.size (MemChunk.head c)
            + block_total block.uncompressedSize (MemChunk.blocks c)).
Proof.
  intros He. apply UncompressedSize_total. intros He'. congruence.
Qed.

Lemma UncompressedSize_total_empty (c : MemChunk) :
  headBlock.isEmpty (MemChunk.head c) = true ->
  MemChunk.UncompressedSize c
  = to_int (block_total block.uncompressedSize (MemChunk.blocks c)).
Proof.
  intros He. unfold MemChunk.UncompressedSize. rewrite He. cbn [negb].
  apply fold_int_add_0.
Qed.

Lemma isEmpty_snoc (es : list entry) (e : entry) (sz mi ma : Z) :
  headBlock.isEmpty (headBlock.mk (es ++ [e]) sz mi ma) = false.
Proof.
  apply isEmpty_false. cbn. intros Hx. destruct es; discriminate Hx.
Qed.

Section Counting.
Context `{Pools}.

Lemma Append_cases (c : MemChunk) (e : Entry) : Append_case c e.
Proof.
  destruct (headBlock.isEmpty (MemChunk.head c) && (len (MemChunk.blocks c) >? 0)
            && (block.maxt (MemChunk.last_block c) >? Entry.Timestamp e)) eqn:Hg.
  - apply Append_refused. unfold MemChunk.Append. rewrite Hg. reflexivity.
  - destruct (headBlock.append (MemChunk.head c) (Entry.Timestamp e) (Entry.Line e))
      as [h [err|]] eqn:Ha.
    + pose proof (head_append_error _ _ _ Ha) as [-> _].
      apply Append_refused. unfold MemChunk.Append. rewrite Hg, Ha. reflexivity.
    + destruct (headBlock.size (MemChunk.head (MemChunk.with_head c h))
                >=? MemChunk.blockSize (MemChunk.with_head c h)) eqn:Hs.
      * apply Append_cut with h; [exact Ha|].
        unfold MemChunk.Append. rewrite Hg, Ha, Hs. reflexivity.
      * apply Append_head with h; [exact Ha|].
        unfold MemChunk.Append. rewrite Hg, Ha, Hs. reflexivity.
Qed.

Lemma cut_cases (c : MemChunk) :
  (headBlock.isEmpty (MemChunk.head c) = true /\ MemChunk.cut c = (c, None))
  \/
  (headBlock.isEmpty (MemChunk.head c) = false /\
   exists e : error, MemChunk.cut c = (c, Some e) /\ e <> ErrOutOfOrder)
  \/
  (headBlock.isEmpty (MemChunk.head c) = false /\
   exists out : list byte,
     MemChunk.cut c =
       (MemChunk.mk (MemChunk.blockSize c) (MemChunk.targetSize c)
          (MemChunk.blocks c ++
             [block.mk out (len (headBlock.entries (MemChunk.head c)))
                (headBlock.mint (MemChunk.head c)) (headBlock.maxt (MemChunk.head c))
                0 (headBlock.size (MemChunk.head c))])
          (int_add (MemChunk.cutBlockSize c) (len out))
          (headBlock.mk [] 0 0 (headBlock.maxt (MemChunk.head c)))
          (MemChunk.format c) (MemChunk.encoding c),
        None)).
Proof.
  destruct (headBlock.isEmpty (MemChunk.head c)) eqn:He.
  - left. split; [reflexivity|]. apply cut_empty. exact He.
  - right.
    destruct (headBlock.serialise (MemChunk.head c) (getWriterPool (MemChunk.encoding c)))
      as [out [e|]] eqn:Hs.
    + left. split; [reflexivity|]. exists e. split.
      * apply cut_failed with out; assumption.
      * apply serialise_error_wrapped with (1 := Hs).
    + right. split; [reflexivity|]. exists out. apply cut_serialised; assumption.
Qed.

Lemma Size_cut (c : MemChunk) :
  MemChunk.Size (fst (MemChunk.cut c)) = MemChunk.Size c.
Proof.
  destruct (cut_cases c) as [[_ ->]|[[_ [e [-> _]]]|[He [out ->]]]];
    [reflexivity|reflexivity|].
  cbn [fst]. rewrite !Size_total. cbn [MemChunk.blocks MemChunk.head headBlock.entries].
  rewrite block_total_app. cbn. f_equal. ring.
Qed.

Lemma UncompressedSize_cut (c : MemChunk) :
  MemChunk.UncompressedSize (fst (MemChunk.cut c)) = MemChunk.UncompressedSize c.
Proof.
  destruct (cut_cases c) as [[_ ->]|[[_ [e [-> _]]]|[He [out ->]]]];
    [reflexivity|reflexivity|].
  cbn [fst]. rewrite UncompressedSize_total_empty by reflexivity.
  rewrite UncompressedSize_total_head by exact He.
  cbn [MemChunk.blocks]. rewrite block_total_app. cbn. f_equal. ring.
Qed.

Lemma not_OutOfOrder (e : error) :
  e <> ErrOutOfOrder -> error_eqb_OutOfOrder (Some e) = false.
Proof. destruct e; intros Hne; try reflexivity. exfalso. apply Hne. reflexivity. Qed.

Lemma cut_not_OutOfOrder (c : MemChunk) :
  error_eqb_OutOfOrder (snd (MemChunk.cut c)) = false.
Proof.
  destruct (MemChunk.cut c) as [c' [e|]] eqn:Hc; [|reflexivity].
  apply not_OutOfOrder. apply cut_error_wrapped with (1 := Hc).
Qed.

(** The blocks keep every field but their offset when [Bytes] lays them out. *)
Lemma write_blocks_map (A : Type) (f : block -> A) :
  (forall (blk : block) (o : Z), f (block.with_offset blk o) = f blk) ->
  forall (bs : list block) (buf : list byte) (off : Z),
    map f (fst (fst (MemChunk.write_blocks bs buf off))) = map f bs.
Proof.
  intros Hf. induction bs as [|blk bs IH]; intros buf off; [reflexivity|].
  cbn [MemChunk.write_blocks].
  specialize (IH (buf ++ encbuf.get (encbuf.putHash
                   (encbuf.putBytes (encbuf.reset []) (block.b blk))))
                 (int_add off (len (encbuf.get (encbuf.putHash
                   (encbuf.putBytes (encbuf.reset []) (block.b blk))))))).
  destruct (MemChunk.write_blocks bs _ _) as [[rest' buf'] off'].
  cbn [fst map] in *. rewrite Hf, IH. reflexivity.
Qed.

Lemma block_total_map (f : block -> Z) (bs bs' : list block) :
  map f bs' = map f bs -> block_total f bs' = block_total f bs.
Proof.
  revert bs'. induction bs as [|blk bs IH]; intros [|blk' bs'] Hm;
    try discriminate Hm; [reflexivity|].
  cbn in Hm. injection Hm as Hh Ht.
  change (f blk' + block_total f bs' = f blk + block_total f bs).
  rewrite Hh, (IH _ Ht). reflexivity.
Qed.

(** [Bytes] leaves the chunk that [cut] leaves, with the offsets set. *)
Lemma Bytes_chunk (c : MemChunk) :
  exists bs : list block,
    fst (MemChunk.Bytes c) = MemChunk.with_blocks (fst (MemChunk.cut c)) bs /\
    (forall (A : Type) (f : block -> A),
       (forall (blk : block) (o : Z), f (block.with_offset blk o) = f blk) ->
       map f bs = map f (MemChunk.blocks (fst (MemChunk.cut c)))).
Proof.
  unfold MemChunk.Bytes.
  destruct (MemChunk.cut c) as [c1 [e|]] eqn:Hc.
  - exists (MemChunk.blocks c1). split; [destruct c1; reflexivity|]. reflexivity.
  - cbn [fst].
    pose proof (fun A f Hf => @write_blocks_map A f Hf (MemChunk.blocks c1)
                  (encbuf.get (MemChunk.write_header c1))
                  (int_add 0 (len (encbuf.get (MemChunk.write_header c1))))) as Hw.
    destruct (MemChunk.write_blocks (MemChunk.blocks c1) _ _) as [[bs buf] off].
    exists bs. split; [reflexivity|]. exact Hw.
Qed.

End Counting.

Section CountingTheorems.
Context `{Pools}.

Lemma Size_head_append (c : MemChunk) (e : Entry) (h : headBlock) :
  headBlock.append (MemChunk.head c) (Entry.Timestamp e) (Entry.Line e) = (h, None) ->
  MemChunk.Size (MemChunk.with_head c h) = int_add (MemChunk.Size c) 1.
Proof.
  intros Ha. apply head_append_ok in Ha. destruct Ha as [_ ->].
  rewrite !Size_total. unfold int_add. rewrite to_int_add_l.
  cbn [MemChunk.with_head MemChunk.blocks MemChunk.head headBlock.entries].
  rewrite len_app. f_equal. cbn. ring.
Qed.

Lemma UncompressedSize_head_append (c : MemChunk) (e : Entry) (h : headBlock) :
  head_reset c ->
  headBlock.append (MemChunk.head c) (Entry.Timestamp e) (Entry.Line e) = (h, None) ->
  MemChunk.UncompressedSize (MemChunk.with_head c h)
  = int_add (MemChunk.UncompressedSize c) (len (Entry.Line e)).
Proof.
  intros Hr0 Ha. apply head_append_ok in Ha. destruct Ha as [_ ->].
  rewrite (UncompressedSize_total Hr0).
  rewrite UncompressedSize_total_head by apply isEmpty_snoc.
  unfold int_add. rewrite to_int_add_l.
  cbn [MemChunk.with_head MemChunk.blocks MemChunk.head headBlock.size].
  unfold int_add. rewrite to_int_add_l. f_equal. ring.
Qed.

(** X1.  Every [Append] that does not refuse the entry as out of order adds
    one to [Size], also when it returns an error of the compressor; a
    refused entry leaves [Size] as it was.  The sum is the one of [int]. *)
Theorem Append_Size (c : MemChunk) (e : Entry) :
  MemChunk.Size (fst (MemChunk.Append c e))
  = if error_eqb_OutOfOrder (snd (MemChunk.Append c e))
    then MemChunk.Size c
    else int_add (MemChunk.Size c) 1.
Proof.
  destruct (Append_cases c e) as [Hr|h Ha Hr|h Ha Hr]; rewrite Hr.
  - reflexivity.
  - cbn [fst snd error_eqb_OutOfOrder]. apply Size_head_append with e. exact Ha.
  - rewrite cut_not_OutOfOrder, Size_cut. apply Size_head_append with e. exact Ha.
Qed.

(** X2.  [cut], [Close] and [Bytes] change neither [Size] nor
    [UncompressedSize]: the entries of the head move into a block, whether
    the compressor fails or not. *)
Theorem cut_and_Bytes_keep_sizes (c : MemChunk) :
  MemChunk.Size (fst (MemChunk.cut c)) = MemChunk.Size c /\
  MemChunk.UncompressedSize (fst (MemChunk.cut c)) = MemChunk.UncompressedSize c /\
  MemChunk.Size (fst (MemChunk.Close c)) = MemChunk.Size c /\
  MemChunk.UncompressedSize (fst (MemChunk.Close c)) = MemChunk.UncompressedSize c /\
  MemChunk.Size (fst (MemChunk.Bytes c)) = MemChunk.Size c /\
  MemChunk.UncompressedSize (fst (MemChunk.Bytes c)) = MemChunk.UncompressedSize c.
Proof.
  unfold MemChunk.Close.
  split; [apply Size_cut|]. split; [apply UncompressedSize_cut|].
  split; [apply Size_cut|]. split; [apply UncompressedSize_cut|].
  destruct (Bytes_chunk c) as [bs [-> Hbs]].
  rewrite <- (Size_cut c), <- (UncompressedSize_cut c).
  split.
  - rewrite !Size_total. destruct (fst (MemChunk.cut c)) as [a1 a2 blocks a4 hd a6 a7].
    cbn [MemChunk.with_blocks MemChunk.blocks MemChunk.head] in *.
    rewrite (@block_total_map block.numEntries blocks bs); [reflexivity|].
    apply Hbs. reflexivity.
  - unfold MemChunk.UncompressedSize.
    destruct (fst (MemChunk.cut c)) as [a1 a2 blocks a4 hd a6 a7].
    cbn [MemChunk.with_blocks MemChunk.blocks MemChunk.head] in *.
    assert (Hfold : forall a,
               fold_left (fun size blk => int_add size (block.uncompressedSize blk)) bs a
               = fold_left (fun size blk => int_add size (block.uncompressedSize blk))
                   blocks a).
    { specialize (Hbs Z block.uncompressedSize (fun _ _ => eq_refl)).
      clear -Hbs. revert bs Hbs.
      induction blocks as [|blk blocks IH]; intros [|blk' bs] Hm a;
        try discriminate Hm; [reflexivity|].
      cbn in Hm. injection Hm as Hh Ht. cbn [fold_left]. rewrite Hh.
      apply IH. exact Ht. }
    apply Hfold.
Qed.

Lemma Append_UncompressedSize_eq (c : MemChunk) (e : Entry) :
  head_reset c ->
  MemChunk.UncompressedSize (fst (MemChunk.Append c e))
  = if error_eqb_OutOfOrder (snd (MemChunk.Append c e))
    then MemChunk.UncompressedSize c
    else int_add (MemChunk.UncompressedSize c) (len (Entry.Line e)).
Proof.
  intros Hr0.
  assert (Hhead : forall h : headBlock,
             headBlock.append (MemChunk.head c) (Entry.Timestamp e) (Entry.Line e)
             = (h, None) ->
             MemChunk.UncompressedSize (MemChunk.with_head c h)
             = int_add (MemChunk.UncompressedSize c) (len (Entry.Line e))).
  { intros h Ha. apply head_append_ok in Ha. destruct Ha as [_ ->].
    rewrite (UncompressedSize_total Hr0).
    rewrite UncompressedSize_total_head by apply isEmpty_snoc.
    unfold int_add. rewrite to_int_add_l.
    cbn [MemChunk.with_head MemChunk.blocks MemChunk.head headBlock.size].
    unfold int_add. rewrite to_int_add_l. f_equal. ring. }
  destruct (Append_cases c e) as [Hr|h Ha Hr|h Ha Hr]; rewrite Hr.
  - reflexivity.
  - cbn [fst snd error_eqb_OutOfOrder]. apply Hhead. exact Ha.
  - rewrite cut_not_OutOfOrder, UncompressedSize_cut. apply Hhead. exact Ha.
Qed.

(** X3.  On a chunk whose empty head has its size at zero, every [Append]
    that does not refuse the entry adds the length of the line to
    [UncompressedSize], and a refused entry leaves it as it was. *)
Theorem Append_UncompressedSize (c : MemChunk) (e : Entry) :
  head_reset c ->
  MemChunk.UncompressedSize (fst (MemChunk.Append c e))
  = if error_eqb_OutOfOrder (snd (MemChunk.Append c e))
    then MemChunk.UncompressedSize c
    else int_add (MemChunk.UncompressedSize c) (len (Entry.Line e)).
Proof.
  intros Hr0.
  destruct (Append_cases c e) as [Hr|h Ha Hr|h Ha Hr]; rewrite Hr.
  - reflexivity.
  - cbn [fst snd error_eqb_OutOfOrder].
    eapply UncompressedSize_head_append; eassumption.
  - rewrite cut_not_OutOfOrder, UncompressedSize_cut.
    eapply UncompressedSize_head_append; eassumption.
Qed.

End CountingTheorems.

Lemma Append_UncompressedSize_witness :
  MemChunk.UncompressedSize
    (fst (@MemChunk.Append nonePools chunk_S2 (Entry.mk 4 (bytes_of "gh"))))
  = 8.
Proof.
  rewrite (@Append_UncompressedSize nonePools chunk_S2 (Entry.mk 4 (bytes_of "gh"))).
  - reflexivity.
  - unfold head_reset. vm_compute. intros Hx. discriminate Hx.
Defined.

(* ================================================================= *)
(** ** What the writer keeps *)

Lemma payload_total_app (bs1 bs2 : list block) :
  payload_total (bs1 ++ bs2) = payload_total bs1 + payload_total bs2.
Proof. rewrite !payload_total_block_total. apply block_total_app. Qed.

Lemma last_snoc {A : Type} (l : list A) (x d : A) : last (l ++ [x]) d = x.
Proof. apply last_last. Qed.

Lemma hd_snoc {A : Type} (l : list A) (x d : A) :
  hd d (l ++ [x]) = match l with [] => x | y :: _ => y end.
Proof. destruct l; reflexivity. Qed.

Lemma last_cons {A : Type} (xs : list A) :
  forall x d : A, last (x :: xs) d = last xs x.
Proof.
  induction xs as [|y ys IH]; intros x d; [reflexivity|].
  change (last (y :: ys) d = last (y :: ys) x). rewrite !IH. reflexivity.
Qed.

Lemma last_map_default {A B : Type} (g : A -> B) (xs : list A) :
  forall d : A, last (map g xs) (g d) = g (last xs d).
Proof.
  induction xs as [|y ys IH]; intros d; [reflexivity|].
  cbn [map]. rewrite !last_cons. apply IH.
Qed.

Section Keeping.
Context `{Pools}.

(** A step of a run keeps what [cut] and [Append] both keep. *)
Lemma run_keeps (P : MemChunk -> Prop) :
  (forall c, P c -> P (fst (MemChunk.cut c))) ->
  (forall c e, P c -> P (fst (MemChunk.Append c e))) ->
  forall (ops : list op) (c : MemChunk), P c -> P (run c ops).
Proof.
  intros Hcut Happ. unfold run.
  induction ops as [|o ops IH]; intros c Hc; [exact Hc|].
  cbn [fold_left]. apply IH. destruct o as [e|]; cbn [step].
  - apply Happ. exact Hc.
  - apply Hcut. exact Hc.
Qed.

(** [Append] keeps what [cut] keeps and a successful [headBlock.append] keeps. *)
Lemma Append_keeps (P : MemChunk -> Prop) (c : MemChunk) (e : Entry) :
  (forall c, P c -> P (fst (MemChunk.cut c))) ->
  (forall h,
     headBlock.append (MemChunk.head c) (Entry.Timestamp e) (Entry.Line e) = (h, None) ->
     P (MemChunk.with_head c h)) ->
  P c -> P (fst (MemChunk.Append c e)).
Proof.
  intros Hcut Hhead Hc.
  destruct (Append_cases c e) as [Hr|h Ha Hr|h Ha Hr]; rewrite Hr.
  - exact Hc.
  - apply Hhead. exact Ha.
  - apply Hcut, Hhead. exact Ha.
Qed.

Lemma cutBlockSize_ok_cut (c : MemChunk) :
  cutBlockSize_ok c -> cutBlockSize_ok (fst (MemChunk.cut c)).
Proof.
  unfold cutBlockSize_ok. intros Hc.
  destruct (cut_cases c) as [[_ ->]|[[_ [e [-> _]]]|[He [out ->]]]];
    [exact Hc|exact Hc|].
  cbn [fst MemChunk.cutBlockSize MemChunk.blocks].
  rewrite Hc, payload_total_app. unfold int_add. rewrite to_int_add_l.
  f_equal. cbn. ring.
Qed.

Lemma blocks_cut_ok_cut (c : MemChunk) :
  blocks_cut_ok c -> blocks_cut_ok (fst (MemChunk.cut c)).
Proof.
  intros [Hb Hh].
  destruct (cut_cases c) as [[_ ->]|[[_ [e [-> _]]]|[He [out ->]]]];
    [split; assumption|split; assumption|].
  cbn [fst]. split.
  - cbn [MemChunk.blocks]. apply Forall_app. split; [exact Hb|].
    apply Forall_cons; [|apply Forall_nil].
    unfold block_cut_ok, block.Entries, block.MinTime, block.MaxTime.
    cbn [block.numEntries block.mint block.maxt]. split.
    + apply isEmpty_false in He. unfold len.
      destruct (headBlock.entries (MemChunk.head c)); [congruence|]. cbn [length]. lia.
    + apply Hh. exact He.
  - cbn. intros Hx. discriminate Hx.
Qed.

Lemma blocks_cut_ok_head (c : MemChunk) (e : Entry) (h : headBlock) :
  blocks_cut_ok c ->
  headBlock.append (MemChunk.head c) (Entry.Timestamp e) (Entry.Line e) = (h, None) ->
  blocks_cut_ok (MemChunk.with_head c h).
Proof.
  intros [Hb Hh] Ha. apply head_append_ok in Ha. destruct Ha as [_ ->].
  split; [exact Hb|]. intros _.
  cbn [MemChunk.with_head MemChunk.head headBlock.mint headBlock.maxt].
  destruct ((headBlock.mint (MemChunk.head c) =? 0)
            || (headBlock.mint (MemChunk.head c) >? Entry.Timestamp e)) eqn:Hm; [lia|].
  apply orb_false_iff in Hm. destruct Hm as [_ Hm]. lia.
Qed.

(** X4.  In every chunk reached from a new one by appends and cuts,
    [cutBlockSize] is the sum of the lengths of the compressed blocks, and
    so is [CompressedSize] while the head is empty (sums of [int]). *)
Theorem cutBlockSize_sums_blocks (enc : Encoding) (blockSize targetSize : Z)
        (ops : list op) :
  let c := run (MemChunk.NewMemChunk enc blockSize targetSize) ops in
  MemChunk.cutBlockSize c = to_int (payload_total (MemChunk.blocks c)) /\
  (headBlock.isEmpty (MemChunk.head c) = true ->
   MemChunk.CompressedSize c = to_int (payload_total (MemChunk.blocks c))).
Proof.
  intros c.
  assert (Hc : cutBlockSize_ok c).
  { apply run_keeps.
    - apply cutBlockSize_ok_cut.
    - intros c0 e Hc0. apply Append_keeps; [apply cutBlockSize_ok_cut| |exact Hc0].
      intros h _. exact Hc0.
    - reflexivity. }
  split; [exact Hc|].
  intros He. unfold MemChunk.CompressedSize. rewrite He. cbn [negb].
  unfold int_add. rewrite Z.add_0_l, Hc. apply to_int_idem.
Qed.

(** X5.  In every chunk reached from a new one by appends and cuts, each
    block holds at least one entry and its [MinTime] is no later than its
    [MaxTime]: [cut] never makes an empty block. *)
Theorem blocks_are_never_empty (enc : Encoding) (blockSize targetSize : Z)
        (ops : list op) :
  let c := run (MemChunk.NewMemChunk enc blockSize targetSize) ops in
  Forall (fun blk => 1 <= block.Entries blk /\ block.MinTime blk <= block.MaxTime blk)
         (MemChunk.blocks c).
Proof.
  intros c.
  assert (Hc : blocks_cut_ok c).
  { apply run_keeps.
    - apply blocks_cut_ok_cut.
    - intros c0 e Hc0. apply Append_keeps; [apply blocks_cut_ok_cut| |exact Hc0].
      intros h Ha. apply blocks_cut_ok_head with e; assumption.
    - split; [apply Forall_nil|]. cbn. intros Hx. discriminate Hx. }
  exact (proj1 Hc).
Qed.

(* --------------------------------------------------------------- *)
(** *** Bounds *)

Lemma spans_cut (c : MemChunk) (f l : Z) :
  spans c f l -> spans (fst (MemChunk.cut c)) f l.
Proof.
  intros Hs.
  destruct (cut_cases c) as [[_ ->]|[[_ [e [-> _]]]|[He [out ->]]]];
    [exact Hs|exact Hs|].
  destruct Hs as (Hfl & _ & Hne & Hnil & Hcons).
  destruct (Hne He) as (Hf & Hmm & Hl).
  cbn [fst]. unfold spans, MemChunk.last_block.
  cbn [MemChunk.blocks MemChunk.head headBlock.mint headBlock.maxt].
  rewrite last_snoc, hd_snoc. cbn [block.mint block.maxt].
  split; [exact Hfl|]. split; [reflexivity|].
  split; [cbn; intros Hx; discriminate Hx|].
  split.
  - intros Hx. destruct (MemChunk.blocks c); discriminate Hx.
  - intros _. split; [|split; [lia|intros _; exact Hl]].
    destruct (MemChunk.blocks c) as [|b0 bs] eqn:Hbs.
    + cbn [block.mint]. apply Hnil. reflexivity.
    + apply (proj1 (Hcons ltac:(discriminate))).
Qed.

Lemma spans_head (c : MemChunk) (e : Entry) (h : headBlock) (f l : Z) :
  spans c f l -> 0 < f -> l <= Entry.Timestamp e ->
  headBlock.append (MemChunk.head c) (Entry.Timestamp e) (Entry.Line e) = (h, None) ->
  spans (MemChunk.with_head c h) f (Entry.Timestamp e).
Proof.
  intros (Hfl & He & Hne & Hnil & Hcons) Hf Hl Ha.
  apply head_append_ok in Ha. destruct Ha as [_ ->].
  unfold spans, MemChunk.last_block.
  cbn [MemChunk.with_head MemChunk.blocks MemChunk.head headBlock.mint headBlock.maxt].
  rewrite isEmpty_snoc.
  assert (Hmint : f <= (if (headBlock.mint (MemChunk.head c) =? 0)
                           || (headBlock.mint (MemChunk.head c) >? Entry.Timestamp e)
                        then Entry.Timestamp e else headBlock.mint (MemChunk.head c))
                  <= Entry.Timestamp e /\
                  (headBlock.isEmpty (MemChunk.head c) = false ->
                   (if (headBlock.mint (MemChunk.head c) =? 0)
                       || (headBlock.mint (MemChunk.head c) >? Entry.Timestamp e)
                    then Entry.Timestamp e else headBlock.mint (MemChunk.head c))
                   = headBlock.mint (MemChunk.head c))).
  { destruct (headBlock.isEmpty (MemChunk.head c)) eqn:Hemp.
    - rewrite (He eq_refl). cbn. split; [lia|]. intros Hx. discriminate Hx.
    - destruct (Hne eq_refl) as (H1 & H2 & H3).
      replace (headBlock.mint (MemChunk.head c) =? 0) with false
        by (symmetry; apply Z.eqb_neq; lia).
      replace (headBlock.mint (MemChunk.head c) >? Entry.Timestamp e) with false
        by (symmetry; rewrite Z.gtb_ltb; apply Z.ltb_ge; lia).
      cbn. split; [lia|]. reflexivity. }
  split; [lia|]. split; [intros Hx; discriminate Hx|].
  split; [intros _; split; [lia|split; [lia|reflexivity]]|].
  split.
  - intros Hb. split; [reflexivity|].
    destruct (Hnil Hb) as [Hemp Hm]. rewrite (proj2 Hmint Hemp). exact Hm.
  - intros Hb. destruct (Hcons Hb) as (H1 & H2 & _).
    split; [exact H1|]. split; [unfold MemChunk.last_block in H2; lia|].
    intros Hx. discriminate Hx.
Qed.

(** Why [Append] refuses an entry. *)
Lemma Append_refused_why (c : MemChunk) (e : Entry) :
  snd (MemChunk.Append c e) = Some ErrOutOfOrder ->
  (headBlock.isEmpty (MemChunk.head c) = true /\ MemChunk.blocks c <> [] /\
   Entry.Timestamp e < block.maxt (MemChunk.last_block c))
  \/
  (headBlock.isEmpty (MemChunk.head c) = false /\
   Entry.Timestamp e < headBlock.maxt (MemChunk.head c)).
Proof.
  intros Hr.
  destruct (headBlock.isEmpty (MemChunk.head c) && (len (MemChunk.blocks c) >? 0)
            && (block.maxt (MemChunk.last_block c) >? Entry.Timestamp e)) eqn:Hg.
  - left. apply andb_true_iff in Hg. destruct Hg as [Hg Hgt].
    apply andb_true_iff in Hg. destruct Hg as [Hemp Hlen].
    split; [exact Hemp|]. split.
    + intros Hb. rewrite Hb in Hlen. discriminate Hlen.
    + rewrite Z.gtb_ltb in Hgt. apply Z.ltb_lt in Hgt. exact Hgt.
  - destruct (headBlock.append (MemChunk.head c) (Entry.Timestamp e) (Entry.Line e))
      as [h [err|]] eqn:Ha.
    + right. apply head_append_error in Ha. destruct Ha as (_ & _ & Hemp & Hlt).
      split; assumption.
    + exfalso. unfold MemChunk.Append in Hr. rewrite Hg, Ha in Hr.
      cbv zeta in Hr.
      destruct (headBlock.size (MemChunk.head (MemChunk.with_head c h))
                >=? MemChunk.blockSize (MemChunk.with_head c h)).
      * pose proof (cut_not_OutOfOrder (MemChunk.with_head c h)) as Hn.
        rewrite Hr in Hn. discriminate Hn.
      * discriminate Hr.
Qed.

(** An entry at or after the last one is not refused. *)
Lemma spans_not_refused (c : MemChunk) (e : Entry) (f l : Z) :
  spans c f l -> l <= Entry.Timestamp e ->
  MemChunk.Append c e <> (c, Some ErrOutOfOrder).
Proof.
  intros (Hfl & He & Hne & Hnil & Hcons) Hl Hr.
  destruct (@Append_refused_why c e) as [(Hemp & Hb & Hlt)|(Hemp & Hlt)].
  - rewrite Hr. reflexivity.
  - destruct (Hcons Hb) as (_ & H2 & _). lia.
  - destruct (Hne Hemp) as (_ & _ & H3). lia.
Qed.

Lemma spans_Append (c : MemChunk) (e : Entry) (f l : Z) :
  spans c f l -> 0 < f -> l <= Entry.Timestamp e ->
  spans (fst (MemChunk.Append c e)) f (Entry.Timestamp e).
Proof.
  intros Hs Hf Hl.
  destruct (Append_cases c e) as [Hr|h Ha Hr|h Ha Hr].
  - exfalso. eapply spans_not_refused; eassumption.
  - rewrite Hr. apply spans_head with l; assumption.
  - rewrite Hr. apply spans_cut. apply spans_head with l; assumption.
Qed.

Lemma spans_appendAll (E : list Entry) :
  forall (c : MemChunk) (f l : Z),
    spans c f l -> 0 < f -> in_order_from l E ->
    spans (fst (appendAll c E)) f (last (map Entry.Timestamp E) l).
Proof.
  induction E as [|e E IH]; intros c f l Hs Hf Ho.
  - exact Hs.
  - destruct Ho as [Hl Ho].
    pose proof (@spans_Append c e f l Hs Hf Hl) as Hs'.
    specialize (IH _ _ _ Hs' Hf Ho).
    cbn [appendAll]. destruct (MemChunk.Append c e) as [c1 err1].
    cbn [fst] in *. destruct (appendAll c1 E) as [c2 errs].
    cbn [fst] in *.
    cbn [map]. rewrite last_cons. exact IH.
Qed.

Lemma spans_Bounds (c : MemChunk) (f l : Z) :
  spans c f l -> 0 < f -> MemChunk.Bounds c = (f, l).
Proof.
  intros (Hfl & He & Hne & Hnil & Hcons) Hf. unfold MemChunk.Bounds.
  destruct (MemChunk.blocks c) as [|b0 bs] eqn:Hb.
  - destruct (Hnil eq_refl) as [Hemp Hm]. destruct (Hne Hemp) as (_ & _ & H3).
    cbn [len length Z.of_nat]. cbn [Z.gtb Z.compare]. rewrite Hemp. cbn [negb].
    cbn [Z.eqb orb]. rewrite Hm, H3.
    replace (0 <? l) with true by (symmetry; apply Z.ltb_lt; lia). reflexivity.
  - destruct (Hcons ltac:(discriminate)) as (H1 & H2 & H3).
    replace (len (b0 :: bs) >? 0) with true
      by (symmetry; unfold len; cbn [length]; rewrite Z.gtb_ltb; apply Z.ltb_lt; lia).
    cbn [hd] in *. rewrite H1.
    destruct (headBlock.isEmpty (MemChunk.head c)) eqn:Hemp; cbn [negb].
    + rewrite (H3 eq_refl). reflexivity.
    + destruct (Hne eq_refl) as (G1 & G2 & G3).
      replace (f =? 0) with false by (symmetry; apply Z.eqb_neq; lia).
      replace (f >? headBlock.mint (MemChunk.head c)) with false
        by (symmetry; rewrite Z.gtb_ltb; apply Z.ltb_ge; lia).
      cbn [orb]. f_equal. rewrite G3.
      destruct (block.maxt (MemChunk.last_block c) <? l) eqn:Hlt; [reflexivity|].
      apply Z.ltb_ge in Hlt. lia.
Qed.

Lemma spans_first (enc : Encoding) (blockSize targetSize : Z) (e : Entry) (h : headBlock) :
  headBlock.append (MemChunk.head (MemChunk.NewMemChunk enc blockSize targetSize))
    (Entry.Timestamp e) (Entry.Line e) = (h, None) ->
  spans (MemChunk.with_head (MemChunk.NewMemChunk enc blockSize targetSize) h)
        (Entry.Timestamp e) (Entry.Timestamp e).
Proof.
  intros Ha. cbn in Ha. injection Ha as <-.
  unfold spans, MemChunk.last_block.
  cbn [MemChunk.with_head MemChunk.NewMemChunk MemChunk.blocks MemChunk.head
       headBlock.mint headBlock.maxt].
  change (headBlock.isEmpty _) with false.
  split; [lia|]. split; [intros Hx; discriminate Hx|].
  split; [intros _; split; [lia|split; [lia|reflexivity]]|].
  split; [intros _; split; reflexivity|].
  intros Hx. exfalso. apply Hx. reflexivity.
Qed.

(** X6.  After in-order entries with positive timestamps are appended to a
    new chunk, [Bounds] is the timestamp of the first entry and the
    timestamp of the last one, wherever the blocks were cut and whether the
    compressor failed or not. *)
Theorem Bounds_first_last (enc : Encoding) (blockSize targetSize : Z)
        (e : Entry) (E : list Entry) :
  0 < Entry.Timestamp e ->
  in_order (e :: E) ->
  MemChunk.Bounds (fst (appendAll (MemChunk.NewMemChunk enc blockSize targetSize) (e :: E)))
  = (Entry.Timestamp e, Entry.Timestamp (last E e)).
Proof.
  intros Hpos Ho. cbn [in_order] in Ho.
  set (c0 := MemChunk.NewMemChunk enc blockSize targetSize).
  assert (Hs1 : spans (fst (MemChunk.Append c0 e)) (Entry.Timestamp e) (Entry.Timestamp e)).
  { destruct (Append_cases c0 e) as [Hr|h Ha Hr|h Ha Hr].
    - exfalso.
      destruct (@Append_refused_why c0 e) as [(_ & Hb & _)|(Hemp & _)].
      + rewrite Hr. reflexivity.
      + apply Hb. reflexivity.
      + discriminate Hemp.
    - rewrite Hr. apply spans_first. exact Ha.
    - rewrite Hr. apply spans_cut. apply spans_first. exact Ha. }
  pose proof (@spans_appendAll E _ _ _ Hs1 Hpos Ho) as Hs.
  cbn [appendAll]. destruct (MemChunk.Append c0 e) as [c1 err1].
  cbn [fst] in *. destruct (appendAll c1 E) as [c2 errs]. cbn [fst] in *.
  rewrite (@spans_Bounds _ _ _ Hs Hpos). f_equal. apply last_map_default.
Qed.

(** X7.  [headBlock.append] and [Bounds] take the timestamp zero for a
    bound that is not set: when the first entry of a chunk has the
    timestamp zero and a second entry with a positive timestamp follows it
    in the same head, [Bounds] starts at the timestamp of the second
    entry. *)
Theorem Bounds_skips_timestamp_zero (enc : Encoding) (blockSize targetSize : Z)
        (line : list byte) (e : Entry) :
  0 < Entry.Timestamp e ->
  fits_int blockSize ->
  len line + len (Entry.Line e) < blockSize ->
  MemChunk.Bounds
    (fst (appendAll (MemChunk.NewMemChunk enc blockSize targetSize) [Entry.mk 0 line; e]))
  = (Entry.Timestamp e, Entry.Timestamp e).
Proof.
  intros Hpos Hbs Hlen.
  pose proof (len_nonneg line) as H1. pose proof (len_nonneg (Entry.Line e)) as H2.
  assert (Hs1 : int_add 0 (len line) = len line).
  { apply int_add_fits. unfold fits_int in *. lia. }
  assert (Hs2 : int_add (len line) (len (Entry.Line e)) = len line + len (Entry.Line e)).
  { apply int_add_fits. unfold fits_int in *. lia. }
  assert (Ha1 : MemChunk.Append (MemChunk.NewMemChunk enc blockSize targetSize)
                  (Entry.mk 0 line)
                = (MemChunk.mk blockSize targetSize [] 0
                     (headBlock.mk [entry.mk 0 line] (len line) 0 0) chunkFormatV2 enc,
                   None)).
  { unfold MemChunk.Append, headBlock.append. cbn. rewrite Hs1.
    replace (len line >=? blockSize) with false
      by (symmetry; rewrite Z.geb_leb; apply Z.leb_gt; lia).
    reflexivity. }
  assert (Ha2 : MemChunk.Append
                  (MemChunk.mk blockSize targetSize [] 0
                     (headBlock.mk [entry.mk 0 line] (len line) 0 0) chunkFormatV2 enc) e
                = (MemChunk.mk blockSize targetSize [] 0
                     (headBlock.mk [entry.mk 0 line;
                                    entry.mk (Entry.Timestamp e) (Entry.Line e)]
                        (len line + len (Entry.Line e))
                        (Entry.Timestamp e) (Entry.Timestamp e))
                     chunkFormatV2 enc,
                   None)).
  { unfold MemChunk.Append.
    cbn [MemChunk.head MemChunk.blocks Entry.Timestamp Entry.Line].
    change (headBlock.isEmpty (headBlock.mk [entry.mk 0 line] (len line) 0 0)) with false.
    cbn [andb]. unfold headBlock.append.
    change (headBlock.isEmpty (headBlock.mk [entry.mk 0 line] (len line) 0 0)) with false.
    cbn [negb andb headBlock.maxt headBlock.mint headBlock.entries headBlock.size app].
    replace (0 >? Entry.Timestamp e) with false
      by (symmetry; rewrite Z.gtb_ltb; apply Z.ltb_ge; lia).
    change (0 =? 0) with true. cbn [orb].
    cbn [MemChunk.with_head MemChunk.head MemChunk.blockSize headBlock.size].
    rewrite Hs2.
    replace (len line + len (Entry.Line e) >=? blockSize) with false
      by (symmetry; rewrite Z.geb_leb; apply Z.leb_gt; lia).
    reflexivity. }
  cbn [appendAll]. rewrite Ha1, Ha2. cbn [fst].
  unfold MemChunk.Bounds.
  cbn [MemChunk.blocks MemChunk.head headBlock.mint headBlock.maxt].
  change (len (@nil block) >? 0) with false.
  change (headBlock.isEmpty _) with false.
  cbn [negb]. change (0 =? 0) with true. cbn [orb].
  replace (0 <? Entry.Timestamp e) with true by (symmetry; apply Z.ltb_lt; lia).
  reflexivity.
Qed.

End Keeping.

Lemma Bounds_first_last_witness :
  MemChunk.Bounds chunk_S2 = (1, 3).
Proof.
  apply (@Bounds_first_last nonePools EncNone 4 0 (Entry.mk 1 (bytes_of "ab"))
           [Entry.mk 2 (bytes_of "cd"); Entry.mk 3 (bytes_of "ef")]).
  - reflexivity.
  - cbn. lia.
Defined.

Lemma Bounds_skips_timestamp_zero_witness :
  MemChunk.Bounds
    (fst (@appendAll nonePools (MemChunk.NewMemChunk EncNone 256 0)
            [Entry.mk 0 (bytes_of "a"); Entry.mk 5 (bytes_of "b")]))
  = (5, 5).
Proof.
  apply (@Bounds_skips_timestamp_zero nonePools EncNone 256 0 (bytes_of "a")
           (Entry.mk 5 (bytes_of "b"))).
  - reflexivity.
  - unfold fits_int. lia.
  - reflexivity.
Defined.

(* ================================================================= *)
(** ** The window of [Blocks] and of [Iterator] *)

Section Windows.
Context `{Pools}.

Lemma block_iterators_Blocks (fuel : nat) (st : ChunkData) (enc : Encoding)
      (mint maxt : Z) (pipeline : Pipeline) (bs : list block) :
  ChunkIterator.block_iterators fuel st enc bs mint maxt pipeline
  = ChunkIterator.block_iterators fuel st enc
      (filter (fun blk => (maxt >=? block.mint blk) && (block.maxt blk >=? mint)) bs)
      mint maxt pipeline.
Proof.
  induction bs as [|blk bs IH]; [reflexivity|].
  cbn [filter ChunkIterator.block_iterators].
  assert (Hw : (maxt >=? block.mint blk) && (block.maxt blk >=? mint)
               = negb ((maxt <? block.mint blk) || (block.maxt blk <? mint))).
  { rewrite negb_orb, !Z.geb_leb, !Z.ltb_antisym, !negb_involutive. reflexivity. }
  rewrite Hw.
  destruct ((maxt <? block.mint blk) || (block.maxt blk <? mint)) eqn:Hskip; cbn [negb].
  - exact IH.
  - cbn [ChunkIterator.block_iterators]. rewrite Hskip, <- IH. reflexivity.
Qed.

(** X8.  [Blocks] returns, in their order, the blocks that meet the window,
    and [Iterator] over the same window reads exactly these blocks: the
    chunk cut down to them iterates alike, in both directions and with
    every pipeline. *)
Theorem Iterator_reads_Blocks (fuel : nat) (st : ChunkData) (c : MemChunk)
        (mint maxt : Z) (direction : Direction) (pipeline : Pipeline) :
  (forall blk : block,
     In blk (MemChunk.Blocks c mint maxt) <->
     In blk (MemChunk.blocks c) /\
     block.MinTime blk <= maxt /\ mint <= block.MaxTime blk)
  /\
  ChunkIterator.Iterator fuel st c mint maxt direction pipeline
  = ChunkIterator.Iterator fuel st
      (MemChunk.with_blocks c (MemChunk.Blocks c mint maxt)) mint maxt direction pipeline.
Proof.
  split.
  - intros blk. unfold MemChunk.Blocks, block.MinTime, block.MaxTime.
    rewrite filter_In, andb_true_iff, !Z.geb_leb, !Z.leb_le. reflexivity.
  - unfold ChunkIterator.Iterator.
    cbn [MemChunk.with_blocks MemChunk.encoding MemChunk.blocks MemChunk.head].
    unfold MemChunk.Blocks. rewrite <- block_iterators_Blocks. reflexivity.
Qed.

End Windows.

(* ================================================================= *)
(** ** The parser on any input *)

(** X9.  An input of fewer than five bytes is refused with the error of
    the header; nothing is sliced. *)
Theorem NewByteChunk_short_header (b : list byte) (blockSize targetSize : Z) :
  len b < 5 ->
  MemChunk.NewByteChunk b blockSize targetSize
  = Ret (inr (ErrWrap ErrInvalidSize "verifying header"%string), []).
Proof.
  intros Hl.
  destruct b as [|b0 [|b1 [|b2 [|b3 [|b4 rest]]]]]; try reflexivity.
  exfalso. unfold len in Hl. cbn [length] in Hl. lia.
Qed.

Lemma NewByteChunk_short_header_witness :
  MemChunk.NewByteChunk (map z2b [0x01; 0x2E; 0xE5; 0x6A]) 4 0
  = Ret (inr (ErrWrap ErrInvalidSize "verifying header"%string), []).
Proof.
  apply (@NewByteChunk_short_header (map z2b [0x01; 0x2E; 0xE5; 0x6A]) 4 0).
  reflexivity.
Defined.

(** What [read_header] does with five bytes or more. *)
Lemma read_header_five (b0 b1 b2 b3 b4 : byte) (rest : list byte) (m : Z) :
  binary.Uint32 (b0 :: b1 :: b2 :: b3 :: b4 :: rest) = Ret m ->
  MemChunk.read_header (b0 :: b1 :: b2 :: b3 :: b4 :: rest)
  = if negb (m =? magicNumber) then inr (ErrInvalidMagic m)
    else if b2z b4 =? chunkFormatV1 then inl (b2z b4, EncGZIP)
    else if b2z b4 =? chunkFormatV2 then
      match rest with
      | k :: _ => inl (b2z b4, b2z k)
      | [] => inr (ErrWrap ErrInvalidSize "verifying encoding"%string)
      end
    else inr (ErrInvalidVersion (b2z b4)).
Proof.
  intros Hm. unfold MemChunk.read_header, decbuf.be32.
  cbn [decbuf.e decbuf.b]. rewrite Hm.
  unfold decbuf.byte. cbn [decbuf.e decbuf.b decbuf.err].
  destruct (negb (m =? magicNumber)); [reflexivity|].
  destruct (b2z b4 =? chunkFormatV1); [reflexivity|].
  destruct (b2z b4 =? chunkFormatV2); [|reflexivity].
  destruct rest as [|k rest']; reflexivity.
Qed.

Lemma Uint32_total (b0 b1 b2 b3 : byte) (rest : list byte) :
  exists m : Z, binary.Uint32 (b0 :: b1 :: b2 :: b3 :: rest) = Ret m.
Proof. eexists. reflexivity. Qed.

(** X10.  An input of five bytes or more whose first four bytes are not the
    magic number is refused with the number read. *)
Theorem NewByteChunk_bad_magic (b : list byte) (m blockSize targetSize : Z) :
  5 <= len b ->
  binary.Uint32 b = Ret m ->
  m <> magicNumber ->
  MemChunk.NewByteChunk b blockSize targetSize = Ret (inr (ErrInvalidMagic m), []).
Proof.
  intros Hl Hm Hne.
  destruct b as [|b0 [|b1 [|b2 [|b3 [|b4 rest]]]]];
    try (exfalso; unfold len in Hl; cbn [length] in Hl; lia).
  unfold MemChunk.NewByteChunk. rewrite (@read_header_five _ _ _ _ _ _ _ Hm).
  replace (m =? magicNumber) with false by (symmetry; apply Z.eqb_neq; exact Hne).
  reflexivity.
Qed.

Lemma NewByteChunk_bad_magic_witness :
  MemChunk.NewByteChunk header_bad_magic 4 0 = Ret (inr (ErrInvalidMagic 0), []).
Proof.
  apply (@NewByteChunk_bad_magic header_bad_magic 0 4 0).
  - vm_compute. intros Hx. discriminate Hx.
  - reflexivity.
  - intros Hx. discriminate Hx.
Defined.

(** X11.  An input that starts with the magic number and goes on with a
    version byte other than 1 and 2 is refused with that version. *)
Theorem NewByteChunk_bad_version (b : list byte) (blockSize targetSize : Z) :
  5 <= len b ->
  binary.Uint32 b = Ret magicNumber ->
  b2z (nth 4 b x00) <> chunkFormatV1 ->
  b2z (nth 4 b x00) <> chunkFormatV2 ->
  MemChunk.NewByteChunk b blockSize targetSize
  = Ret (inr (ErrInvalidVersion (b2z (nth 4 b x00))), []).
Proof.
  intros Hl Hm H1 H2.
  destruct b as [|b0 [|b1 [|b2 [|b3 [|b4 rest]]]]];
    try (exfalso; unfold len in Hl; cbn [length] in Hl; lia).
  cbn [nth] in *.
  unfold MemChunk.NewByteChunk. rewrite (@read_header_five _ _ _ _ _ _ _ Hm).
  rewrite Z.eqb_refl. cbn [negb].
  replace (b2z b4 =? chunkFormatV1) with false by (symmetry; apply Z.eqb_neq; exact H1).
  replace (b2z b4 =? chunkFormatV2) with false by (symmetry; apply Z.eqb_neq; exact H2).
  reflexivity.
Qed.

Lemma NewByteChunk_bad_version_witness :
  MemChunk.NewByteChunk header_bad_version 4 0 = Ret (inr (ErrInvalidVersion 3), []).
Proof.
  apply (@NewByteChunk_bad_version header_bad_version 4 0).
  - vm_compute. intros Hx. discriminate Hx.
  - reflexivity.
  - intros Hx. discriminate Hx.
  - intros Hx. discriminate Hx.
Defined.

Lemma slice_Ret (b : list byte) (lo hi : Z) (r : list byte) :
  slice b lo hi = Ret r ->
  0 <= lo /\ lo <= hi /\ hi <= len b /\ len r = hi - lo.
Proof.
  unfold slice. intros Hs.
  destruct ((0 <=? lo) && (lo <=? hi) && (hi <=? len b)) eqn:Hc; [|discriminate Hs].
  apply andb_true_iff in Hc. destruct Hc as [Hc H3].
  apply andb_true_iff in Hc. destruct Hc as [H1 H2].
  apply Z.leb_le in H1, H2, H3. injection Hs as <-.
  repeat split; try assumption.
  unfold len in *. rewrite length_firstn, length_skipn. lia.
Qed.

Lemma Uint32_Ret (tail : list byte) (x : Z) :
  binary.Uint32 tail = Ret x -> 4 <= len tail.
Proof.
  destruct tail as [|b0 [|b1 [|b2 [|b3 rest]]]]; intros Hx; try discriminate Hx.
  unfold len. cbn [length]. lia.
Qed.

Lemma parse_block_sound (b : list byte) (i : Z) (st st' : MemChunk.parse) :
  MemChunk.parse_block b i st = Ret (inl st') ->
  (MemChunk.p_blocks st' = MemChunk.p_blocks st /\
   MemChunk.p_cutBlockSize st' = MemChunk.p_cutBlockSize st)
  \/
  (exists blk : block,
     MemChunk.p_blocks st' = MemChunk.p_blocks st ++ [blk] /\
     MemChunk.p_cutBlockSize st'
       = int_add (MemChunk.p_cutBlockSize st) (len (block.b blk)) /\
     block_in_file b blk).
Proof.
  unfold MemChunk.parse_block.
  destruct (decbuf.uvarint (MemChunk.p_db st)) as [numEntries db1].
  destruct (decbuf.varint64 db1) as [mint db2].
  destruct (decbuf.varint64 db2) as [maxt db3].
  destruct (decbuf.uvarint db3) as [offset db4].
  destruct (decbuf.uvarint db4) as [l db5].
  destruct (slice b offset (int_add offset l)) as [blk_b| |] eqn:Hs1;
    cbn [bind]; try (intros Hx; discriminate Hx).
  destruct (slice_from b (int_add offset l)) as [tail| |] eqn:Hs2;
    cbn [bind]; try (intros Hx; discriminate Hx).
  destruct (binary.Uint32 tail) as [expCRC| |] eqn:Hu;
    cbn [bind]; try (intros Hx; discriminate Hx).
  destruct (negb (expCRC =? crc32.Checksum blk_b)) eqn:Hcrc.
  - intros Hx. injection Hx as <-. left. split; reflexivity.
  - apply negb_false_iff, Z.eqb_eq in Hcrc. subst expCRC.
    destruct (decbuf.err db5); intros Hx; [discriminate Hx|].
    injection Hx as <-. right.
    exists (block.mk blk_b numEntries mint maxt offset 0).
    split; [reflexivity|]. split; [reflexivity|].
    pose proof (@slice_Ret _ _ _ _ Hs1) as (H1 & H2 & H3 & H4).
    pose proof (@slice_Ret _ _ _ _ Hs2) as (_ & _ & _ & H5).
    pose proof (@Uint32_Ret _ _ Hu) as H6.
    unfold block_in_file, block_at. cbn [block.offset block.b block.uncompressedSize].
    replace (offset + len blk_b) with (int_add offset l) by lia.
    split; [|reflexivity].
    split; [exact H1|]. split; [lia|]. split; [exact Hs1|].
    exists tail. split; assumption.
Qed.

Lemma parse_ok_step (b : list byte) (i : Z) (st st' : MemChunk.parse) :
  parse_ok b st ->
  MemChunk.parse_block b i st = Ret (inl st') ->
  parse_ok b st'.
Proof.
  intros [Hb Hc] Hp.
  destruct (@parse_block_sound _ _ _ _ Hp) as [[E1 E2]|(blk & E1 & E2 & Hblk)];
    unfold parse_ok; rewrite E1, E2.
  - split; assumption.
  - split.
    + apply Forall_app. split; [exact Hb|]. apply Forall_cons; [exact Hblk|apply Forall_nil].
    + rewrite Hc, payload_total_app. unfold int_add. rewrite to_int_add_l.
      f_equal. cbn. ring.
Qed.

Lemma parse_blocks_sound (b : list byte) (rounds : nat) :
  forall (i : Z) (st st' : MemChunk.parse),
    parse_ok b st ->
    MemChunk.parse_blocks rounds b i st = Ret (inl st') ->
    parse_ok b st'.
Proof.
  induction rounds as [|r IH]; intros i st st' Hok Hp.
  - cbn in Hp. injection Hp as <-. exact Hok.
  - cbn [MemChunk.parse_blocks] in Hp.
    destruct (MemChunk.parse_block b i st) as [[st1|e]| |] eqn:Hb;
      cbn [bind] in Hp; try discriminate Hp.
    apply IH with (i + 1) st1; [|exact Hp].
    apply parse_ok_step with i st; assumption.
Qed.

(** What a successful [NewByteChunk] went through. *)
Lemma NewByteChunk_Ret (b : list byte) (blockSize targetSize : Z) (c : MemChunk)
      (log : list logEvent) :
  MemChunk.NewByteChunk b blockSize targetSize = Ret (inl c, log) ->
  exists (version : Z) (enc : Encoding) (st : MemChunk.parse),
    MemChunk.read_header b = inl (version, enc) /\
    parse_ok b st /\
    c = MemChunk.mk blockSize targetSize (MemChunk.p_blocks st)
          (MemChunk.p_cutBlockSize st) headBlock.zero version enc.
Proof.
  unfold MemChunk.NewByteChunk.
  destruct (MemChunk.read_header b) as [[version enc]|e] eqn:Hh;
    [|intros Hx; discriminate Hx].
  destruct (slice_from b (len b - 8)) as [tail8| |];
    cbn [bind]; try (intros Hx; discriminate Hx).
  destruct (binary.Uint64 tail8) as [metasOffset| |];
    cbn [bind]; try (intros Hx; discriminate Hx).
  destruct (slice b metasOffset (len b - (8 + 4))) as [mb| |];
    cbn [bind]; try (intros Hx; discriminate Hx).
  destruct (slice_from b (len b - (8 + 4))) as [tail12| |];
    cbn [bind]; try (intros Hx; discriminate Hx).
  destruct (binary.Uint32 tail12) as [expCRC| |];
    cbn [bind]; try (intros Hx; discriminate Hx).
  destruct (negb (expCRC =? decbuf.crc32 (decbuf.mk mb None)));
    [intros Hx; discriminate Hx|].
  destruct (decbuf.uvarint (decbuf.mk mb None)) as [num db].
  destruct (negb (MemChunk.make_blocks_ok num)); [intros Hx; discriminate Hx|].
  destruct (MemChunk.parse_blocks (Z.to_nat num) b 0 (MemChunk.mkParse [] 0 db []))
    as [[st|e]| |] eqn:Hp; cbn [bind]; try (intros Hx; discriminate Hx).
  intros Hx. injection Hx as <- <-.
  exists version, enc, st. split; [reflexivity|]. split; [|reflexivity].
  apply parse_blocks_sound with (2 := Hp).
  split; [apply Forall_nil|reflexivity].
Qed.

Lemma read_header_inl (b : list byte) (version : Z) (enc : Encoding) :
  MemChunk.read_header b = inl (version, enc) ->
  binary.Uint32 b = Ret magicNumber /\
  version = b2z (nth 4 b x00) /\
  ((version = chunkFormatV1 /\ enc = EncGZIP)
   \/ (version = chunkFormatV2 /\ 6 <= len b /\ enc = b2z (nth 5 b x00))).
Proof.
  destruct b as [|b0 [|b1 [|b2 [|b3 [|b4 rest]]]]]; try (intros Hx; discriminate Hx).
  destruct (Uint32_total b0 b1 b2 b3 (b4 :: rest)) as [m Hm].
  rewrite (@read_header_five _ _ _ _ _ _ _ Hm), Hm.
  destruct (m =? magicNumber) eqn:Hmagic; cbn [negb]; [|intros Hx; discriminate Hx].
  apply Z.eqb_eq in Hmagic. subst m.
  destruct (b2z b4 =? chunkFormatV1) eqn:H1.
  - intros Hx. injection Hx as <- <-. apply Z.eqb_eq in H1.
    split; [reflexivity|]. split; [reflexivity|]. left. split; [exact H1|reflexivity].
  - destruct (b2z b4 =? chunkFormatV2) eqn:H2; [|intros Hx; discriminate Hx].
    destruct rest as [|k rest']; intros Hx; [discriminate Hx|].
    injection Hx as <- <-. apply Z.eqb_eq in H2.
    split; [reflexivity|]. split; [reflexivity|]. right.
    split; [exact H2|]. split; [|reflexivity]. unfold len. cbn [length]. lia.
Qed.

(** X12.  Whatever the input, every block of a chunk that [NewByteChunk]
    returns lies inside the input at its offset and is followed there by
    the checksum of its payload, and [cutBlockSize] is the sum of the
    lengths of these payloads. *)
Theorem NewByteChunk_blocks_in_input (b : list byte) (blockSize targetSize : Z)
        (c : MemChunk) (log : list logEvent) :
  MemChunk.NewByteChunk b blockSize targetSize = Ret (inl c, log) ->
  Forall (block_at b) (MemChunk.blocks c) /\
  MemChunk.cutBlockSize c = to_int (payload_total (MemChunk.blocks c)).
Proof.
  intros Hn.
  destruct (@NewByteChunk_Ret _ _ _ _ _ Hn) as (version & enc & st & _ & [Hb Hc] & ->).
  split; [|exact Hc].
  apply Forall_impl with (2 := Hb). intros blk Hblk. apply Hblk.
Qed.

Lemma NewByteChunk_blocks_in_input_witness :
  Forall (block_at (blocks_file chunkFormatV2 EncNone stored_S4))
         [block.mk payload_S4_1 1 3 3 18 0].
Proof.
  apply (@NewByteChunk_blocks_in_input (blocks_file chunkFormatV2 EncNone stored_S4) 4 0
           (MemChunk.mk 4 0 [block.mk payload_S4_1 1 3 3 18 0] 4 headBlock.zero
              chunkFormatV2 EncNone)
           [BlockSkipped 0 ErrInvalidChecksum]).
  vm_compute. reflexivity.
Defined.

Lemma fold_uncompressed_zero (bs : list block) :
  Forall (fun blk => block.uncompressedSize blk = 0) bs ->
  fold_left (fun size blk => int_add size (block.uncompressedSize blk)) bs 0 = 0.
Proof.
  induction bs as [|blk bs IH]; intros Hz; [reflexivity|].
  inversion Hz as [|? ? Hb Hbs]; subst. cbn [fold_left]. rewrite Hb.
  change (int_add 0 0) with 0. apply IH. exact Hbs.
Qed.

(** X13.  A chunk that [NewByteChunk] returns has the block size and the
    target size it was given and an empty head; its format is the version
    byte of the input, its encoding GZIP for format 1 and the sixth byte of
    the input for format 2; and its [UncompressedSize] is zero, the
    uncompressed sizes of the blocks not being part of the file. *)
Theorem NewByteChunk_fields (b : list byte) (blockSize targetSize : Z)
        (c : MemChunk) (log : list logEvent) :
  MemChunk.NewByteChunk b blockSize targetSize = Ret (inl c, log) ->
  MemChunk.blockSize c = blockSize /\
  MemChunk.targetSize c = targetSize /\
  MemChunk.head c = headBlock.zero /\
  binary.Uint32 b = Ret magicNumber /\
  MemChunk.format c = b2z (nth 4 b x00) /\
  ((MemChunk.format c = chunkFormatV1 /\ MemChunk.Encoding c = EncGZIP)
   \/ (MemChunk.format c = chunkFormatV2 /\ 6 <= len b /\
       MemChunk.Encoding c = b2z (nth 5 b x00))) /\
  MemChunk.UncompressedSize c = 0.
Proof.
  intros Hn.
  destruct (@NewByteChunk_Ret _ _ _ _ _ Hn) as (version & enc & st & Hh & [Hok _] & ->).
  destruct (@read_header_inl _ _ _ Hh) as (Hm & Hv & Henc).
  unfold MemChunk.Encoding.
  cbn [MemChunk.blockSize MemChunk.targetSize MemChunk.head MemChunk.format
       MemChunk.encoding].
  repeat (split; [first [reflexivity|assumption]|]).
  unfold MemChunk.UncompressedSize.
  cbn [MemChunk.head MemChunk.blocks]. change (headBlock.isEmpty headBlock.zero) with true.
  cbn [negb]. apply fold_uncompressed_zero.
  apply Forall_impl with (2 := Hok). intros blk Hblk. apply Hblk.
Qed.

Lemma NewByteChunk_fields_witness :
  MemChunk.UncompressedSize
    (MemChunk.mk 4 0 [block.mk payload_S4_1 1 3 3 18 0] 4 headBlock.zero
       chunkFormatV2 EncNone) = 0.
Proof.
  apply (@NewByteChunk_fields (blocks_file chunkFormatV2 EncNone stored_S4) 4 0
           (MemChunk.mk 4 0 [block.mk payload_S4_1 1 3 3 18 0] 4 headBlock.zero
              chunkFormatV2 EncNone)
           [BlockSkipped 0 ErrInvalidChecksum]).
  vm_compute. reflexivity.
Defined.

(** X14.  The offset of the metadata is not checked: on an input whose
    header is sound and whose last eight bytes give an offset above
    [len(b) - 12], the slice of the metadata panics. *)
Theorem NewByteChunk_metas_offset_panics (b tail8 : list byte) (version : Z)
        (enc : Encoding) (metasOffset blockSize targetSize : Z) :
  MemChunk.read_header b = inl (version, enc) ->
  slice_from b (len b - 8) = Ret tail8 ->
  binary.Uint64 tail8 = Ret metasOffset ->
  len b - 12 < metasOffset ->
  MemChunk.NewByteChunk b blockSize targetSize = Panics.
Proof.
  intros Hh Ht Hu Hoff. unfold MemChunk.NewByteChunk.
  rewrite Hh, Ht. cbn [bind]. rewrite Hu. cbn [bind].
  unfold slice at 1.
  replace (metasOffset <=? len b - (8 + 4)) with false
    by (symmetry; apply Z.leb_gt; lia).
  rewrite andb_false_r. reflexivity.
Qed.

Lemma NewByteChunk_metas_offset_panics_witness :
  MemChunk.NewByteChunk file_bad_metas_offset 4 0 = Panics.
Proof.
  apply (@NewByteChunk_metas_offset_panics file_bad_metas_offset
           (map z2b [0xFF; 0xFF; 0xFF; 0xFF; 0xFF; 0xFF; 0xFF; 0xFF])
           1 EncGZIP (2 ^ 64 - 1) 4 0).
  - reflexivity.
  - reflexivity.
  - reflexivity.
  - vm_compute. reflexivity.
Defined.

(* ================================================================= *)
(** ** What [Bytes] writes *)

Lemma app_assoc4 {A : Type} (a b c d : list A) :
  a ++ (b ++ c) ++ d = (a ++ b) ++ c ++ d.
Proof. rewrite <- !app_assoc. reflexivity. Qed.

Lemma assigned_blocks_at (bs : list block) :
  forall pre post : list byte,
    Forall (block_at (pre ++ flat_map stored_image (map with_checksum bs) ++ post))
           (assign_offsets bs (len pre)).
Proof.
  induction bs as [|blk bs IH]; intros pre post; [apply Forall_nil|].
  cbn [assign_offsets map flat_map]. apply Forall_cons.
  - unfold block_at, stored_image, with_checksum.
    cbn [fst snd block.with_offset block.offset block.b].
    rewrite <- !app_assoc.
    split; [apply len_nonneg|]. split.
    + rewrite !len_app, len_PutUint32.
      pose proof (len_nonneg (flat_map stored_image (map with_checksum bs))).
      pose proof (len_nonneg post).
      unfold stored_image, with_checksum in *. cbn [fst snd] in *. lia.
    + split; [apply slice_middle|].
      eexists. split.
      * rewrite <- len_app, app_assoc. apply slice_from_suffix.
      * apply Uint32_PutUint32. apply Checksum_range.
  - specialize (IH (pre ++ stored_image (with_checksum blk)) post).
    rewrite len_app, len_stored_image in IH. cbn [with_checksum fst] in IH.
    rewrite <- !app_assoc in IH. rewrite <- !app_assoc. exact IH.
Qed.

Section Written.
Context `{Pools}.

(** A successful [Bytes] went through a successful [cut]. *)
Lemma Bytes_Ret (c c1 : MemChunk) (b : list byte) :
  MemChunk.Bytes c = (c1, (b, None)) ->
  exists c' : MemChunk, MemChunk.cut c = (c', None).
Proof.
  unfold MemChunk.Bytes. destruct (MemChunk.cut c) as [c' [e|]].
  - intros Hx. discriminate Hx.
  - intros _. exists c'. reflexivity.
Qed.

Lemma Bytes_Ret_layout (c c1 : MemChunk) (b : list byte) :
  MemChunk.Bytes c = (c1, (b, None)) ->
  fits_int (len b) ->
  exists c' : MemChunk,
    MemChunk.cut c = (c', None) /\
    c1 = MemChunk.with_blocks c'
           (assign_offsets (MemChunk.blocks c')
              (len (header_bytes (MemChunk.format c') (MemChunk.encoding c')))) /\
    b = blocks_file (MemChunk.format c') (MemChunk.encoding c')
          (map with_checksum
             (assign_offsets (MemChunk.blocks c')
                (len (header_bytes (MemChunk.format c') (MemChunk.encoding c'))))).
Proof.
  intros Hb Hfit. destruct (@Bytes_Ret _ _ _ Hb) as [c' Hc]. exists c'.
  split; [exact Hc|].
  pose proof (@Bytes_len_lower _ c c' Hc) as Hlow. rewrite Hb in Hlow. cbn [fst snd] in Hlow.
  assert (Hf : fits_int (len (header_bytes (MemChunk.format c') (MemChunk.encoding c'))
                         + len (flat_map stored_image
                                  (map with_checksum (MemChunk.blocks c'))))).
  { pose proof (len_nonneg (header_bytes (MemChunk.format c') (MemChunk.encoding c'))).
    pose proof (len_nonneg (flat_map stored_image (map with_checksum (MemChunk.blocks c')))).
    unfold fits_int in *. lia. }
  pose proof (@Bytes_layout _ c c' Hc Hf) as Hl. rewrite Hb in Hl.
  injection Hl as -> ->. split; reflexivity.
Qed.

(** X15.  In the bytes that [Bytes] returns every block lies at the offset
    that [Bytes] has set in the chunk, its payload followed by the
    checksum of the payload. *)
Theorem Bytes_sets_offsets (c c1 : MemChunk) (b : list byte) :
  MemChunk.Bytes c = (c1, (b, None)) ->
  fits_int (len b) ->
  Forall (block_at b) (MemChunk.blocks c1).
Proof.
  intros Hb Hfit.
  destruct (@Bytes_Ret_layout _ _ _ Hb Hfit) as (c' & _ & -> & ->).
  destruct c' as [a1 a2 blocks a4 hd format enc].
  cbn [MemChunk.with_blocks MemChunk.blocks MemChunk.format MemChunk.encoding].
  unfold blocks_file, chunk_file. rewrite images_of_assigned.
  apply assigned_blocks_at.
Qed.

End Written.

Lemma Bytes_sets_offsets_witness :
  Forall (block_at (fst (snd (@MemChunk.Bytes nonePools chunk_S2))))
         (MemChunk.blocks (fst (@MemChunk.Bytes nonePools chunk_S2))).
Proof.
  apply (@Bytes_sets_offsets nonePools chunk_S2).
  - vm_compute. reflexivity.
  - unfold fits_int. vm_compute. split; [intros Hx; discriminate Hx|reflexivity].
Defined.

(* ================================================================= *)
(** ** Calling [Bytes] twice *)

(** [cut] does not touch the format and the encoding. *)
Lemma cut_format_encoding `{Pools} (c : MemChunk) :
  MemChunk.format (fst (MemChunk.cut c)) = MemChunk.format c /\
  MemChunk.encoding (fst (MemChunk.cut c)) = MemChunk.encoding c.
Proof.
  unfold MemChunk.cut.
  destruct (headBlock.isEmpty (MemChunk.head c)); [split; reflexivity|].
  destruct (headBlock.serialise _ _) as [out [e|]]; split; reflexivity.
Qed.

(** The payloads after a [cut] that returns no error: those of the blocks
    that were there and, when the head was not empty, what the compressor
    made of the head. *)
Lemma cut_payloads `{Pools} (c c' : MemChunk) :
  MemChunk.cut c = (c', None) ->
  map block.b (MemChunk.blocks c')
  = map block.b (MemChunk.blocks c)
    ++ (if headBlock.isEmpty (MemChunk.head c) then []
        else [fst (headBlock.serialise (MemChunk.head c)
                     (getWriterPool (MemChunk.encoding c)))]).
Proof.
  unfold MemChunk.cut.
  destruct (headBlock.isEmpty (MemChunk.head c)).
  - intros [= <-]. rewrite app_nil_r. reflexivity.
  - destruct (headBlock.serialise _ _) as [out [e|]]; [intros Hx; discriminate Hx|].
    intros [= <-]. cbn [MemChunk.blocks fst]. rewrite map_app. reflexivity.
Qed.

(** [Bytes] on a chunk that an earlier [Bytes] left: there is nothing to
    cut, so no compressor is asked, and the blocks are written at the
    offsets they have. *)
Lemma Bytes_again (pools pools' : Pools) (c c1 : MemChunk) (b : list byte) :
  @MemChunk.Bytes pools c = (c1, (b, None)) ->
  @MemChunk.cut pools' c1 = (c1, None) /\
  @MemChunk.Bytes pools' c1 = (c1, (b, None)).
Proof.
  intros Hb.
  assert (He : headBlock.isEmpty (MemChunk.head c1) = true).
  { revert Hb. unfold MemChunk.Bytes.
    destruct (@MemChunk.cut pools c) as [c' [e|]] eqn:Hcut;
      [intros Hx; discriminate Hx|].
    destruct (MemChunk.write_blocks (MemChunk.blocks c') _ _) as [[bs buf] offset].
    intros [= <- _]. cbn [MemChunk.with_blocks MemChunk.head].
    exact (@cut_head_empty pools _ _ Hcut). }
  split; [exact (@cut_empty pools' _ He)|].
  revert Hb. unfold MemChunk.Bytes.
  rewrite (@cut_empty pools' _ He).
  destruct (@MemChunk.cut pools c) as [c' [e|]]; [intros Hx; discriminate Hx|].
  pose proof (write_blocks_again (MemChunk.blocks c')
                (encbuf.get (MemChunk.write_header c'))
                (int_add 0 (len (encbuf.get (MemChunk.write_header c'))))) as Hagain.
  destruct (MemChunk.write_blocks (MemChunk.blocks c') _ _) as [[bs buf] offset].
  cbn [fst] in Hagain.
  intros [= <- <-].
  change (MemChunk.write_header (MemChunk.with_blocks c' bs))
    with (MemChunk.write_header c').
  change (MemChunk.blocks (MemChunk.with_blocks c' bs)) with bs.
  rewrite Hagain. reflexivity.
Qed.

Section BytesTwiceInFull.
Context `{Pools}.

(** C10.  [Bytes] called twice in succession.  For every chunk the second
    call returns the bytes and the error of the first.  When the first call
    returns no error, it has cut the head: the chunk it leaves has an empty
    head and holds, after the payloads that were there, what the compressor
    made of the head when the head was not empty; the bytes it returns are
    the file of these blocks (their length fitting an [int]).  The second
    call then finds nothing to cut, leaves the chunk as it is and returns
    the same bytes, whichever compressors it is given: none is run.  When
    the first call returns an error, it is the error of [cut], the chunk is
    as it was and no bytes are returned. *)
Theorem Bytes_twice (c : MemChunk) :
  let c1 := fst (MemChunk.Bytes c) in
  let b := fst (snd (MemChunk.Bytes c)) in
  snd (MemChunk.Bytes c1) = snd (MemChunk.Bytes c) /\
  match snd (snd (MemChunk.Bytes c)) with
  | Some e => MemChunk.cut c = (c, Some e) /\ c1 = c /\ b = []
  | None =>
      headBlock.isEmpty (MemChunk.head c1) = true /\
      map block.b (MemChunk.blocks c1)
      = map block.b (MemChunk.blocks c)
        ++ (if headBlock.isEmpty (MemChunk.head c) then []
            else [fst (headBlock.serialise (MemChunk.head c)
                         (getWriterPool (MemChunk.encoding c)))]) /\
      (fits_int (len b) ->
       b = blocks_file (MemChunk.format c) (MemChunk.encoding c)
             (map with_checksum (MemChunk.blocks c1))) /\
      (forall pools : Pools,
         @MemChunk.cut pools c1 = (c1, None) /\
         @MemChunk.Bytes pools c1 = (c1, (b, None)))
  end.
Proof.
  intros c1 b. subst c1 b.
  destruct (MemChunk.Bytes c) as [c1 [b [e|]]] eqn:Hb; cbn [fst snd].
  - (* the first call failed in [cut] *)
    assert (Hcut : MemChunk.cut c = (c, Some e) /\ c1 = c /\ b = []).
    { revert Hb. unfold MemChunk.Bytes.
      destruct (MemChunk.cut c) as [c' [e'|]] eqn:Hcut.
      - intros [= <- <- <-]. apply cut_error_unchanged in Hcut as Hc. subst c'.
        split; [reflexivity|]. split; reflexivity.
      - destruct (MemChunk.write_blocks (MemChunk.blocks c') _ _) as [[bs buf] offset].
        intros Hx. discriminate Hx. }
    split; [|exact Hcut].
    destruct Hcut as (Hcut & -> & ->). rewrite Hb. reflexivity.
  - (* the first call cut the head and wrote the blocks *)
    pose proof (@Bytes_again _ _ _ _ _ Hb) as Hagain.
    split; [rewrite (proj2 Hagain); reflexivity|].
    destruct (Bytes_Ret _ Hb) as (c' & Hcut).
    destruct (Bytes_chunk c) as (bs & Hc1 & Hmap).
    rewrite Hb, Hcut in Hc1. cbn [fst] in Hc1.
    rewrite Hcut in Hmap. cbn [fst] in Hmap.
    split; [|split; [|split]].
    + rewrite Hc1. cbn [MemChunk.with_blocks MemChunk.head].
      exact (cut_head_empty _ Hcut).
    + rewrite Hc1. cbn [MemChunk.with_blocks MemChunk.blocks].
      rewrite (Hmap _ block.b) by (intros blk o; destruct blk; reflexivity).
      exact (cut_payloads _ Hcut).
    + intros Hfit.
      destruct (Bytes_Ret_layout _ Hb Hfit) as (c'' & Hcut'' & Hc'' & Hbytes).
      rewrite Hcut in Hcut''. injection Hcut'' as <-.
      pose proof (cut_format_encoding c) as (Hf & Henc).
      rewrite Hcut in Hf, Henc. cbn [fst] in Hf, Henc.
      rewrite Hbytes, Hc'', Hf, Henc. reflexivity.
    + intros pools. exact (@Bytes_again _ pools _ _ _ Hb).
Qed.

End BytesTwiceInFull.

(** The chunk of scenario S2 has a head that is not empty; [Bytes] cuts it,
    and the second call returns the chunk and the bytes of the first. *)
Lemma Bytes_twice_witness :
  headBlock.isEmpty (MemChunk.head chunk_S2) = false /\
  headBlock.isEmpty (MemChunk.head (fst (@MemChunk.Bytes nonePools chunk_S2))) = true /\
  @MemChunk.Bytes nonePools (fst (@MemChunk.Bytes nonePools chunk_S2))
  = (fst (@MemChunk.Bytes nonePools chunk_S2),
     (fst (snd (@MemChunk.Bytes nonePools chunk_S2)), None)).
Proof.
  pose proof (proj2 (@Bytes_twice nonePools chunk_S2)) as Hw.
  replace (snd (snd (@MemChunk.Bytes nonePools chunk_S2))) with (@None error) in Hw
    by (vm_compute; reflexivity).
  destruct Hw as (Hhead & _ & _ & Hany).
  split; [reflexivity|]. split; [exact Hhead|].
  exact (proj2 (Hany nonePools)).
Defined.

(* ================================================================= *)
(** ** Writing again what was read *)

Lemma to_byte_idem (x : Z) : to_byte (to_byte x) = to_byte x.
Proof. unfold to_byte. apply Z.mod_mod. lia. Qed.

Lemma to_byte_range (x : Z) : 0 <= to_byte x < 256.
Proof. unfold to_byte. apply Z.mod_pos_bound. lia. Qed.

Lemma header_bytes_to_byte (format : Z) (enc : Encoding) :
  header_bytes format (to_byte enc) = header_bytes format enc.
Proof. unfold header_bytes. rewrite to_byte_idem. reflexivity. Qed.

Lemma header_bytes_V1 (enc enc' : Encoding) :
  header_bytes chunkFormatV1 enc = header_bytes chunkFormatV1 enc'.
Proof. reflexivity. Qed.

Lemma blocks_file_header (format : Z) (enc enc' : Encoding) (ps : list stored) :
  header_bytes format enc = header_bytes format enc' ->
  blocks_file format enc ps = blocks_file format enc' ps.
Proof. intros Hh. unfold blocks_file, chunk_file. rewrite Hh. reflexivity. Qed.

Lemma assign_offsets_as_parsed (bs : list block) :
  forall off : Z,
    assign_offsets (map as_parsed (assign_offsets bs off)) off
    = map as_parsed (assign_offsets bs off).
Proof.
  induction bs as [|blk bs IH]; intros off; [reflexivity|].
  cbn [assign_offsets map]. f_equal. apply IH.
Qed.

Lemma images_as_parsed (bs : list block) :
  flat_map stored_image (map with_checksum (map as_parsed bs))
  = flat_map stored_image (map with_checksum bs).
Proof.
  induction bs as [|blk bs IH]; [reflexivity|].
  cbn [map flat_map]. rewrite IH. reflexivity.
Qed.

Lemma metas_as_parsed (bs : list block) :
  metas_bytes (map as_parsed bs) = metas_bytes bs.
Proof.
  unfold metas_bytes. f_equal.
  - unfold len. rewrite length_map. reflexivity.
  - induction bs as [|blk bs IH]; [reflexivity|].
    cbn [map flat_map]. rewrite IH. reflexivity.
Qed.

Lemma blocks_file_as_parsed (format : Z) (enc : Encoding) (bs : list block) :
  blocks_file format enc (map with_checksum (map as_parsed bs))
  = blocks_file format enc (map with_checksum bs).
Proof.
  unfold blocks_file. rewrite !map_fst_with_checksum, images_as_parsed, metas_as_parsed.
  reflexivity.
Qed.

Lemma stored_ok_with_checksum (bs : list block) :
  Forall block_meta_fits bs -> Forall stored_ok (map with_checksum bs).
Proof.
  intros Hb. apply Forall_map. apply Forall_impl with (2 := Hb).
  intros blk (H1 & H2 & H3). unfold stored_ok, with_checksum. cbn [fst snd].
  repeat split; try apply H1; try apply H2; try apply H3; apply Checksum_range.
Qed.

Section WriteAgain.
Context `{Pools}.

(** X16.  The bytes that [Bytes] returns are read by [NewByteChunk] into a
    chunk with the same blocks, no block skipped, and [Bytes] of that chunk
    returns the same bytes again and leaves it as it is. *)
Theorem Bytes_of_parsed_Bytes (c c1 : MemChunk) (b : list byte)
        (blockSize targetSize : Z) :
  MemChunk.Bytes c = (c1, (b, None)) ->
  len b < 2 ^ 44 ->
  MemChunk.format c1 = chunkFormatV1 \/ MemChunk.format c1 = chunkFormatV2 ->
  Forall block_meta_fits (MemChunk.blocks c1) ->
  exists c2 : MemChunk,
    MemChunk.NewByteChunk b blockSize targetSize = Ret (inl c2, []) /\
    MemChunk.blocks c2 = map as_parsed (MemChunk.blocks c1) /\
    MemChunk.Bytes c2 = (c2, (b, None)).
Proof.
  intros Hb Hlen Hfmt Hfits.
  assert (Hfit : fits_int (len b)).
  { pose proof (len_nonneg b). unfold fits_int. lia. }
  destruct (@Bytes_Ret_layout _ _ _ _ Hb Hfit) as (c' & _ & -> & ->).
  destruct c' as [a1 a2 blocks a4 hd format enc].
  cbn [MemChunk.with_blocks MemChunk.blocks MemChunk.format MemChunk.encoding] in *.
  set (off := len (header_bytes format enc)) in *.
  set (bs := assign_offsets blocks off) in *.
  set (enc2 := if format =? chunkFormatV2 then to_byte enc else EncGZIP).
  assert (Hh2 : header_bytes format enc2 = header_bytes format enc).
  { unfold enc2. destruct Hfmt as [-> | ->].
    - apply header_bytes_V1.
    - apply header_bytes_to_byte. }
  assert (Hparse :
            MemChunk.NewByteChunk (blocks_file format enc (map with_checksum bs))
              blockSize targetSize
            = Ret (inl (MemChunk.mk blockSize targetSize (map as_parsed bs)
                          (payload_total (map as_parsed bs)) headBlock.zero format enc2),
                   [])).
  { rewrite <- (@blocks_file_header format (to_byte enc) enc (map with_checksum bs))
      by apply header_bytes_to_byte.
    rewrite NewByteChunk_blocks_file.
    - rewrite verified_with_checksum, skipped_with_checksum. reflexivity.
    - exact Hfmt.
    - apply to_byte_range.
    - apply stored_ok_with_checksum. exact Hfits.
    - rewrite header_bytes_to_byte. apply laid_out_assigned.
    - rewrite (@blocks_file_header format (to_byte enc) enc (map with_checksum bs))
        by apply header_bytes_to_byte.
      exact Hlen. }
  eexists. split; [exact Hparse|]. split; [reflexivity|].
  set (c2 := MemChunk.mk blockSize targetSize (map as_parsed bs)
               (payload_total (map as_parsed bs)) headBlock.zero format enc2).
  assert (Hcut : MemChunk.cut c2 = (c2, None)) by (apply cut_empty; reflexivity).
  assert (Himg : blocks_file format enc2 (map with_checksum (map as_parsed bs))
                 = blocks_file format enc (map with_checksum bs)).
  { rewrite blocks_file_as_parsed. apply blocks_file_header. exact Hh2. }
  pose proof (@Bytes_layout _ c2 c2 Hcut) as Hl. cbv zeta in Hl.
  cbn [c2 MemChunk.format MemChunk.encoding MemChunk.blocks MemChunk.with_blocks] in Hl.
  rewrite Hh2 in Hl. fold off in Hl. unfold bs in Hl at 2 3.
  rewrite assign_offsets_as_parsed in Hl. fold bs in Hl. rewrite Himg in Hl.
  apply Hl.
  rewrite images_as_parsed.
  assert (Hb2 : len (blocks_file format enc (map with_checksum bs)) < 2 ^ 44) by exact Hlen.
  unfold blocks_file, chunk_file in Hb2. rewrite !len_app in Hb2.
  fold off in Hb2. unfold bs in Hb2. rewrite images_of_assigned in Hb2.
  pose proof (len_nonneg (header_bytes format enc)). fold off in H0.
  pose proof (len_nonneg (flat_map stored_image (map with_checksum blocks))).
  pose proof (len_nonneg (metas_bytes (map fst (map with_checksum (assign_offsets blocks off))))).
  rewrite len_PutUint32, len_PutUint64 in Hb2.
  unfold bs. rewrite images_of_assigned. unfold fits_int. lia.
Qed.

End WriteAgain.

Lemma Bytes_of_parsed_Bytes_witness :
  exists c2 : MemChunk,
    MemChunk.NewByteChunk (fst (snd (@MemChunk.Bytes nonePools chunk_S2))) 4 0
      = Ret (inl c2, []) /\
    MemChunk.blocks c2
      = map as_parsed (MemChunk.blocks (fst (@MemChunk.Bytes nonePools chunk_S2))) /\
    @MemChunk.Bytes nonePools c2
      = (c2, (fst (snd (@MemChunk.Bytes nonePools chunk_S2)), None)).
Proof.
  apply (@Bytes_of_parsed_Bytes nonePools chunk_S2
           (fst (@MemChunk.Bytes nonePools chunk_S2))
           (fst (snd (@MemChunk.Bytes nonePools chunk_S2))) 4 0).
  - vm_compute. reflexivity.
  - vm_compute. reflexivity.
  - right. reflexivity.
  - replace (MemChunk.blocks (fst (@MemChunk.Bytes nonePools chunk_S2)))
      with [block.mk (map z2b [2; 2; 97; 98; 4; 2; 99; 100]) 2 1 2 6 4;
            block.mk (map z2b [6; 2; 101; 102]) 1 3 3 18 2]
      by (vm_compute; reflexivity).
    repeat (apply Forall_cons || apply Forall_nil);
      unfold block_meta_fits, fits_int; cbn [block.numEntries block.mint block.maxt]; lia.
Defined.

(* ================================================================= *)
(** ** Reading a block through a pipeline or an extractor *)

Lemma processed_cons (pipeline : Pipeline) (e : entry) (es : list entry) :
  processed pipeline (e :: es)
  = (let '(newLine, keep) := pipeline (entry.s e) in
     if keep then [Entry.mk (entry.t e) newLine] else [])
    ++ processed pipeline es.
Proof. reflexivity. Qed.

Lemma sampled_cons (Sum64 : list byte -> Z) (extractor : SampleExtractor)
      (e : entry) (es : list entry) :
  sampled Sum64 extractor (e :: es)
  = (let '(val, keep) := extractor (entry.s e) in
     if keep then [Sample.mk (entry.t e) val (Sum64 (entry.s e))] else [])
    ++ sampled Sum64 extractor es.
Proof. reflexivity. Qed.

Section Filtering.
Context `{Pools}.

Lemma entry_Next_pipeline (es : list entry) :
  forall (fuel : nat) (it : entryBufferedIterator),
    ready (entryBufferedIterator.base it) (flat_map headBlock.serialise_entry es) ->
    Forall entry_valid es ->
    (length es + 1 <= fuel)%nat ->
    exists it' : entryBufferedIterator,
      (entryBufferedIterator.Next fuel it = Ret (false, it') /\
       processed (entryBufferedIterator.pipeline it) es = [] /\
       entryBufferedIterator.Error it' = None)
      \/
      (exists rest : list entry,
         entryBufferedIterator.Next fuel it = Ret (true, it') /\
         ready (entryBufferedIterator.base it') (flat_map headBlock.serialise_entry rest) /\
         entryBufferedIterator.pipeline it' = entryBufferedIterator.pipeline it /\
         Forall entry_valid rest /\
         (length rest < length es)%nat /\
         processed (entryBufferedIterator.pipeline it) es
         = entryBufferedIterator.cur it'
             :: processed (entryBufferedIterator.pipeline it) rest).
Proof.
  induction es as [|e es IH]; intros fuel it Hr Hv Hfuel.
  - destruct fuel as [|fuel]; [simpl in Hfuel; lia|].
    rewrite entry_Next_S.
    destruct (@Next_end _ fuel _ Hr) as (si' & Hn & He).
    rewrite Hn. cbn [bind]. eexists. left.
    split; [reflexivity|]. split; [reflexivity|].
    unfold entryBufferedIterator.Error, bufferedIterator.Error.
    cbn [entryBufferedIterator.base]. exact He.
  - inversion Hv as [|? ? Hve Hves]; subst.
    destruct fuel as [|fuel]; [simpl in Hfuel; lia|].
    rewrite entry_Next_S. cbn [flat_map] in Hr.
    destruct (@Next_entry _ fuel _ e _ Hr Hve) as (si' & Hn & Hr' & Hts & Hline).
    rewrite Hn. cbn [bind]. rewrite Hline.
    rewrite !processed_cons.
    destruct (entryBufferedIterator.pipeline it (entry.s e)) as [newLine keep] eqn:Hp.
    destruct keep; cbn [negb].
    + eexists. right. exists es.
      split; [reflexivity|].
      cbn [entryBufferedIterator.base entryBufferedIterator.pipeline
           entryBufferedIterator.cur].
      split; [exact Hr'|]. split; [reflexivity|]. split; [exact Hves|].
      split; [simpl; lia|]. rewrite Hts. reflexivity.
    + cbn [app].
      destruct (IH fuel (entryBufferedIterator.mk si' (entryBufferedIterator.pipeline it)
                           (entryBufferedIterator.cur it)))
        as (it' & [(Hn' & Hp' & He')|(rest & Hn' & Hr'' & Hpi & Hvr & Hlen & Hp')]).
      * exact Hr'.
      * exact Hves.
      * simpl in Hfuel. lia.
      * exists it'. left. split; [exact Hn'|]. split; [exact Hp'|exact He'].
      * exists it'. right. exists rest.
        cbn [entryBufferedIterator.pipeline] in *.
        split; [exact Hn'|]. split; [exact Hr''|]. split; [exact Hpi|].
        split; [exact Hvr|]. split; [simpl; lia|exact Hp'].
Qed.

Lemma drain_pipeline (n : nat) :
  forall (es : list entry) (fuel : nat) (it : entryBufferedIterator),
    (length es <= n)%nat ->
    ready (entryBufferedIterator.base it) (flat_map headBlock.serialise_entry es) ->
    Forall entry_valid es ->
    (length es + 2 <= fuel)%nat ->
    entryBufferedIterator.drain fuel it
    = Ret (processed (entryBufferedIterator.pipeline it) es, None).
Proof.
  induction n as [|n IH]; intros es fuel it Hn Hr Hv Hfuel;
    (destruct fuel as [|fuel]; [simpl in Hfuel; lia|]);
    rewrite drain_S;
    (destruct (@entry_Next_pipeline es fuel it Hr Hv ltac:(lia))
      as (it' & [(Hn' & Hp' & He')|(rest & Hn' & Hr' & Hpi & Hvr & Hlen & Hp')]));
    rewrite Hn'; cbn [bind].
  - rewrite Hp', He'. reflexivity.
  - exfalso. lia.
  - rewrite Hp', He'. reflexivity.
  - rewrite (IH rest fuel it') by (try assumption; lia).
    cbn [bind entryBufferedIterator.Entry]. rewrite Hpi, Hp'. reflexivity.
Qed.

Section Samples.
Variable Sum64 : list byte -> Z.

Lemma sample_Next_S (fuel : nat) (e : sampleBufferedIterator) :
  sampleBufferedIterator.Next Sum64 (S fuel) e
  = ('(ok, si) <- bufferedIterator.Next fuel (sampleBufferedIterator.base e) ;;
     if ok then
       let '(val, keep) :=
         sampleBufferedIterator.extractor e (bufferedIterator.currLine si) in
       if negb keep
       then sampleBufferedIterator.Next Sum64 fuel
              (sampleBufferedIterator.mk si (sampleBufferedIterator.extractor e)
                 (sampleBufferedIterator.cur e))
       else Ret (true, sampleBufferedIterator.mk si (sampleBufferedIterator.extractor e)
                         (Sample.mk (bufferedIterator.currTs si) val
                                    (Sum64 (bufferedIterator.currLine si))))
     else Ret (false, sampleBufferedIterator.mk si (sampleBufferedIterator.extractor e)
                        (sampleBufferedIterator.cur e))).
Proof. reflexivity. Qed.

Lemma sample_drain_S (fuel : nat) (e : sampleBufferedIterator) :
  sampleBufferedIterator.drain Sum64 (S fuel) e
  = ('(ok, e) <- sampleBufferedIterator.Next Sum64 fuel e ;;
     if ok then
       '(out, err) <- sampleBufferedIterator.drain Sum64 fuel e ;;
       Ret (sampleBufferedIterator.Sample e :: out, err)
     else Ret ([], sampleBufferedIterator.Error e)).
Proof. reflexivity. Qed.

Lemma sample_Next_extractor (es : list entry) :
  forall (fuel : nat) (it : sampleBufferedIterator),
    ready (sampleBufferedIterator.base it) (flat_map headBlock.serialise_entry es) ->
    Forall entry_valid es ->
    (length es + 1 <= fuel)%nat ->
    exists it' : sampleBufferedIterator,
      (sampleBufferedIterator.Next Sum64 fuel it = Ret (false, it') /\
       sampled Sum64 (sampleBufferedIterator.extractor it) es = [] /\
       sampleBufferedIterator.Error it' = None)
      \/
      (exists rest : list entry,
         sampleBufferedIterator.Next Sum64 fuel it = Ret (true, it') /\
         ready (sampleBufferedIterator.base it') (flat_map headBlock.serialise_entry rest) /\
         sampleBufferedIterator.extractor it' = sampleBufferedIterator.extractor it /\
         Forall entry_valid rest /\
         (length rest < length es)%nat /\
         sampled Sum64 (sampleBufferedIterator.extractor it) es
         = sampleBufferedIterator.cur it'
             :: sampled Sum64 (sampleBufferedIterator.extractor it) rest).
Proof.
  induction es as [|e es IH]; intros fuel it Hr Hv Hfuel.
  - destruct fuel as [|fuel]; [simpl in Hfuel; lia|].
    rewrite sample_Next_S.
    destruct (@Next_end _ fuel _ Hr) as (si' & Hn & He).
    rewrite Hn. cbn [bind]. eexists. left.
    split; [reflexivity|]. split; [reflexivity|].
    unfold sampleBufferedIterator.Error, bufferedIterator.Error.
    cbn [sampleBufferedIterator.base]. exact He.
  - inversion Hv as [|? ? Hve Hves]; subst.
    destruct fuel as [|fuel]; [simpl in Hfuel; lia|].
    rewrite sample_Next_S. cbn [flat_map] in Hr.
    destruct (@Next_entry _ fuel _ e _ Hr Hve) as (si' & Hn & Hr' & Hts & Hline).
    rewrite Hn. cbn [bind]. rewrite Hline.
    rewrite !sampled_cons.
    destruct (sampleBufferedIterator.extractor it (entry.s e)) as [val keep] eqn:Hp.
    destruct keep; cbn [negb].
    + eexists. right. exists es.
      split; [reflexivity|].
      cbn [sampleBufferedIterator.base sampleBufferedIterator.extractor
           sampleBufferedIterator.cur].
      split; [exact Hr'|]. split; [reflexivity|]. split; [exact Hves|].
      split; [simpl; lia|]. rewrite Hts. reflexivity.
    + cbn [app].
      destruct (IH fuel (sampleBufferedIterator.mk si' (sampleBufferedIterator.extractor it)
                           (sampleBufferedIterator.cur it)))
        as (it' & [(Hn' & Hp' & He')|(rest & Hn' & Hr'' & Hpi & Hvr & Hlen & Hp')]).
      * exact Hr'.
      * exact Hves.
      * simpl in Hfuel. lia.
      * exists it'. left. split; [exact Hn'|]. split; [exact Hp'|exact He'].
      * exists it'. right. exists rest.
        cbn [sampleBufferedIterator.extractor] in *.
        split; [exact Hn'|]. split; [exact Hr''|]. split; [exact Hpi|].
        split; [exact Hvr|]. split; [simpl; lia|exact Hp'].
Qed.

Lemma drain_extractor (n : nat) :
  forall (es : list entry) (fuel : nat) (it : sampleBufferedIterator),
    (length es <= n)%nat ->
    ready (sampleBufferedIterator.base it) (flat_map headBlock.serialise_entry es) ->
    Forall entry_valid es ->
    (length es + 2 <= fuel)%nat ->
    sampleBufferedIterator.drain Sum64 fuel it
    = Ret (sampled Sum64 (sampleBufferedIterator.extractor it) es, None).
Proof.
  induction n as [|n IH]; intros es fuel it Hn Hr Hv Hfuel;
    (destruct fuel as [|fuel]; [simpl in Hfuel; lia|]);
    rewrite sample_drain_S;
    (destruct (@sample_Next_extractor es fuel it Hr Hv ltac:(lia))
      as (it' & [(Hn' & Hp' & He')|(rest & Hn' & Hr' & Hpi & Hvr & Hlen & Hp')]));
    rewrite Hn'; cbn [bind].
  - rewrite Hp', He'. reflexivity.
  - exfalso. lia.
  - rewrite Hp', He'. reflexivity.
  - rewrite (IH rest fuel it') by (try assumption; lia).
    cbn [bind sampleBufferedIterator.Sample]. rewrite Hpi, Hp'. reflexivity.
Qed.

End Samples.

(** The block that [cut] makes of a head of valid entries, under a
    supported encoding. *)
Lemma cut_block (c : MemChunk) :
  supported (MemChunk.encoding c) ->
  headBlock.isEmpty (MemChunk.head c) = false ->
  exists (c' : MemChunk) (out : list byte),
    MemChunk.cut c = (c', None) /\
    MemChunk.encoding c' = MemChunk.encoding c /\
    block.b (MemChunk.last_block c') = out /\
    out <> [] /\
    getReaderPool (MemChunk.encoding c) out
    = mkStream (flat_map headBlock.serialise_entry (headBlock.entries (MemChunk.head c))) EOF.
Proof.
  intros Hsup He.
  destruct (Hsup (headBlock.inBuf (MemChunk.head c))) as (out & Hw & Hne & Hrd).
  assert (Hs : headBlock.serialise (MemChunk.head c) (getWriterPool (MemChunk.encoding c))
               = (out, None)).
  { unfold headBlock.serialise. rewrite Hw. reflexivity. }
  eexists. exists out. split; [apply cut_serialised; [exact He|exact Hs]|].
  unfold MemChunk.last_block. cbn [MemChunk.encoding MemChunk.blocks].
  rewrite last_snoc. cbn [block.b].
  split; [reflexivity|]. split; [reflexivity|].
  split; [apply Hne; apply inBuf_nonempty; exact He|exact Hrd].
Qed.

Lemma len_not_nil (out : list byte) : out <> [] -> (len out =? 0) = false.
Proof.
  intros Hne. apply Z.eqb_neq. intros Hl. apply Hne.
  apply len_nil_iff. apply Z.eqb_eq. exact Hl.
Qed.

(** X17.  Under a supported encoding, the block that [cut] makes of a head
    whose lines are shorter than [maxLineLength] is read back by its
    iterator, through any pipeline, as the entries of the head that the
    pipeline keeps, in their order and with the lines the pipeline makes of
    them, and without an error. *)
Theorem cut_block_Iterator (c : MemChunk) (pipeline : Pipeline) (fuel : nat)
        (st : ChunkData) :
  supported (MemChunk.encoding c) ->
  headBlock.isEmpty (MemChunk.head c) = false ->
  Forall entry_valid (headBlock.entries (MemChunk.head c)) ->
  (length (headBlock.entries (MemChunk.head c)) + 2 <= fuel)%nat ->
  exists c' : MemChunk,
    MemChunk.cut c = (c', None) /\
    encBlock.Iterator fuel st (MemChunk.encoding c') (MemChunk.last_block c') pipeline
    = Ret (processed pipeline (headBlock.entries (MemChunk.head c)), None).
Proof.
  intros Hsup He Hv Hfuel.
  destruct (cut_block c Hsup He) as (c' & out & Hc & Henc & Hb & Hne & Hrd).
  exists c'. split; [exact Hc|].
  unfold encBlock.Iterator. rewrite Hb, (len_not_nil Hne), Henc.
  rewrite (@drain_pipeline (length (headBlock.entries (MemChunk.head c)))
             (headBlock.entries (MemChunk.head c))); try assumption.
  - reflexivity.
  - apply Nat.le_refl.
  - unfold ready. cbn. split; [reflexivity|]. split; [reflexivity|].
    left. split; [reflexivity|exact Hrd].
Qed.

(** X18.  Under the same conditions the sample iterator of the block
    yields one sample for each entry of the head from which the extractor
    takes a value, in their order: the timestamp of the entry, the value,
    and the hash of the line of the entry. *)
Theorem cut_block_SampleIterator (Sum64 : list byte -> Z) (c : MemChunk)
        (extractor : SampleExtractor) (fuel : nat) (st : ChunkData) :
  supported (MemChunk.encoding c) ->
  headBlock.isEmpty (MemChunk.head c) = false ->
  Forall entry_valid (headBlock.entries (MemChunk.head c)) ->
  (length (headBlock.entries (MemChunk.head c)) + 2 <= fuel)%nat ->
  exists c' : MemChunk,
    MemChunk.cut c = (c', None) /\
    encBlock.SampleIterator Sum64 fuel st (MemChunk.encoding c')
      (MemChunk.last_block c') extractor
    = Ret (sampled Sum64 extractor (headBlock.entries (MemChunk.head c)), None).
Proof.
  intros Hsup He Hv Hfuel.
  destruct (cut_block c Hsup He) as (c' & out & Hc & Henc & Hb & Hne & Hrd).
  exists c'. split; [exact Hc|].
  unfold encBlock.SampleIterator. rewrite Hb, (len_not_nil Hne), Henc.
  rewrite (@drain_extractor Sum64 (length (headBlock.entries (MemChunk.head c)))
             (headBlock.entries (MemChunk.head c))); try assumption.
  - reflexivity.
  - apply Nat.le_refl.
  - unfold ready. cbn. split; [reflexivity|]. split; [reflexivity|].
    left. split; [reflexivity|exact Hrd].
Qed.

End Filtering.

Lemma chunk_three_valid :
  Forall entry_valid (headBlock.entries (MemChunk.head chunk_three)).
Proof.
  replace (headBlock.entries (MemChunk.head chunk_three))
    with [entry.mk 1 (bytes_of "ab"); entry.mk 2 []; entry.mk 3 (bytes_of "cd")]
    by (vm_compute; reflexivity).
  repeat (apply Forall_cons || apply Forall_nil);
    unfold entry_valid, fits_int, maxLineLength; cbn; lia.
Defined.

Lemma cut_block_Iterator_witness :
  exists c' : MemChunk,
    @MemChunk.cut nonePools chunk_three = (c', None) /\
    @encBlock.Iterator nonePools 5 stats0 (MemChunk.encoding c')
      (MemChunk.last_block c') first_byte
    = Ret ([Entry.mk 1 (bytes_of "a"); Entry.mk 3 (bytes_of "c")], None).
Proof.
  apply (@cut_block_Iterator nonePools chunk_three first_byte 5 stats0).
  - apply nonePools_supported.
  - reflexivity.
  - exact chunk_three_valid.
  - vm_compute. lia.
Defined.

Lemma cut_block_SampleIterator_witness :
  exists c' : MemChunk,
    @MemChunk.cut nonePools chunk_three = (c', None) /\
    @encBlock.SampleIterator nonePools len 5 stats0 (MemChunk.encoding c')
      (MemChunk.last_block c') count_nonempty
    = Ret ([Sample.mk 1 PrimFloat.one 2; Sample.mk 3 PrimFloat.one 2], None).
Proof.
  apply (@cut_block_SampleIterator nonePools len chunk_three count_nonempty 5 stats0).
  - apply nonePools_supported.
  - reflexivity.
  - exact chunk_three_valid.
  - vm_compute. lia.
Defined.

(* ================================================================= *)
(** ** Blocks that do not hold what they announce *)

Section Damaged.
Context `{Pools}.

(** [Next] on a ready iterator runs [moveNext] on an open iterator whose
    buffered reader stands before the data. *)
Lemma Next_ready (fuel : nat) (si : bufferedIterator) (data : list byte) :
  ready si data ->
  exists s : bufferedIterator,
    bufferedIterator.bufReader s = Some (mkStream data EOF) /\
    bufferedIterator.closed s = false /\
    bufferedIterator.err s = None /\
    bufferedIterator.reader s <> None /\
    bufferedIterator.Next fuel si
    = ('(ts, line, ok, si) <- bufferedIterator.moveNext fuel s ;;
       if negb ok then
         let '(si, _) := bufferedIterator.Close si in Ret (false, si)
       else
         Ret (true,
              bufferedIterator.mk (bufferedIterator.origBytes si)
                (mkStats (CompressedBytes (bufferedIterator.stats si))
                   (DecompressedBytes (bufferedIterator.stats si)
                    + (len line + 2 * binary.MaxVarintLen64))
                   (DecompressedLines (bufferedIterator.stats si) + 1))
                (bufferedIterator.bufReader si) (bufferedIterator.reader si)
                (bufferedIterator.pool si) (bufferedIterator.err si)
                (bufferedIterator.buf si) line ts (bufferedIterator.closed si))).
Proof.
  intros (Hc & He & Hr). unfold bufferedIterator.Next. rewrite Hc. cbn [negb andb].
  destruct Hr as [(Hnone & Hpool) | (Hsome & Hbuf)].
  - rewrite Hnone, Hpool.
    match goal with
    | |- context [bufferedIterator.moveNext fuel ?s0] => exists s0
    end.
    split; [reflexivity|].
    cbn [bufferedIterator.closed bufferedIterator.err bufferedIterator.reader].
    split; [reflexivity|]. split; [exact He|]. split; [discriminate|reflexivity].
  - destruct (bufferedIterator.reader si) eqn:Hrd; [|congruence].
    exists si. split; [exact Hbuf|]. split; [exact Hc|]. split; [exact He|].
    split; [rewrite Hrd; discriminate|reflexivity].
Qed.

Lemma read_rest_spins (lineSize : Z) (fuel : nat) :
  forall (si : bufferedIterator) (line : list byte),
    len line < lineSize ->
    bufferedIterator.read_rest fuel si (mkStream [] EOF) line lineSize = OutOfFuel.
Proof.
  induction fuel as [|fuel IH]; intros si line Hl;
    cbn [bufferedIterator.read_rest];
    replace (len line <? lineSize) with true by (symmetry; apply Z.ltb_lt; exact Hl).
  - reflexivity.
  - unfold bufio.Read.
    replace (lineSize - len line <=? 0) with false by (symmetry; apply Z.leb_gt; lia).
    cbn [rs_data rs_end bufferedIterator.not_EOF is_EOF].
    rewrite app_nil_r. apply IH. exact Hl.
Qed.

(** The head of [moveNext], up to the line: the timestamp and the length
    are read, and the line buffer is large enough. *)
Lemma moveNext_line (fuel : nat) (si : bufferedIterator) (ts l : Z) (rest : list byte) :
  bufferedIterator.bufReader si
    = Some (mkStream (binary.PutVarint ts ++ binary.PutUvarint l ++ rest) EOF) ->
  fits_int ts ->
  0 <= l < 2 ^ 64 ->
  to_int l < maxLineLength ->
  exists si2 : bufferedIterator,
    bufferedIterator.moveNext fuel si
    = (if to_int l <? 0 then Panics
       else
         let '((p, e), r) := bufio.Read (mkStream rest EOF) (to_int l) in
         let si := bufferedIterator.with_bufReader si2 r in
         match bufferedIterator.not_EOF e with
         | Some e => Ret (0, [], false, bufferedIterator.with_err si e)
         | None =>
             '(line, ok, si) <- bufferedIterator.read_rest fuel si r p (to_int l) ;;
             if ok then Ret (ts, line, true, si)
             else Ret (0, [], false, si)
         end).
Proof.
  intros Hb Ht Hl Hmax.
  unfold bufferedIterator.moveNext. rewrite Hb.
  rewrite ReadVarint_PutVarint by exact Ht.
  rewrite ReadUvarint_PutUvarint by exact Hl.
  cbn [bufferedIterator.not_EOF].
  replace (to_int l >=? maxLineLength) with false
    by (symmetry; rewrite Z.geb_leb; apply Z.leb_gt; lia).
  set (si1 := bufferedIterator.with_bufReader
                (bufferedIterator.with_bufReader si _) _).
  set (fresh := match bufferedIterator.buf si1 with
                | Some c => to_int l >? c
                | None => true
                end).
  set (si2 := if fresh
              then bufferedIterator.with_buf si1 (BytesBufferPool_Get (to_int l))
              else si1).
  assert (Hcap : (fresh && (to_int l >?
                    match bufferedIterator.buf si2 with Some c => c | None => 0 end))
                 = false).
  { subst si2. destruct fresh; [|reflexivity].
    cbn [andb bufferedIterator.with_buf bufferedIterator.buf].
    rewrite Z.gtb_ltb. apply Z.ltb_ge. apply BytesBufferPool_Get_cap. }
  rewrite Hcap. exists si2. reflexivity.
Qed.

(** X19.  A block that ends inside a line makes the iterator spin: when
    the bytes left after the length of a line are fewer than the length,
    the loop that fills the line buffer reads nothing at the end of the
    stream, takes the end of the stream for no error and goes on, so that
    [Next] does not return, whatever the fuel. *)
Theorem Next_truncated_line_spins (si : bufferedIterator) (ts n : Z)
        (part : list byte) (fuel : nat) :
  ready si (binary.PutVarint ts ++ binary.PutUvarint n ++ part) ->
  fits_int ts ->
  len part < n < maxLineLength ->
  bufferedIterator.Next fuel si = OutOfFuel.
Proof.
  intros Hr Ht [Hpart Hmax].
  pose proof (len_nonneg part) as Hp0.
  assert (Hn : to_int n = n).
  { apply to_int_fits. unfold fits_int, maxLineLength in *. lia. }
  destruct (@Next_ready fuel si _ Hr) as (s & Hb & _ & _ & _ & ->).
  destruct (@moveNext_line fuel s ts n part Hb Ht) as (si2 & ->).
  - unfold maxLineLength in Hmax. lia.
  - rewrite Hn. exact Hmax.
  - rewrite Hn.
    replace (n <? 0) with false by (symmetry; apply Z.ltb_ge; lia).
    unfold bufio.Read.
    replace (n <=? 0) with false by (symmetry; apply Z.leb_gt; lia).
    cbn [rs_data rs_end].
    destruct part as [|c part].
    + cbn [bufferedIterator.not_EOF is_EOF].
      rewrite (@read_rest_spins n) by exact Hpart. reflexivity.
    + cbn [bufferedIterator.not_EOF].
      assert (Hlen : (length (c :: part) <= Z.to_nat n)%nat).
      { unfold len in Hpart. lia. }
      rewrite firstn_all2 by exact Hlen.
      rewrite skipn_all2 by exact Hlen.
      rewrite (@read_rest_spins n) by exact Hpart. reflexivity.
Qed.

(** X20.  A block that ends right after the timestamp of an entry is not
    found out: the end of the stream met where the length of the line is
    read counts as a length of zero, and [Next] returns true with that
    timestamp, an empty line and no error. *)
Theorem Next_truncated_after_timestamp (si : bufferedIterator) (ts : Z) (fuel : nat) :
  ready si (binary.PutVarint ts) ->
  fits_int ts ->
  exists si' : bufferedIterator,
    bufferedIterator.Next fuel si = Ret (true, si') /\
    bufferedIterator.currTs si' = ts /\
    bufferedIterator.currLine si' = [] /\
    bufferedIterator.Error si' = None /\
    ready si' [].
Proof.
  intros Hr Ht.
  destruct (@Next_ready fuel si _ Hr) as (s & Hb & Hcs & Hes & Hrs & ->).
  unfold bufferedIterator.moveNext. rewrite Hb.
  rewrite <- (app_nil_r (binary.PutVarint ts)).
  rewrite ReadVarint_PutVarint by exact Ht.
  cbn [binary.ReadUvarint binary.ReadUvarint_loop bufio.ReadByte rs_data rs_end
       bufferedIterator.not_EOF is_EOF andb Z.gtb Z.compare].
  change (to_int 0) with 0.
  change (0 >=? maxLineLength) with false. cbv iota.
  set (si1 := bufferedIterator.with_bufReader
                (bufferedIterator.with_bufReader s _) _).
  set (fresh := match bufferedIterator.buf si1 with
                | Some c => 0 >? c
                | None => true
                end).
  set (si2 := if fresh
              then bufferedIterator.with_buf si1 (BytesBufferPool_Get 0)
              else si1).
  assert (Hcap : (fresh && (0 >?
                    match bufferedIterator.buf si2 with Some c => c | None => 0 end))
                 = false).
  { subst si2. destruct fresh; [|reflexivity].
    cbn [andb bufferedIterator.with_buf bufferedIterator.buf].
    rewrite Z.gtb_ltb. apply Z.ltb_ge. apply BytesBufferPool_Get_cap. }
  rewrite Hcap.
  change (0 <? 0) with false. cbv iota.
  change (bufio.Read (mkStream [] EOF) 0) with (@nil byte, @None error, mkStream [] EOF).
  cbv beta iota. cbn [bufferedIterator.not_EOF].
  rewrite read_rest_done by (cbn; lia). cbn [bind negb].
  eexists. split; [reflexivity|].
  cbn [bufferedIterator.currTs bufferedIterator.currLine].
  split; [reflexivity|]. split; [reflexivity|].
  subst si2 si1. unfold bufferedIterator.Error, ready.
  destruct fresh; cbn; (split; [exact Hes|]); (split; [exact Hcs|]);
    (split; [exact Hes|]); right; (split; [exact Hrs|reflexivity]).
Qed.

(** X21.  A line length from [maxLineLength] up to the largest [int] is
    refused: [Next] returns false, the iterator is closed, and [Error]
    returns the error of the line too long with that length. *)
Theorem Next_line_too_long (si : bufferedIterator) (ts n : Z) (rest : list byte)
        (fuel : nat) :
  ready si (binary.PutVarint ts ++ binary.PutUvarint n ++ rest) ->
  fits_int ts ->
  maxLineLength <= n < 2 ^ 63 ->
  exists si' : bufferedIterator,
    bufferedIterator.Next fuel si = Ret (false, si') /\
    bufferedIterator.Error si' = Some (ErrLineTooLong n) /\
    bufferedIterator.closed si' = true.
Proof.
  intros Hr Ht Hn.
  assert (Hfit : to_int n = n).
  { apply to_int_fits. unfold fits_int, maxLineLength in *. lia. }
  destruct (@Next_ready fuel si _ Hr) as (s & Hb & Hcs & _ & _ & ->).
  unfold bufferedIterator.moveNext. rewrite Hb.
  rewrite ReadVarint_PutVarint by exact Ht.
  rewrite ReadUvarint_PutUvarint by (unfold maxLineLength in Hn; lia).
  cbn [bufferedIterator.not_EOF]. rewrite Hfit.
  replace (n >=? maxLineLength) with true
    by (symmetry; rewrite Z.geb_leb; apply Z.leb_le; lia).
  cbn [bind negb]. unfold bufferedIterator.Close.
  cbn [bufferedIterator.with_err bufferedIterator.with_bufReader bufferedIterator.closed].
  rewrite Hcs. cbn [negb].
  eexists. split; [reflexivity|]. split; reflexivity.
Qed.

(** X22.  A line length of 2^63 or more is a negative [int]: it passes
    the test against [maxLineLength], the line buffer of the pool is large
    enough for it, and slicing the buffer to that length panics. *)
Theorem Next_negative_length_panics (si : bufferedIterator) (ts l : Z)
        (rest : list byte) (fuel : nat) :
  ready si (binary.PutVarint ts ++ binary.PutUvarint l ++ rest) ->
  fits_int ts ->
  2 ^ 63 <= l < 2 ^ 64 ->
  bufferedIterator.Next fuel si = Panics.
Proof.
  intros Hr Ht Hl.
  assert (Hn : to_int l = l - 2 ^ 64).
  { unfold to_int, to_int64.
    replace (l + 2 ^ 63) with ((l - 2 ^ 63) + 1 * 2 ^ 64) by ring.
    rewrite Z.mod_add by lia. rewrite Z.mod_small by lia. ring. }
  destruct (@Next_ready fuel si _ Hr) as (s & Hb & _ & _ & _ & ->).
  destruct (@moveNext_line fuel s ts l rest Hb Ht) as (si2 & ->).
  - lia.
  - rewrite Hn. unfold maxLineLength. lia.
  - rewrite Hn.
    replace (l - 2 ^ 64 <? 0) with true by (symmetry; apply Z.ltb_lt; lia).
    reflexivity.
Qed.

(** X23.  When [Next] returns false the iterator is closed: its readers
    and its buffers are given back, and a [Close] after it changes nothing
    and returns the error that [Error] reports. *)
Theorem Close_after_last_Next (fuel : nat) (si si' : bufferedIterator) :
  bufferedIterator.closed si = false ->
  bufferedIterator.Next fuel si = Ret (false, si') ->
  bufferedIterator.closed si' = true /\
  bufferedIterator.reader si' = None /\
  bufferedIterator.bufReader si' = None /\
  bufferedIterator.buf si' = None /\
  bufferedIterator.origBytes si' = None /\
  bufferedIterator.Close si' = (si', bufferedIterator.Error si').
Proof.
  intros Hc. unfold bufferedIterator.Next. rewrite Hc. cbn [negb andb].
  match goal with
  | |- context [bufferedIterator.moveNext fuel ?s] =>
      set (s0 := s);
      destruct (bufferedIterator.moveNext fuel s0) as [[[[ts line] ok] s1]| |] eqn:Hm
  end; cbn [bind]; try (intros Hx; discriminate Hx).
  assert (Hc1 : bufferedIterator.closed s1 = false).
  { rewrite (moveNext_closed _ _ Hm). subst s0.
    destruct (bufferedIterator.reader si); cbn; first [exact Hc|reflexivity]. }
  destruct ok; cbn [negb]; [intros Hx; discriminate Hx|].
  unfold bufferedIterator.Close at 1. rewrite Hc1. cbn [negb].
  intros Hx. injection Hx as <-.
  unfold bufferedIterator.Close, bufferedIterator.Error. cbn.
  repeat split; reflexivity.
Qed.

End Damaged.

Lemma Next_truncated_line_spins_witness :
  @bufferedIterator.Next nonePools 7
    (bufferedIterator.newBufferedIterator stats0 (@getReaderPool nonePools EncNone)
       payload_truncated)
  = OutOfFuel.
Proof.
  apply (@Next_truncated_line_spins nonePools
           (bufferedIterator.newBufferedIterator stats0 (@getReaderPool nonePools EncNone)
              payload_truncated)
           1 2 (map z2b [0x61]) 7).
  - unfold ready. cbn. split; [reflexivity|]. split; [reflexivity|].
    left. split; reflexivity.
  - unfold fits_int. lia.
  - unfold maxLineLength. cbn. lia.
Defined.

Lemma Next_truncated_after_timestamp_witness :
  exists si' : bufferedIterator,
    @bufferedIterator.Next nonePools 0
      (bufferedIterator.newBufferedIterator stats0 (@getReaderPool nonePools EncNone)
         payload_timestamp_only)
    = Ret (true, si') /\
    bufferedIterator.currTs si' = 1 /\
    bufferedIterator.currLine si' = [] /\
    bufferedIterator.Error si' = None /\
    @ready si' [].
Proof.
  apply (@Next_truncated_after_timestamp nonePools
           (bufferedIterator.newBufferedIterator stats0 (@getReaderPool nonePools EncNone)
              payload_timestamp_only) 1 0).
  - unfold ready. cbn. split; [reflexivity|]. split; [reflexivity|].
    left. split; reflexivity.
  - unfold fits_int. lia.
Defined.

Lemma Next_line_too_long_witness :
  exists si' : bufferedIterator,
    @bufferedIterator.Next nonePools 0
      (bufferedIterator.newBufferedIterator stats0 (@getReaderPool nonePools EncNone)
         payload_line_too_long)
    = Ret (false, si') /\
    bufferedIterator.Error si' = Some (ErrLineTooLong (2 ^ 30)) /\
    bufferedIterator.closed si' = true.
Proof.
  apply (@Next_line_too_long nonePools
           (bufferedIterator.newBufferedIterator stats0 (@getReaderPool nonePools EncNone)
              payload_line_too_long) 1 (2 ^ 30) [] 0).
  - unfold ready. cbn. split; [reflexivity|]. split; [reflexivity|].
    left. split; reflexivity.
  - unfold fits_int. lia.
  - unfold maxLineLength. lia.
Defined.

Lemma Next_negative_length_panics_witness :
  @bufferedIterator.Next nonePools 7
    (bufferedIterator.newBufferedIterator stats0 (@getReaderPool nonePools EncNone)
       payload_negative_length)
  = Panics.
Proof.
  apply (@Next_negative_length_panics nonePools
           (bufferedIterator.newBufferedIterator stats0 (@getReaderPool nonePools EncNone)
              payload_negative_length)
           1 (2 ^ 63) [] 7).
  - unfold ready. cbn. split; [reflexivity|]. split; [reflexivity|].
    left. split; reflexivity.
  - unfold fits_int. lia.
  - lia.
Defined.

Lemma Close_after_last_Next_witness :
  exists si' : bufferedIterator,
    @bufferedIterator.Next nonePools 1
      (bufferedIterator.newBufferedIterator stats0 (@getReaderPool nonePools EncNone) [])
    = Ret (false, si') /\
    bufferedIterator.Close si' = (si', bufferedIterator.Error si').
Proof.
  eexists. split; [reflexivity|].
  apply (@Close_after_last_Next nonePools 1
           (bufferedIterator.newBufferedIterator stats0 (@getReaderPool nonePools EncNone) []));
    reflexivity.
Defined.

(* ================================================================= *)
(** ** Iterating over a chunk in memory *)





Section InMemory.
Context `{Pools}.


(** What a chunk holds is what its iterator yields, the entries of the
    head that are not cut yet as well. *)
Lemma holds_Iterator (lo hi : Z) (c : MemChunk) (P : list Entry) (fuel : nat)
      (st : ChunkData) :
  holds lo hi c P ->
  Forall (Entry_valid lo hi) P ->
  (length P + 2 <= fuel)%nat ->
  ChunkIterator.Iterator fuel st c lo hi FORWARD NoopPipeline = Ret (P, None).
Proof.
  intros (ess & Hblocks & HP & Hhv & He0 & Hne) HvP Hfuel.
  unfold ChunkIterator.Iterator.
  assert (Hlen : (length (concat ess) <= length P)%nat).
  { rewrite <- HP, length_map, length_app. lia. }
  rewrite (@block_iterators_good _ fuel st (MemChunk.encoding c) lo hi
             (MemChunk.blocks c) ess Hblocks) by lia.
  cbn [bind].
  assert (Hnoop : forall es : list entry,
             flat_map (fun e => let '(newLine, keep) := NoopPipeline (entry.s e) in
                                if keep then [Entry.mk (entry.t e) newLine] else []) es
             = map to_Entry es).
  { induction es as [|e es IH]; [reflexivity|]. cbn [flat_map map].
    rewrite IH. reflexivity. }
  destruct (headBlock.isEmpty (MemChunk.head c)) eqn:Hemp; cbn [negb].
  - rewrite (@NonOverlapping_blocks ess).
    apply isEmpty_true in Hemp. rewrite Hemp, app_nil_r in HP. rewrite HP.
    rewrite TimeRanged_all by exact HvP. reflexivity.
  - destruct (Hne eq_refl) as (_ & _ & Hmin & Hmax).
    unfold headIterator.iterator. rewrite Hemp.
    replace ((hi <? headBlock.mint (MemChunk.head c))
             || (headBlock.maxt (MemChunk.head c) <? lo)) with false
      by (symmetry; apply orb_false_iff; split; apply Z.ltb_ge; lia).
    cbn [orb]. rewrite Hnoop.
    change [(map to_Entry (headBlock.entries (MemChunk.head c)), @None error)]
      with (map (fun es => (map to_Entry es, @None error))
              [headBlock.entries (MemChunk.head c)]).
    rewrite <- map_app.
    rewrite (@NonOverlapping_blocks (ess ++ [headBlock.entries (MemChunk.head c)])).
    rewrite concat_app. cbn [concat]. rewrite app_nil_r, HP.
    rewrite TimeRanged_all by exact HvP. reflexivity.
Qed.

(** X25.  Entries are read before they are written out: after in-order
    entries with lines shorter than [maxLineLength] are appended to a new
    chunk of a supported encoding, the iterator of the chunk in memory
    yields all of them in their order, those still in the head included. *)
Theorem Iterator_sees_head (enc : Encoding) (blockSize targetSize : Z) (lo hi : Z)
        (E : list Entry) (fuel : nat) (st : ChunkData) :
  supported enc ->
  in_order E ->
  Forall (Entry_valid lo hi) E ->
  fits_int (len E) ->
  (length E + 2 <= fuel)%nat ->
  exists c : MemChunk,
    appendAll (MemChunk.NewMemChunk enc blockSize targetSize) E
      = (c, map (fun _ => None) E) /\
    ChunkIterator.Iterator fuel st c lo hi FORWARD NoopPipeline = Ret (E, None).
Proof.
  intros Hsup Ho Hv Hfit Hfuel.
  assert (Hfrom : exists T, in_order_from T E).
  { destruct E as [|e E]; [exists 0; exact I|].
    exists (Entry.Timestamp e). apply in_order_from_first. exact Ho. }
  destruct Hfrom as [T Hfrom].
  destruct (@holds_appendAll _ lo hi E (MemChunk.NewMemChunk enc blockSize targetSize) [] T)
    as (c & Ha & Hh & _ & _).
  - exact Hsup.
  - apply holds_new.
  - apply below_new.
  - exact Hfrom.
  - exact Hv.
  - exact Hfit.
  - exists c. split; [exact Ha|].
    cbn [app] in Hh.
    apply (@holds_Iterator lo hi c E fuel st Hh Hv Hfuel).
Qed.

End InMemory.

Lemma Iterator_sees_head_witness :
  exists c : MemChunk,
    @appendAll nonePools (MemChunk.NewMemChunk EncNone 4 0) entries_S2
      = (c, map (fun _ => None) entries_S2) /\
    @ChunkIterator.Iterator nonePools 5 stats0 c 0 10 FORWARD NoopPipeline
      = Ret (entries_S2, None).
Proof.
  apply (@Iterator_sees_head nonePools EncNone 4 0 0 10 entries_S2 5 stats0).
  - apply nonePools_supported.
  - cbn. lia.
  - repeat (apply Forall_cons || apply Forall_nil);
      unfold Entry_valid, fits_int, maxLineLength; cbn; lia.
  - unfold fits_int. cbn. lia.
  - cbn. lia.
Defined.


(* ================================================================= *)
(** ** The head block *)

Lemma in_order_from_snoc (es : list Entry) (e : Entry) :
  forall T : Z,
    in_order_from T es ->
    last (map Entry.Timestamp es) T <= Entry.Timestamp e ->
    in_order_from T (es ++ [e]).
Proof.
  induction es as [|x es IH]; intros T Ho Hl.
  - cbn in *. split; [exact Hl|exact I].
  - destruct Ho as [Hx Ho]. cbn [app in_order_from]. split; [exact Hx|].
    apply IH; [exact Ho|]. cbn [map] in Hl. rewrite last_cons in Hl. exact Hl.
Qed.

Lemma timestamps_to_Entry (es : list entry) :
  map Entry.Timestamp (map to_Entry es) = map entry.t es.
Proof. rewrite map_map. apply map_ext. intros e. reflexivity. Qed.

Lemma lines_total_snoc (es : list entry) (e : entry) :
  lines_total (es ++ [e]) = lines_total es + len (entry.s e).
Proof.
  induction es as [|x es IH]; [cbn; ring|].
  change (len (entry.s x) + lines_total (es ++ [e])
          = len (entry.s x) + lines_total es + len (entry.s e)).
  rewrite IH. ring.
Qed.

Lemma head_ok_append (hb h : headBlock) (ts : Z) (line : list byte) :
  head_ok hb ->
  headBlock.append hb ts line = (h, None) ->
  head_ok h.
Proof.
  intros (Ho & Hmax & Hsize) Ha.
  apply head_append_ok in Ha. destruct Ha as [Hle ->].
  unfold head_ok. cbn [headBlock.entries headBlock.maxt headBlock.size].
  split; [|split].
  - rewrite map_app. cbn [map].
    destruct (headBlock.entries hb) as [|e0 es] eqn:Hes.
    + cbn. split; [lia|exact I].
    + cbn [app]. apply in_order_from_snoc; [exact Ho|].
      change (Entry.Timestamp (to_Entry (entry.mk ts line))) with ts.
      destruct Hle as [Hemp|Hle].
      * apply isEmpty_true in Hemp. congruence.
      * rewrite timestamps_to_Entry.
        rewrite (@last_map_default _ _ entry.t (e0 :: es) e0).
        assert (Hne : headBlock.isEmpty hb = false).
        { apply isEmpty_false. rewrite Hes. discriminate. }
        rewrite (Hmax Hne) in Hle. try rewrite Hes in Hle.
        rewrite last_cons in *. cbn [last] in *.
        destruct es; exact Hle.
  - intros _. rewrite last_snoc. reflexivity.
  - rewrite Hsize, lines_total_snoc. unfold int_add. rewrite to_int_add_l.
    reflexivity.
Qed.

Section HeadBlock.
Context `{Pools}.

Lemma head_ok_cut (c : MemChunk) :
  head_ok (MemChunk.head c) -> head_ok (MemChunk.head (fst (MemChunk.cut c))).
Proof.
  intros Hc.
  destruct (cut_cases c) as [[_ ->]|[[_ [e [-> _]]]|[He [out ->]]]];
    [exact Hc|exact Hc|].
  cbn [fst MemChunk.head]. unfold head_ok. cbn.
  split; [exact I|]. split; [intros Hx; discriminate Hx|reflexivity].
Qed.

(** X26.  In every chunk reached from a new one by appends and cuts, the
    timestamps of the entries of the head do not decrease, [maxt] of a
    head that holds entries is the timestamp of its last entry, and its
    [size] is the sum of the lengths of its lines (a sum of [int]). *)
Theorem head_stays_ordered (enc : Encoding) (blockSize targetSize : Z)
        (ops : list op) :
  let hb := MemChunk.head (run (MemChunk.NewMemChunk enc blockSize targetSize) ops) in
  in_order (map to_Entry (headBlock.entries hb)) /\
  (headBlock.isEmpty hb = false ->
   headBlock.maxt hb = entry.t (last (headBlock.entries hb) (entry.mk 0 []))) /\
  headBlock.size hb = to_int (lines_total (headBlock.entries hb)).
Proof.
  intros hb.
  assert (Hok : head_ok hb).
  { subst hb.
    apply (@run_keeps _ (fun c => head_ok (MemChunk.head c))).
    - apply head_ok_cut.
    - intros c0 e Hc0.
      apply (@Append_keeps _ (fun c => head_ok (MemChunk.head c)));
        [apply head_ok_cut| |exact Hc0].
      intros h Ha. cbn [MemChunk.with_head MemChunk.head].
      apply head_ok_append with (1 := Hc0) (2 := Ha).
    - unfold head_ok. cbn.
      split; [exact I|]. split; [intros Hx; discriminate Hx|reflexivity]. }
  destruct Hok as (Ho & Hmax & Hsize).
  split; [|split; assumption].
  destruct (headBlock.entries hb) as [|e0 es]; [exact I|].
  cbn [map in_order] in *. destruct Ho as [_ Ho]. exact Ho.
Qed.

End HeadBlock.

(* ================================================================= *)
(** ** The sizes after a run of appends *)

Section Appended.
Context `{Pools}.

Lemma below_Append_any (c : MemChunk) (e : Entry) (T : Z) :
  below c T -> T <= Entry.Timestamp e ->
  error_eqb_OutOfOrder (snd (MemChunk.Append c e)) = false /\
  below (fst (MemChunk.Append c e)) (Entry.Timestamp e).
Proof.
  intros [Hb1 Hb2] HT.
  assert (Hnot : snd (MemChunk.Append c e) <> Some ErrOutOfOrder).
  { intros Hr. destruct (@Append_refused_why _ c e Hr) as [(Hemp & Hb & Hlt)|(Hemp & Hlt)].
    - specialize (Hb2 Hemp Hb). lia.
    - specialize (Hb1 Hemp). lia. }
  assert (Hhead : forall h : headBlock,
             headBlock.append (MemChunk.head c) (Entry.Timestamp e) (Entry.Line e)
             = (h, None) ->
             below (MemChunk.with_head c h) (Entry.Timestamp e)).
  { intros h Ha. apply head_append_ok in Ha. destruct Ha as [_ ->].
    split; cbn [MemChunk.with_head MemChunk.head headBlock.maxt].
    - intros _. lia.
    - rewrite isEmpty_snoc. intros Hx. discriminate Hx. }
  assert (Hcut : forall c0 : MemChunk,
             headBlock.isEmpty (MemChunk.head c0) = false ->
             below c0 (Entry.Timestamp e) ->
             below (fst (MemChunk.cut c0)) (Entry.Timestamp e)).
  { intros c0 Hne [Hc1 Hc2].
    destruct (cut_cases c0) as [[He Hc]|[[He [e0 [Hc _]]]|[He [out Hc]]]]; rewrite Hc.
    - split; assumption.
    - split; assumption.
    - cbn [fst]. unfold below, MemChunk.last_block.
      cbn [MemChunk.head MemChunk.blocks]. rewrite last_snoc. cbn [block.maxt].
      split.
      + cbn. intros Hx. discriminate Hx.
      + intros _ _. apply Hc1. exact He. }
  destruct (Append_cases c e) as [Hr|h Ha Hr|h Ha Hr].
  - exfalso. apply Hnot. rewrite Hr. reflexivity.
  - rewrite Hr. split; [reflexivity|]. apply Hhead. exact Ha.
  - rewrite Hr. split; [apply cut_not_OutOfOrder|].
    apply Hcut; [|apply Hhead; exact Ha].
    apply head_append_ok in Ha. destruct Ha as [_ ->]. apply isEmpty_snoc.
Qed.

Lemma head_reset_Append (c : MemChunk) (e : Entry) :
  head_reset c -> head_reset (fst (MemChunk.Append c e)).
Proof.
  intros Hr0.
  assert (Hcut : forall c0 : MemChunk,
             headBlock.isEmpty (MemChunk.head c0) = false ->
             head_reset (fst (MemChunk.cut c0))).
  { intros c0 Hne.
    destruct (cut_cases c0) as [[He Hc]|[[He [e0 [Hc _]]]|[He [out Hc]]]]; rewrite Hc.
    - congruence.
    - intros Hx. cbn [fst] in Hx. congruence.
    - intros _. reflexivity. }
  destruct (Append_cases c e) as [Hr|h Ha Hr|h Ha Hr]; rewrite Hr.
  - exact Hr0.
  - apply head_append_ok in Ha. destruct Ha as [_ ->].
    intros Hx. cbn [fst MemChunk.with_head MemChunk.head] in Hx.
    rewrite isEmpty_snoc in Hx. discriminate Hx.
  - apply Hcut. apply head_append_ok in Ha. destruct Ha as [_ ->]. apply isEmpty_snoc.
Qed.

Lemma sizes_accepted (c : MemChunk) (e : Entry) :
  head_reset c ->
  error_eqb_OutOfOrder (snd (MemChunk.Append c e)) = false ->
  MemChunk.Size (fst (MemChunk.Append c e)) = int_add (MemChunk.Size c) 1 /\
  MemChunk.UncompressedSize (fst (MemChunk.Append c e))
  = int_add (MemChunk.UncompressedSize c) (len (Entry.Line e)).
Proof.
  intros Hr0.
  destruct (Append_cases c e) as [Hr|h Ha Hr|h Ha Hr]; rewrite Hr;
    cbn [fst snd error_eqb_OutOfOrder]; intros Hnot.
  - discriminate Hnot.
  - split; [eapply Size_head_append|eapply UncompressedSize_head_append]; eassumption.
  - rewrite Size_cut, UncompressedSize_cut.
    split; [eapply Size_head_append|eapply UncompressedSize_head_append]; eassumption.
Qed.

Lemma sizes_appendAll (E : list Entry) :
  forall (c : MemChunk) (T : Z),
    below c T -> in_order_from T E -> head_reset c ->
    MemChunk.Size (fst (appendAll c E)) = to_int (MemChunk.Size c + len E) /\
    MemChunk.UncompressedSize (fst (appendAll c E))
    = to_int (MemChunk.UncompressedSize c + Lines_total E).
Proof.
  induction E as [|e E IH]; intros c T Hb Ho Hr0.
  - cbn [appendAll fst]. change (len (@nil Entry)) with 0. cbn [Lines_total fold_right].
    rewrite !Z.add_0_r. split; symmetry.
    + rewrite Size_total. apply to_int_idem.
    + rewrite (UncompressedSize_total Hr0). apply to_int_idem.
  - destruct Ho as [HT Ho].
    destruct (@below_Append_any c e T Hb HT) as [Hnot Hb'].
    destruct (@sizes_accepted c e Hr0 Hnot) as [HS HU].
    pose proof (@head_reset_Append c e Hr0) as Hr1.
    cbn [appendAll]. destruct (MemChunk.Append c e) as [c1 err1]. cbn [fst snd] in *.
    destruct (IH c1 _ Hb' Ho Hr1) as [IHS IHU].
    destruct (appendAll c1 E) as [c2 errs]. cbn [fst] in *.
    rewrite IHS, IHU, HS, HU. unfold int_add. rewrite !to_int_add_l.
    split; f_equal.
    + unfold len. cbn [length]. lia.
    + change (Lines_total (e :: E)) with (len (Entry.Line e) + Lines_total E). ring.
Qed.

(** X27.  After in-order entries are appended to a new chunk, [Size] is
    their number and [UncompressedSize] the sum of the lengths of their
    lines (as an [int]), wherever the blocks were cut and whether the
    compressor failed or not. *)
Theorem sizes_of_appended (enc : Encoding) (blockSize targetSize : Z) (E : list Entry) :
  in_order E ->
  fits_int (len E) ->
  MemChunk.Size (fst (appendAll (MemChunk.NewMemChunk enc blockSize targetSize) E))
  = len E /\
  MemChunk.UncompressedSize
    (fst (appendAll (MemChunk.NewMemChunk enc blockSize targetSize) E))
  = to_int (Lines_total E).
Proof.
  intros Ho Hfit.
  assert (Hfrom : exists T, in_order_from T E).
  { destruct E as [|e E]; [exists 0; exact I|].
    exists (Entry.Timestamp e). apply in_order_from_first. exact Ho. }
  destruct Hfrom as [T Hfrom].
  destruct (@sizes_appendAll E (MemChunk.NewMemChunk enc blockSize targetSize) T)
    as [HS HU].
  - apply below_new.
  - exact Hfrom.
  - intros _. reflexivity.
  - rewrite HS, HU. split.
    + change (MemChunk.Size (MemChunk.NewMemChunk enc blockSize targetSize)) with 0.
      rewrite Z.add_0_l. apply to_int_fits. exact Hfit.
    + change (MemChunk.UncompressedSize (MemChunk.NewMemChunk enc blockSize targetSize))
        with 0.
      rewrite Z.add_0_l. reflexivity.
Qed.

End Appended.

Lemma sizes_of_appended_witness :
  MemChunk.Size chunk_S2 = 3 /\ MemChunk.UncompressedSize chunk_S2 = 6.
Proof.
  apply (@sizes_of_appended nonePools EncNone 4 0 entries_S2).
  - cbn. lia.
  - unfold fits_int. cbn. lia.
Defined.
